(** * Maze engine: generation by randomized backtracking, BFS solving, rendering

    A shallow embedding of the [Maze] class of [python_guide_3d659f.py]
    together with the properties of its constructor, [generate], [solve]
    and [display]. *)

From Stdlib Require Import ZArith Ascii String Lia.
From stdpp Require Import base tactics option list numbers countable sorting functions gmap strings.

Open Scope Z_scope.

(** ** Results of Python computations *)

(** The exceptions the class can raise by itself: indexing a list out of
    range and looking up a missing dictionary key. *)
Inductive exn : Type := IndexError | KeyError.

(** A call either returns a value, raises, or (in the model only) exhausts
    the fuel given to one of its [while] loops. *)
Inductive result (A : Type) : Type :=
| Ok (a : A)
| Raise (e : exn)
| OutOfFuel.
Arguments Ok {A} a.
Arguments Raise {A} e.
Arguments OutOfFuel {A}.

#[global] Instance result_bind : MBind result := fun A B k r =>
  match r with
  | Ok a => k a
  | Raise e => Raise e
  | OutOfFuel => OutOfFuel
  end.

Definition raises {A} (r : result A) : Prop := exists e, r = Raise e.

(** ** Python list indexing *)

(** [l[i]] accepts [0 <= i < len l] and the negative aliases
    [-len l <= i < 0]; everything else is an [IndexError]. *)
Definition py_index (n : nat) (i : Z) : option nat :=
  if (0 <=? i) && (i <? Z.of_nat n) then Some (Z.to_nat i)
  else if (- Z.of_nat n <=? i) && (i <? 0) then Some (Z.to_nat (Z.of_nat n + i))
  else None.

Definition py_get {A} (l : list A) (i : Z) : result A :=
  match py_index (length l) i with
  | Some k => match l !! k with Some x => Ok x | None => Raise IndexError end
  | None => Raise IndexError
  end.

Definition py_set {A} (l : list A) (i : Z) (x : A) : result (list A) :=
  match py_index (length l) i with
  | Some k => Ok (<[k := x]> l)
  | None => Raise IndexError
  end.

(** ** The maze *)

(** Coordinates are [(row, col)] tuples, a cell is a one-character string,
    a row a list of cells and the grid a list of rows. *)
Abbreviation coord := (Z * Z)%type.
Abbreviation cell := ascii.
Abbreviation row := (list ascii).
Abbreviation grid_t := (list (list ascii)).

Definition Wall : cell := "#"%char.
Definition Path : cell := " "%char.
Definition StartMark : cell := "S"%char.
Definition EndMark : cell := "E"%char.
Definition SolutionMark : cell := "o"%char.

Record Maze : Type := mkMaze {
  width : Z;
  height : Z;
  grid : grid_t;
  start : coord;
  end_ : coord
}.

(** [self.grid[r][c]] *)
Definition grid_get (g : grid_t) (r c : Z) : result cell :=
  rw ← py_get g r; py_get rw c.

(** [self.grid[r][c] = x]: the row object is updated in place. The rows
    built by the constructor are pairwise distinct objects, so replacing
    row [r] by the updated row is what the store looks like afterwards. *)
Definition grid_set (g : grid_t) (r c : Z) (x : cell) : result grid_t :=
  rw ← py_get g r;
  rw' ← py_set rw c x;
  py_set g r rw'.

(** [Maze.__init__]. [%] is Python's floored remainder, which is [Z.modulo];
    [range(n)] is empty for [n <= 0], which is [Z.to_nat]. *)
Definition Maze_init (width0 height0 : Z) : result Maze :=
  let width := if width0 mod 2 =? 0 then width0 + 1 else width0 in
  let height := if height0 mod 2 =? 0 then height0 + 1 else height0 in
  Ok {| width := width;
        height := height;
        grid := replicate (Z.to_nat height) (replicate (Z.to_nat width) Wall);
        start := (1, 1);
        end_ := (height - 2, width - 2) |}.

(** What the constructor makes of a requested dimension. *)
Definition normalize (d : Z) : Z := if Z.even d then d + 1 else d.

(** [Maze._is_valid] *)
Definition is_valid (m : Maze) (r c : Z) : bool :=
  (0 <=? r) && (r <? height m) && (0 <=? c) && (c <? width m).

(** ** Generation *)

Definition gen_directions : list coord := [(0, 2); (0, -2); (2, 0); (-2, 0)].

(** The [for dr, dc in directions] loop of [generate]: the candidates in
    the order they are appended. The grid is read only where [_is_valid]
    holds ([and] short-circuits). *)
Fixpoint unvisited_neighbors (m : Maze) (g : grid_t) (cr cc : Z)
    (dirs : list coord) : result (list coord) :=
  match dirs with
  | [] => Ok []
  | (dr, dc) :: dirs' =>
      let nr := cr + dr in
      let nc := cc + dc in
      if is_valid m nr nc then
        ch ← grid_get g nr nc;
        rest ← unvisited_neighbors m g cr cc dirs';
        if decide (ch = Wall) then Ok ((nr, nc) :: rest) else Ok rest
      else unvisited_neighbors m g cr cc dirs'
  end.

(** [random.choice]: the random source is a tape [rnd]; the [k]-th call
    picks the element at position [rnd k mod len]. Every sequence of
    choices the program can make is the run of some tape. *)
Definition choice (rnd : nat -> nat) (k : nat) (x0 : coord) (xs : list coord) : coord :=
  nth (rnd k mod length (x0 :: xs))%nat (x0 :: xs) x0.

(** The [while stack:] loop. The stack is kept with its top at the head;
    [k] counts the calls to [random.choice] made so far. [//] is floored
    division, which is [Z.div]. *)
Fixpoint generate_loop (fuel : nat) (rnd : nat -> nat) (m : Maze) (k : nat)
    (g : grid_t) (stack : list coord) : result grid_t :=
  match fuel with
  | O => OutOfFuel
  | S fuel' =>
      match stack with
      | [] => Ok g
      | (cr, cc) :: rest =>
          nbrs ← unvisited_neighbors m g cr cc gen_directions;
          match nbrs with
          | [] => generate_loop fuel' rnd m k g rest
          | x0 :: xs =>
              let '(nr, nc) := choice rnd k x0 xs in
              g1 ← grid_set g nr nc Path;
              let wr := cr + (nr - cr) / 2 in
              let wc := cc + (nc - cc) / 2 in
              g2 ← grid_set g1 wr wc Path;
              generate_loop fuel' rnd m (S k) g2 ((nr, nc) :: stack)
          end
      end
  end.

Definition with_grid (m : Maze) (g : grid_t) : Maze :=
  {| width := width m; height := height m; grid := g;
     start := start m; end_ := end_ m |}.

(** Fuel for the generation loop: every iteration either carves a wall
    junction or pops the stack. *)
Definition gen_fuel (m : Maze) : nat :=
  (2 * (Z.to_nat (height m) * Z.to_nat (width m)) + 2)%nat.

(** [Maze.generate] *)
Definition generate (rnd : nat -> nat) (m : Maze) : result Maze :=
  let '(sr, sc) := start m in
  g0 ← grid_set (grid m) sr sc Path;
  g1 ← generate_loop (gen_fuel m) rnd m 0 g0 [(sr, sc)];
  g2 ← grid_set g1 (start m).1 (start m).2 StartMark;
  g3 ← grid_set g2 (end_ m).1 (end_ m).2 EndMark;
  Ok (with_grid m g3).

(** ** Solving *)

Definition solve_directions : list coord := [(0, 1); (0, -1); (1, 0); (-1, 0)].

Record bfs_state : Type := mkBfs {
  queue : list coord;
  visited : gset coord;
  parent_map : gmap coord (option coord)
}.

(** The inner [for dr, dc in directions] loop of [solve]. *)
Fixpoint bfs_neighbors (m : Maze) (cur : coord) (dirs : list coord)
    (st : bfs_state) : result bfs_state :=
  match dirs with
  | [] => Ok st
  | (dr, dc) :: dirs' =>
      let nr := cur.1 + dr in
      let nc := cur.2 + dc in
      if is_valid m nr nc then
        ch ← grid_get (grid m) nr nc;
        if decide (ch <> Wall) then
          if decide ((nr, nc) ∉ visited st) then
            bfs_neighbors m cur dirs'
              {| queue := queue st ++ [(nr, nc)];
                 visited := {[ (nr, nc) ]} ∪ visited st;
                 parent_map := <[ (nr, nc) := Some cur ]> (parent_map st) |}
          else bfs_neighbors m cur dirs' st
        else bfs_neighbors m cur dirs' st
      else bfs_neighbors m cur dirs' st
  end.

(** The [while queue:] loop; [Ok None] is [path_found == False]. *)
Fixpoint bfs_loop (fuel : nat) (m : Maze) (st : bfs_state)
    : result (option (gmap coord (option coord))) :=
  match fuel with
  | O => OutOfFuel
  | S fuel' =>
      match queue st with
      | [] => Ok None
      | cur :: rest =>
          if decide (cur = end_ m) then Ok (Some (parent_map st))
          else
            st' ← bfs_neighbors m cur solve_directions
                     {| queue := rest; visited := visited st;
                        parent_map := parent_map st |};
            bfs_loop fuel' m st'
      end
  end.

(** The [while current is not None] loop: [path] is built by appending. *)
Fixpoint reconstruct (fuel : nat) (pm : gmap coord (option coord))
    (path : list coord) (current : option coord) : result (list coord) :=
  match current with
  | None => Ok path
  | Some cur =>
      match fuel with
      | O => OutOfFuel
      | S fuel' =>
          match pm !! cur with
          | None => Raise KeyError
          | Some nxt => reconstruct fuel' pm (path ++ [cur]) nxt
          end
      end
  end.

Definition solve_fuel (m : Maze) : nat :=
  (Z.to_nat (height m) * Z.to_nat (width m) + 2)%nat.

(** [Maze.solve] *)
Definition solve (m : Maze) : result (option (list coord)) :=
  found ← bfs_loop (solve_fuel m) m
             {| queue := [start m]; visited := {[ start m ]};
                parent_map := {[ start m := None ]} |};
  match found with
  | None => Ok None
  | Some pm =>
      path ← reconstruct (solve_fuel m) pm [] (Some (end_ m));
      Ok (Some (reverse path))
  end.

(** ** Cells of a grid *)

(** The cell at an in-range, non-negative coordinate (no negative aliases). *)
Definition cell_at (g : grid_t) (p : coord) : option cell :=
  if (0 <=? p.1) && (0 <=? p.2)
  then rw ← g !! Z.to_nat p.1; rw !! Z.to_nat p.2
  else None.

(** An open cell is a cell of the grid that is not a wall. *)
Definition open_cell (g : grid_t) (p : coord) : Prop :=
  exists ch, cell_at g p = Some ch /\ ch <> Wall.

(** The grid of a maze of the given dimensions: [h] rows of [w] cells. *)
Definition wf_grid (h w : Z) (g : grid_t) : Prop :=
  length g = Z.to_nat h /\ Forall (fun rw : row => length rw = Z.to_nat w) g.

Definition wf_maze (m : Maze) : Prop := wf_grid (height m) (width m) (grid m).

(** 4-directional adjacency: Manhattan distance exactly 1. *)
Definition adj (p q : coord) : Prop :=
  Z.abs (p.1 - q.1) + Z.abs (p.2 - q.2) = 1.


(** ** Simple paths and perfect mazes *)

(** [simple_path O p q l]: [l] lists pairwise distinct cells of [O], starts
    at [p], ends at [q], and each cell is 4-adjacent to the next. *)
Inductive simple_path (O : coord -> Prop) : coord -> coord -> list coord -> Prop :=
| sp_one p : O p -> simple_path O p p [p]
| sp_cons p p' q l :
    O p -> adj p p' -> p ∉ l -> simple_path O p' q l ->
    simple_path O p q (p :: l).

(** A perfect maze: any two cells of [O] are joined by exactly one simple
    path inside [O]. *)
Definition perfect (O : coord -> Prop) : Prop :=
  forall p q, O p -> O q ->
    exists l, simple_path O p q l /\ forall l', simple_path O p q l' -> l' = l.

(** ** The lattice carved by generation *)

(** Generation starts at [(1,1)] and moves two cells at a time: the cells
    it visits (the junctions) have two odd coordinates. *)
Definition junction (p : coord) : Prop := p.1 mod 2 = 1 /\ p.2 mod 2 = 1.

(** A carved connector: exactly one even coordinate, and on the axis of
    that coordinate it lies between two open junctions. *)
Definition connector (g : grid_t) (p : coord) : Prop :=
  (p.1 mod 2 = 1 /\ p.2 mod 2 = 0 /\
     open_cell g (p.1, p.2 - 1) /\ open_cell g (p.1, p.2 + 1)) \/
  (p.1 mod 2 = 0 /\ p.2 mod 2 = 1 /\
     open_cell g (p.1 - 1, p.2) /\ open_cell g (p.1 + 1, p.2)).

Definition lattice (g : grid_t) : Prop :=
  forall p, open_cell g p -> junction p \/ connector g p.

(** All coordinates of an [h] by [w] grid, and those that are still walls. *)
Definition all_cells (h w : Z) : list coord := list_prod (seqZ 0 h) (seqZ 0 w).

Definition walls (m : Maze) (g : grid_t) : list coord :=
  filter (fun p => cell_at g p = Some Wall) (all_cells (height m) (width m)).

(** The loop invariant of [generate]: the grid holds walls and paths only,
    the open cells form a perfect maze on the odd lattice, the stack holds
    open junctions, and an open junction that has left the stack has no
    wall junction two cells away. *)
Record gen_inv (m : Maze) (g : grid_t) (stack : list coord) : Prop := {
  gi_wf : wf_grid (height m) (width m) g;
  gi_chars : forall p ch, cell_at g p = Some ch -> ch = Wall \/ ch = Path;
  gi_lattice : lattice g;
  gi_stack : forall p, p ∈ stack -> open_cell g p /\ junction p;
  gi_start : open_cell g (1, 1);
  gi_perfect : perfect (open_cell g);
  gi_done : forall p d,
      open_cell g p -> junction p -> p ∉ stack -> d ∈ gen_directions ->
      is_valid m (p.1 + d.1) (p.2 + d.2) = true ->
      open_cell g (p.1 + d.1, p.2 + d.2)
}.

(** [Maze(width, height)] followed by [generate()]. *)
Definition generated (rnd : nat -> nat) (width0 height0 : Z) : result Maze :=
  m ← Maze_init width0 height0; generate rnd m.

(** Exactly one [StartMark] cell, at [(1,1)], and exactly one [EndMark] cell, at
    [(height-2, width-2)]. *)
Definition marks_ok (m : Maze) : Prop :=
  forall p,
    (cell_at (grid m) p = Some StartMark <-> p = (1, 1)) /\
    (cell_at (grid m) p = Some EndMark <-> p = (height m - 2, width m - 2)).

(** The lattice with the parities the specification names: junctions on
    two even coordinates, connectors on an odd coordinate between two
    even ones. *)
Definition lattice_even (g : grid_t) : Prop :=
  forall p, open_cell g p ->
    (p.1 mod 2 = 0 /\ p.2 mod 2 = 0) \/
    (p.1 mod 2 = 0 /\ p.2 mod 2 = 1 /\
       open_cell g (p.1, p.2 - 1) /\ open_cell g (p.1, p.2 + 1)) \/
    (p.1 mod 2 = 1 /\ p.2 mod 2 = 0 /\
       open_cell g (p.1 - 1, p.2) /\ open_cell g (p.1 + 1, p.2)).

(** ** Walks and distances in the grid *)

(** [walk g p q l]: [l] is a sequence of open cells from [p] to [q], each
    4-adjacent to the next. *)
Inductive walk (g : grid_t) : coord -> coord -> list coord -> Prop :=
| walk_one p : open_cell g p -> walk g p p [p]
| walk_cons p p' q l :
    open_cell g p -> adj p p' -> walk g p' q l -> walk g p q (p :: l).

(** [trail g p q l]: as [walk], but the first cell [p] need not be open
    ([solve] never looks at the cell it starts from). *)
Inductive trail (g : grid_t) : coord -> coord -> list coord -> Prop :=
| trail_one p : trail g p p [p]
| trail_cons p p' q l :
    adj p p' -> open_cell g p' -> trail g p' q l -> trail g p q (p :: l).

(** [reach m n q]: [q] is [n] moves away from [start], each move entering
    an open cell. *)
Inductive reach (m : Maze) : nat -> coord -> Prop :=
| reach_O : reach m 0 (start m)
| reach_S n p q :
    reach m n p -> adj p q -> open_cell (grid m) q -> reach m (S n) q.

(** ** The invariant of the search *)

(** The queue of [solve] with the cell being expanded put back in front. *)
Definition push_front (cur : coord) (st : bfs_state) : bfs_state :=
  {| queue := cur :: queue st; visited := visited st;
     parent_map := parent_map st |}.

(** The directions of [cur] in [dirs] have been looked at. *)
Definition cur_closed (m : Maze) (lvl : coord -> nat) (vis : gset coord)
    (cur : coord) (dirs : list coord) : Prop :=
  forall d, d ∈ dirs ->
    open_cell (grid m) (cur.1 + d.1, cur.2 + d.2) ->
    (cur.1 + d.1, cur.2 + d.2) ∈ vis /\
    (lvl (cur.1 + d.1, cur.2 + d.2)%Z <= S (lvl cur))%nat.

(** The loop invariant of [solve]. [lvl] (the number of moves from [start]
    along the parent chain) and [processed] (the cells dequeued so far) are
    ghost state. *)
Record bfs_inv (m : Maze) (lvl : coord -> nat) (processed : list coord)
    (st : bfs_state) : Prop := {
  bi_start_pm : parent_map st !! start m = Some None;
  bi_start_lvl : lvl (start m) = 0%nat;
  bi_start_vis : start m ∈ visited st;
  bi_visited : forall v, v ∈ visited st <-> v ∈ processed \/ v ∈ queue st;
  bi_nodup : NoDup (processed ++ queue st);
  bi_parent : forall v, v ∈ visited st -> v <> start m ->
      exists u, parent_map st !! v = Some (Some u) /\ u ∈ visited st /\
        adj u v /\ open_cell (grid m) v /\ lvl v = S (lvl u);
  bi_closed : forall u v, u ∈ processed -> adj u v -> open_cell (grid m) v ->
      v ∈ visited st /\ (lvl v <= S (lvl u))%nat;
  bi_not_end : forall u, u ∈ processed -> u <> end_ m;
  bi_sorted : StronglySorted (fun a b => (lvl a <= lvl b)%nat) (queue st);
  bi_front : forall v q, v ∈ visited st -> q ∈ queue st ->
      (lvl v <= S (lvl q))%nat;
  bi_bound : forall v, v ∈ visited st ->
      (lvl v < length processed + length (queue st))%nat
}.

(** The parent chain from a cell back to [start]. *)
Inductive back_chain (m : Maze) : coord -> list coord -> Prop :=
| bc_start : back_chain m (start m) [start m]
| bc_step v u l :
    adj u v -> open_cell (grid m) v -> back_chain m u l ->
    back_chain m v (v :: l).

(** A hand-made 5 by 5 grid with two routes from [start] to [end]. *)
Definition two_routes : Maze :=
  {| width := 5; height := 5;
     grid := map list_ascii_of_string
               ["#####"; "#S  #"; "# # #"; "#  E#"; "#####"]%string;
     start := (1, 1); end_ := (3, 3) |}.

(** ** Rendering, over a store of row objects *)

(** [display] copies the rows of the grid and writes the solution into the
    copies. To tell a copy from an alias, rows live in a store here: a row
    object is an address, [self.grid] is a list of addresses, and writing
    [rows[r][c] = x] changes the store at the address [rows[r]]. *)
Record store : Type := mkStore {
  cells : nat -> list ascii;
  next : nat
}.

Record MazeObj : Type := mkObj {
  o_width : Z;
  o_height : Z;
  o_grid : list nat;
  o_start : coord;
  o_end : coord
}.

(** The grid a maze object holds in a store. *)
Definition grid_of (s : store) (o : MazeObj) : grid_t := map (cells s) (o_grid o).

(** A new list object. *)
Definition alloc (s : store) (rw : list ascii) : store * nat :=
  ({| cells := <[next s := rw]> (cells s); next := S (next s) |}, next s).

(** [[row[:] for row in self.grid]] *)
Fixpoint copy_rows (s : store) (rows : list nat) : store * list nat :=
  match rows with
  | [] => (s, [])
  | l :: rows' =>
      let '(s1, l') := alloc s (cells s l) in
      let '(s2, ls) := copy_rows s1 rows' in
      (s2, l' :: ls)
  end.

(** The [for r, c in path] loop. *)
Fixpoint overlay (s : store) (display_grid : list nat) (start_ end_ : coord)
    (path : list coord) : result store :=
  match path with
  | [] => Ok s
  | (r, c) :: path' =>
      if decide ((r, c) <> start_ /\ (r, c) <> end_) then
        l ← py_get display_grid r;
        rw' ← py_set (cells s l) c SolutionMark;
        overlay {| cells := <[l := rw']> (cells s); next := next s |}
                display_grid start_ end_ path'
      else overlay s display_grid start_ end_ path'
  end.

(** The [for r in range(self.height)] loop: the lines printed. *)
Fixpoint print_rows (s : store) (display_grid : list nat) (rs : list Z)
    : result (list string) :=
  match rs with
  | [] => Ok []
  | r :: rs' =>
      l ← py_get display_grid r;
      lines ← print_rows s display_grid rs';
      Ok (string_of_list_ascii (cells s l) :: lines)
  end.

(** [Maze.display]: the store afterwards and the lines printed. [if path:]
    holds for a non-empty list only. *)
Definition display (s : store) (o : MazeObj) (path : option (list coord))
    : result (store * list string) :=
  let '(s1, display_grid) := copy_rows s (o_grid o) in
  s2 ← match path with
       | Some (p :: ps) => overlay s1 display_grid (o_start o) (o_end o) (p :: ps)
       | _ => Ok s1
       end;
  lines ← print_rows s2 display_grid (seqZ 0 (o_height o));
  Ok (s2, lines).

(** A maze value laid out in a store, one object per row. *)
Definition load (m : Maze) : store * MazeObj :=
  ({| cells := fun l => default [] (grid m !! l); next := length (grid m) |},
   {| o_width := width m; o_height := height m;
      o_grid := seq 0 (length (grid m));
      o_start := start m; o_end := end_ m |}).

Definition wf_obj (s : store) (o : MazeObj) : Prop :=
  Forall (fun l => (l < next s)%nat) (o_grid o) /\
  wf_grid (o_height o) (o_width o) (grid_of s o).

(** The glyph printed at row [p.1], column [p.2]. *)
Definition shown (lines : list string) (p : coord) : option ascii :=
  cell_at (map list_ascii_of_string lines) p.

(** The contract of [display]: it returns, no object that existed before
    has changed (so the grid is the same), and the text shows the solution
    mark exactly on the path coordinates other than [start] and [end], and
    the grid's glyph everywhere else. *)
Definition display_ok (s : store) (o : MazeObj) (path : option (list coord)) : Prop :=
  exists s' lines,
    display s o path = Ok (s', lines) /\
    (forall l, (l < next s)%nat -> cells s' l = cells s l) /\
    grid_of s' o = grid_of s o /\
    length lines = Z.to_nat (o_height o) /\
    forall p, 0 <= p.1 < o_height o -> 0 <= p.2 < o_width o ->
      exists ch, cell_at (grid_of s o) p = Some ch /\
        shown lines p =
          Some (if decide (p ∈ default [] path /\ p <> o_start o /\ p <> o_end o)
                then SolutionMark else ch).

From stdpp Require Import pretty.

Open Scope Z_scope.

(** ** Rendering read on grid values *)

(** The loops of [display] once more, on a grid value instead of row
    objects in a store: the [for r, c in path] loop writes with
    [grid_set], the [for r in range(self.height)] loop joins the rows.
    [display] is shown below to print what [render] computes. *)
Fixpoint overlay_v (g : grid_t) (start_ end_ : coord) (path : list coord)
    : result grid_t :=
  match path with
  | [] => Ok g
  | (r, c) :: path' =>
      if decide ((r, c) <> start_ /\ (r, c) <> end_) then
        g' ← grid_set g r c SolutionMark;
        overlay_v g' start_ end_ path'
      else overlay_v g start_ end_ path'
  end.

Fixpoint print_rows_v (g : grid_t) (rs : list Z) : result (list string) :=
  match rs with
  | [] => Ok []
  | r :: rs' =>
      rw ← py_get g r;
      lines ← print_rows_v g rs';
      Ok (string_of_list_ascii rw :: lines)
  end.

Definition render (m : Maze) (path : option (list coord)) : result (list string) :=
  g ← match path with
      | Some (p :: ps) => overlay_v (grid m) (start m) (end_ m) (p :: ps)
      | _ => Ok (grid m)
      end;
  print_rows_v g (seqZ 0 (height m)).

(** The maze value a maze object stands for in a store. *)
Definition maze_of (s : store) (o : MazeObj) : Maze :=
  {| width := o_width o; height := o_height o; grid := grid_of s o;
     start := o_start o; end_ := o_end o |}.

(** The cell a coordinate in [-n, n) designates along an axis of length
    [n]: Python's negative indices count from the far edge. *)
Definition wrap (p : coord) (h w : Z) : coord := (p.1 mod h, p.2 mod w).

(** ** Counting open cells *)

(** The cells of an [h] by [w] grid that are not walls, and those among
    them with two odd coordinates. *)
Definition open_list (h w : Z) (g : grid_t) : list coord :=
  filter (fun p => cell_at g p <> Some Wall) (all_cells h w).

Definition open_junction_list (h w : Z) (g : grid_t) : list coord :=
  filter (fun p => (p.1 mod 2 = 1 /\ p.2 mod 2 = 1) /\ cell_at g p <> Some Wall)
         (all_cells h w).

(** ** The script *)

(** [my_maze.display(path)] for a maze value: its rows are laid out in a
    store, and the lines printed are kept. By [display_frame] below the
    call leaves the rows as they were, so the maze value stands for the
    object before and after. *)
Definition display_lines (m : Maze) (path : option (list coord)) : result (list string) :=
  x ← display (load m).1 (load m).2 path; Ok x.2.

Definition newline : string := String "010"%char EmptyString.

(** The [__main__] block: everything it prints, one string per call of
    [print] (or per line of a [display]), for a run of the random source.
    [if solution_path:] holds for a non-empty list only. *)
Definition main (rnd : nat -> nat) : result (list string) :=
  let maze_width := 31 in
  let maze_height := 19 in
  my_maze ← Maze_init maze_width maze_height;
  shown0 ← display_lines my_maze None;
  my_maze ← generate rnd my_maze;
  shown1 ← display_lines my_maze None;
  solution_path ← solve my_maze;
  report ← match solution_path with
           | Some (p :: ps) =>
               shown2 ← display_lines my_maze (Some (p :: ps));
               Ok ([(newline +:+ "Maze with solution path ('o'):")%string] ++ shown2 ++
                   [(newline +:+ "Path length: " +:+
                     pretty (Z.of_nat (length (p :: ps)) - 1) +:+ " steps")%string])
           | _ => Ok [(newline +:+ "No solution path found.")%string]
           end;
  Ok (["--- Generating and Solving a Random Maze ---"%string;
       (newline +:+ "Initialized empty " +:+ pretty maze_height +:+ "x" +:+
          pretty maze_width +:+ " maze:")%string] ++ shown0 ++
      [(newline +:+ "Generated random maze:")%string] ++ shown1 ++
      report ++
      [(newline +:+ "--- Tutorial Complete ---")%string]).

(** ** The choices of a run *)

(** The [while stack:] loop once more, keeping beside its outcome the
    values [random.choice] returned, in the order of the calls. A value
    is logged when the call returns, before the two writes that follow
    it. *)
Fixpoint generate_loop_log (fuel : nat) (rnd : nat -> nat) (m : Maze) (k : nat)
    (g : grid_t) (stack : list coord) : list coord * result grid_t :=
  match fuel with
  | O => ([], OutOfFuel)
  | S fuel' =>
      match stack with
      | [] => ([], Ok g)
      | (cr, cc) :: rest =>
          match unvisited_neighbors m g cr cc gen_directions with
          | Ok [] => generate_loop_log fuel' rnd m k g rest
          | Ok (x0 :: xs) =>
              let '(nr, nc) := choice rnd k x0 xs in
              let wr := cr + (nr - cr) / 2 in
              let wc := cc + (nc - cc) / 2 in
              match g1 ← grid_set g nr nc Path; grid_set g1 wr wc Path with
              | Ok g2 =>
                  let '(log, res) :=
                    generate_loop_log fuel' rnd m (S k) g2 ((nr, nc) :: stack) in
                  ((nr, nc) :: log, res)
              | Raise e => ([(nr, nc)], Raise e)
              | OutOfFuel => ([(nr, nc)], OutOfFuel)
              end
          | Raise e => ([], Raise e)
          | OutOfFuel => ([], OutOfFuel)
          end
      end
  end.

(** The sequence of values [random.choice] returns during
    [Maze(width, height).generate()] when the random source is [rnd]. *)
Definition choices (rnd : nat -> nat) (width0 height0 : Z) : list coord :=
  match Maze_init width0 height0 with
  | Ok m =>
      let '(sr, sc) := start m in
      match grid_set (grid m) sr sc Path with
      | Ok g0 => (generate_loop_log (gen_fuel m) rnd m 0 g0 [(sr, sc)]).1
      | _ => []
      end
  | _ => []
  end.

(** ** Rendering, with the console *)

(** The [for r in range(self.height)] loop with the console kept apart
    from the outcome: what has been printed stays printed when a later
    iteration raises. *)
Fixpoint print_rows_io (s : store) (display_grid : list nat) (rs : list Z)
    : list string * result unit :=
  match rs with
  | [] => ([], Ok tt)
  | r :: rs' =>
      match py_get display_grid r with
      | Ok l =>
          let '(out, res) := print_rows_io s display_grid rs' in
          (string_of_list_ascii (cells s l) :: out, res)
      | Raise e => ([], Raise e)
      | OutOfFuel => ([], OutOfFuel)
      end
  end.

(** [Maze.display] as a run: the lines it printed, and how it ended (the
    store it returned in, or the exception). Copying the rows and drawing
    the path print nothing. *)
Definition display_io (s : store) (o : MazeObj) (path : option (list coord))
    : list string * result store :=
  let '(s1, display_grid) := copy_rows s (o_grid o) in
  match match path with
        | Some (p :: ps) => overlay s1 display_grid (o_start o) (o_end o) (p :: ps)
        | _ => Ok s1
        end with
  | Ok s2 =>
      let '(out, res) := print_rows_io s2 display_grid (seqZ 0 (o_height o)) in
      (out, _ ← res; Ok s2)
  | Raise e => ([], Raise e)
  | OutOfFuel => ([], OutOfFuel)
  end.
(** * Properties *)

Section GridLemmas.
Context {A : Type}.
Implicit Types (l : list A) (i : Z).

Lemma py_index_nonneg n i :
  0 <= i < Z.of_nat n -> py_index n i = Some (Z.to_nat i).
Proof.
  intros Hi. unfold py_index.
  destruct (Z.leb_spec 0 i), (Z.ltb_spec i (Z.of_nat n)); simpl; auto; lia.
Qed.

Lemma py_index_lt n i k : py_index n i = Some k -> (k < n)%nat.
Proof.
  unfold py_index.
  destruct (Z.leb_spec 0 i), (Z.ltb_spec i (Z.of_nat n)); simpl;
    try (intros [= <-]; lia);
    destruct (Z.leb_spec (- Z.of_nat n) i), (Z.ltb_spec i 0); simpl;
    try discriminate; intros [= <-]; lia.
Qed.

Lemma py_index_out n i :
  Z.of_nat n <= i -> py_index n i = None.
Proof.
  intros Hi. unfold py_index.
  destruct (Z.leb_spec 0 i), (Z.ltb_spec i (Z.of_nat n)); simpl; try lia;
    destruct (Z.leb_spec (- Z.of_nat n) i), (Z.ltb_spec i 0); simpl; auto; lia.
Qed.

Lemma py_get_nonneg l i :
  0 <= i < Z.of_nat (length l) ->
  exists x, py_get l i = Ok x /\ l !! Z.to_nat i = Some x.
Proof.
  intros Hi. unfold py_get. rewrite py_index_nonneg by done.
  destruct (lookup_lt_is_Some_2 l (Z.to_nat i)) as [x Hx]; [lia|].
  rewrite Hx. eauto.
Qed.

Lemma py_get_out l i : Z.of_nat (length l) <= i -> py_get l i = Raise IndexError.
Proof. intros Hi. unfold py_get. by rewrite py_index_out. Qed.

Lemma py_set_nonneg l i x :
  0 <= i < Z.of_nat (length l) -> py_set l i x = Ok (<[Z.to_nat i := x]> l).
Proof. intros Hi. unfold py_set. by rewrite py_index_nonneg. Qed.

Lemma py_set_out l i x : Z.of_nat (length l) <= i -> py_set l i x = Raise IndexError.
Proof. intros Hi. unfold py_set. by rewrite py_index_out. Qed.
End GridLemmas.

Lemma wf_grid_row h w g k rw :
  wf_grid h w g -> g !! k = Some rw -> length rw = Z.to_nat w.
Proof.
  intros [_ Hall] Hk. rewrite Forall_forall in Hall.
  apply Hall. by eapply list_elem_of_lookup_2.
Qed.

Lemma cell_at_valid h w g r c :
  wf_grid h w g -> 0 <= r < h -> 0 <= c < w -> is_Some (cell_at g (r, c)).
Proof.
  intros Hwf Hr Hc. unfold cell_at. simpl.
  destruct (Z.leb_spec 0 r), (Z.leb_spec 0 c); try lia. simpl.
  destruct (lookup_lt_is_Some_2 g (Z.to_nat r)) as [rw Hrw]; [destruct Hwf; lia|].
  rewrite Hrw. simpl. apply lookup_lt_is_Some_2.
  rewrite (wf_grid_row _ _ _ _ _ Hwf Hrw). lia.
Qed.

Lemma cell_at_inv h w g p ch :
  wf_grid h w g -> cell_at g p = Some ch -> 0 <= p.1 < h /\ 0 <= p.2 < w.
Proof.
  intros Hwf. unfold cell_at.
  destruct (Z.leb_spec 0 p.1), (Z.leb_spec 0 p.2); simpl; try discriminate.
  destruct (g !! Z.to_nat p.1) as [rw|] eqn:Hrw; simpl; [|discriminate].
  intros Hc. pose proof (wf_grid_row _ _ _ _ _ Hwf Hrw) as Hlen.
  apply lookup_lt_Some in Hrw, Hc. destruct Hwf. lia.
Qed.


Lemma grid_get_valid h w g r c :
  wf_grid h w g -> 0 <= r < h -> 0 <= c < w ->
  exists ch, grid_get g r c = Ok ch /\ cell_at g (r, c) = Some ch.
Proof.
  intros Hwf Hr Hc. unfold grid_get, cell_at. simpl.
  destruct (py_get_nonneg g r) as (rw & -> & Hrw); [destruct Hwf; lia|].
  simpl. destruct (py_get_nonneg rw c) as (ch & -> & Hch).
  { rewrite (wf_grid_row _ _ _ _ _ Hwf Hrw). lia. }
  exists ch. split; [done|].
  destruct (Z.leb_spec 0 r), (Z.leb_spec 0 c); try lia. simpl.
  by rewrite Hrw.
Qed.

Lemma grid_set_valid h w g r c x :
  wf_grid h w g -> 0 <= r < h -> 0 <= c < w ->
  exists g', grid_set g r c x = Ok g' /\ wf_grid h w g' /\
    forall q, cell_at g' q = if decide (q = (r, c)) then Some x else cell_at g q.
Proof.
  intros Hwf Hr Hc. unfold grid_set.
  destruct (py_get_nonneg g r) as (rw & -> & Hrw); [destruct Hwf; lia|].
  pose proof (wf_grid_row _ _ _ _ _ Hwf Hrw) as Hlen.
  simpl. rewrite py_set_nonneg by lia. simpl.
  rewrite py_set_nonneg by (destruct Hwf; lia).
  eexists; split; [done|]. split.
  - destruct Hwf as [Hh Hall]. split; [by rewrite length_insert|].
    apply Forall_insert; [done|]. by rewrite length_insert.
  - intros [qr qc]. unfold cell_at. simpl.
    destruct (Z.leb_spec 0 qr), (Z.leb_spec 0 qc); simpl;
      try (case_decide; [simplify_eq; lia|done]).
    destruct (decide (Z.to_nat qr = Z.to_nat r)) as [Heq|Hne].
    + rewrite Heq, list_lookup_insert_eq by (by eapply lookup_lt_Some).
      rewrite Hrw. simpl.
      destruct (decide (Z.to_nat qc = Z.to_nat c)) as [Heqc|Hnec].
      * rewrite Heqc, list_lookup_insert_eq by lia.
        rewrite decide_True; [done|]. f_equal; lia.
      * rewrite list_lookup_insert_ne by done.
        rewrite decide_False; [done|]. intros [= -> ->]. done.
    + rewrite list_lookup_insert_ne by done.
      rewrite decide_False; [done|]. intros [= -> ->]. done.
Qed.


(** ** The constructor *)

Lemma wf_grid_replicate h w x :
  wf_grid h w (replicate (Z.to_nat h) (replicate (Z.to_nat w) x)).
Proof.
  split; [by rewrite length_replicate|].
  apply Forall_replicate. by rewrite length_replicate.
Qed.

Lemma cell_at_replicate h w x p ch :
  cell_at (replicate (Z.to_nat h) (replicate (Z.to_nat w) x)) p = Some ch -> ch = x.
Proof.
  unfold cell_at. destruct (_ && _); [|done].
  destruct (replicate (Z.to_nat h) _ !! _) as [rw|] eqn:Hrw; [|done]. simpl.
  apply lookup_replicate in Hrw as [-> _].
  intros Hc. by apply lookup_replicate in Hc as [-> _].
Qed.

Lemma Maze_init_eq w0 h0 :
  Maze_init w0 h0 =
  Ok {| width := normalize w0; height := normalize h0;
        grid := replicate (Z.to_nat (normalize h0))
                          (replicate (Z.to_nat (normalize w0)) Wall);
        start := (1, 1);
        end_ := (normalize h0 - 2, normalize w0 - 2) |}.
Proof.
  unfold Maze_init, normalize.
  rewrite !Zeven_mod. by destruct (w0 mod 2 =? 0), (h0 mod 2 =? 0).
Qed.

Lemma normalize_odd d : normalize d mod 2 = 1.
Proof.
  unfold normalize. rewrite Zeven_mod.
  destruct (Z.eqb_spec (d mod 2) 0) as [H|H].
  - rewrite Z.add_mod, H by lia. done.
  - pose proof (Z.mod_pos_bound d 2). lia.
Qed.

(** C4: for positive [width] and [height] the constructor increments an
    even dimension by one and keeps an odd one, and builds a grid of
    [height] rows of [width] cells, all of them walls, with
    [start = (1,1)] and [end = (height-2, width-2)]. *)
Theorem Maze_init_spec (w0 h0 : Z) :
  0 < w0 -> 0 < h0 ->
  exists m, Maze_init w0 h0 = Ok m /\
    width m = (if Z.even w0 then w0 + 1 else w0) /\
    height m = (if Z.even h0 then h0 + 1 else h0) /\
    Z.odd (width m) = true /\ Z.odd (height m) = true /\
    Z.of_nat (length (grid m)) = height m /\
    (forall rw, rw ∈ grid m -> Z.of_nat (length rw) = width m) /\
    (forall r c, 0 <= r < height m -> 0 <= c < width m ->
       cell_at (grid m) (r, c) = Some Wall) /\
    start m = (1, 1) /\
    end_ m = (height m - 2, width m - 2).
Proof.
  intros Hw Hh. rewrite Maze_init_eq. eexists; split; [done|]. simpl.
  fold (normalize w0) (normalize h0).
  assert (0 < normalize w0 /\ 0 < normalize h0) as [Hw' Hh'].
  { unfold normalize. destruct (Z.even w0), (Z.even h0); lia. }
  repeat split; try done.
  - rewrite Zodd_mod, normalize_odd. done.
  - rewrite Zodd_mod, normalize_odd. done.
  - rewrite length_replicate. lia.
  - intros rw Hrw. apply elem_of_replicate in Hrw as [-> _].
    rewrite length_replicate. lia.
  - intros r c Hr Hc.
    destruct (cell_at_valid _ _ _ r c (wf_grid_replicate (normalize h0) (normalize w0) Wall) Hr Hc)
      as [ch Hch].
    rewrite Hch. f_equal. by eapply cell_at_replicate.
Qed.

Lemma Maze_init_spec_witness :
  exists m, Maze_init 4 5 = Ok m /\
    width m = (if Z.even 4 then 4 + 1 else 4) /\
    height m = (if Z.even 5 then 5 + 1 else 5) /\
    Z.odd (width m) = true /\ Z.odd (height m) = true /\
    Z.of_nat (length (grid m)) = height m /\
    (forall rw, rw ∈ grid m -> Z.of_nat (length rw) = width m) /\
    (forall r c, 0 <= r < height m -> 0 <= c < width m ->
       cell_at (grid m) (r, c) = Some Wall) /\
    start m = (1, 1) /\
    end_ m = (height m - 2, width m - 2).
Proof. apply (Maze_init_spec 4 5); lia. Defined.

(** C7, as stated, fails: the constructor has no check of its arguments,
    [Maze(0, 0)] returns a maze. *)
Lemma Maze_init_nonpositive_not_rejected :
  ~ (forall w0 h0, w0 <= 0 \/ h0 <= 0 -> raises (Maze_init w0 h0)).
Proof.
  intros H. destruct (H 0 0) as [e He]; [lia|]. discriminate He.
Qed.

(** C7, amended: with a non-positive [width] or [height] the constructor
    raises nothing and returns a degenerate maze: a well-formed grid with
    at most one row or at most one column, on which the start coordinate
    [(1,1)] is not a cell. *)
Theorem Maze_init_nonpositive (w0 h0 : Z) :
  w0 <= 0 \/ h0 <= 0 ->
  exists m, Maze_init w0 h0 = Ok m /\ wf_maze m /\
    (width m <= 1 \/ height m <= 1) /\
    cell_at (grid m) (start m) = None.
Proof.
  intros Hneg. rewrite Maze_init_eq. eexists; split; [done|].
  assert (normalize w0 <= 1 \/ normalize h0 <= 1) as Hdim.
  { unfold normalize. destruct (Z.even w0), (Z.even h0); lia. }
  split; [apply wf_grid_replicate|]. split; [done|]. simpl.
  destruct (cell_at _ _) as [ch|] eqn:Hch; [|done].
  apply (cell_at_inv _ _ _ _ _ (wf_grid_replicate _ _ _)) in Hch. simpl in Hch. lia.
Qed.

Lemma Maze_init_nonpositive_witness :
  exists m, Maze_init 0 0 = Ok m /\ wf_maze m /\
    (width m <= 1 \/ height m <= 1) /\
    cell_at (grid m) (start m) = None.
Proof. apply (Maze_init_nonpositive 0 0). lia. Defined.


(** ** Simple paths; growing a perfect maze by a dead end *)

Lemma adj_sym p q : adj p q -> adj q p.
Proof. unfold adj. lia. Qed.

Section SimplePaths.
Implicit Types (O : coord -> Prop) (p q u v : coord) (l : list coord).

Lemma sp_Forall O p q l : simple_path O p q l -> Forall O l.
Proof. induction 1; constructor; auto. Qed.

Lemma sp_head O p q l : simple_path O p q l -> exists l', l = p :: l'.
Proof. destruct 1; eauto. Qed.

Lemma sp_first_in O p q l : simple_path O p q l -> p ∈ l.
Proof. intros [l' ->]%sp_head. left. Qed.

Lemma sp_last_in O p q l : simple_path O p q l -> q ∈ l.
Proof. induction 1; [left | by right]. Qed.

Lemma sp_last O p q l : simple_path O p q l -> last l = Some q.
Proof.
  induction 1 as [|p p' q l _ _ _ Hl IH]; [done|].
  destruct (sp_head _ _ _ _ Hl) as [l' ->]. done.
Qed.

Lemma sp_source O p q l : simple_path O p q l -> O p.
Proof. by destruct 1. Qed.

Lemma sp_refl_unique O p l : simple_path O p p l -> l = [p].
Proof.
  inversion 1 as [|? ? ? ? _ _ Hnin Hl]; subst; [done|].
  by apply sp_last_in in Hl.
Qed.

Lemma sp_mono O O' p q l :
  (forall x, O x -> O' x) -> simple_path O p q l -> simple_path O' p q l.
Proof. intros HO. induction 1; econstructor; eauto. Qed.

Lemma sp_restrict O O' p q l :
  simple_path O' p q l -> (forall x, x ∈ l -> O x) -> simple_path O p q l.
Proof.
  induction 1 as [|p p' q l _ Hadj Hnin _ IH]; intros Hin.
  - constructor. apply Hin. left.
  - econstructor; eauto.
    + apply Hin. left.
    + apply IH. intros x Hx. apply Hin. by right.
Qed.

Lemma sp_snoc O p u v l :
  simple_path O p u l -> O v -> adj u v -> v ∉ l ->
  simple_path O p v (l ++ [v]).
Proof.
  induction 1 as [p Hp|p p' q l Hp Hadj Hnin _ IH]; intros Hv Huv Hvl; simpl.
  - econstructor; eauto; [|by constructor].
    apply not_elem_of_cons in Hvl as [Hne _].
    apply not_elem_of_cons. split; [by apply not_eq_sym|apply not_elem_of_nil].
  - apply not_elem_of_cons in Hvl as [Hne Hvl].
    econstructor; eauto.
    rewrite elem_of_app, list_elem_of_singleton. intros [?|?]; [done|by apply Hne].
Qed.

(** [v] is a dead end hanging off [u]: a new cell whose only neighbour in
    [O] is [u]; [O'] is [O] with [v] added. *)
Section Leaf.
Variables (O O' : coord -> Prop) (u v : coord).
Hypothesis Hnew : ~ O v.
Hypothesis Hu : O u.
Hypothesis Huv : adj u v.
Hypothesis Honly : forall x, O x -> adj x v -> x = u.
Hypothesis HO' : forall x, O' x <-> O x \/ x = v.

Lemma leaf_old x : O' x -> x <> v -> O x.
Proof. intros [?|?]%HO' ?; done. Qed.

Lemma leaf_avoid p q l :
  simple_path O' p q l -> p <> v -> q <> v -> v ∉ l.
Proof.
  induction 1 as [p Hp|p p' q l Hp Hadj Hnin Hl IH]; intros Hpv Hqv.
  - apply not_elem_of_cons. split; [by apply not_eq_sym|apply not_elem_of_nil].
  - apply not_elem_of_cons. split; [by apply not_eq_sym|].
    destruct (decide (p' = v)) as [->|Hp'v]; [|by apply IH].
    exfalso. inversion Hl as [|? p2 ? l2 _ Hadj2 Hnin2 Hl2]; subst; [done|].
    assert (p = u) as ->.
    { apply Honly; [by apply leaf_old|done]. }
    assert (p2 = u) as ->.
    { apply Honly; [|by apply adj_sym].
      apply leaf_old; [by eapply sp_source|].
      intros ->. by apply sp_first_in in Hl2. }
    apply Hnin. right. by eapply sp_first_in.
Qed.

Lemma leaf_into_gen p q l :
  simple_path O' p q l -> q = v -> p <> v ->
  exists l0, l = l0 ++ [v] /\ simple_path O' p u l0 /\ v ∉ l0.
Proof.
  induction 1 as [p Hp|p p' q l Hp Hadj Hnin Hl IH]; intros Hq Hpv; [done|].
  destruct (decide (p' = v)) as [Hp'v|Hp'v].
  - rewrite Hp'v, Hq in Hl. apply sp_refl_unique in Hl.
    assert (p = u) as Hpu.
    { apply Honly; [by apply leaf_old|by rewrite <- Hp'v]. }
    exists [u]. rewrite Hl, Hpu. split; [done|].
    split; [apply sp_one, HO'; by left|].
    apply not_elem_of_cons. split; [|apply not_elem_of_nil].
    intros Hvu. apply Hnew. by rewrite Hvu.
  - destruct (IH Hq Hp'v) as (l0 & Hl0eq & Hl0 & Hvl0).
    exists (p :: l0). rewrite Hl0eq. split; [done|]. split.
    + econstructor; eauto. intros Hin. apply Hnin. rewrite Hl0eq.
      apply elem_of_app. by left.
    + apply not_elem_of_cons. split; [by apply not_eq_sym|done].
Qed.

Lemma leaf_into p l :
  simple_path O' p v l -> p <> v ->
  exists l0, l = l0 ++ [v] /\ simple_path O' p u l0 /\ v ∉ l0.
Proof. intros Hl. by apply (leaf_into_gen _ _ _ Hl). Qed.

Lemma leaf_old_path p q l :
  simple_path O' p q l -> v ∉ l -> simple_path O p q l.
Proof.
  intros Hl Hvl. eapply sp_restrict; [done|].
  intros x Hx. apply leaf_old.
  - pose proof (sp_Forall _ _ _ _ Hl) as Hall.
    rewrite Forall_forall in Hall. by apply Hall.
  - by intros ->.
Qed.

Lemma leaf_new_path p q l : simple_path O p q l -> simple_path O' p q l /\ v ∉ l.
Proof.
  intros Hl. split.
  - eapply sp_mono; [|done]. intros x Hx. apply HO'. by left.
  - intros Hv. apply sp_Forall in Hl. rewrite Forall_forall in Hl.
    by apply Hnew, Hl.
Qed.

Lemma perfect_leaf : perfect O -> perfect O'.
Proof.
  intros Hperf p q Hp Hq.
  destruct (decide (p = v)) as [->|Hpv], (decide (q = v)) as [->|Hqv].
  - exists [v]. split; [by constructor|]. apply sp_refl_unique.
  - destruct (Hperf u q Hu (leaf_old _ Hq Hqv)) as (l & Hl & Huniq).
    destruct (leaf_new_path _ _ _ Hl) as [Hl' Hvl].
    exists (v :: l). split.
    + econstructor; eauto. by apply adj_sym.
    + intros l' Hl'2.
      inversion Hl'2 as [|? p2 ? l2 _ Hadj2 Hnin2 Hl2]; subst; [done|].
      assert (p2 = u) as ->.
      { apply Honly; [|by apply adj_sym].
        apply leaf_old; [by eapply sp_source|].
        intros ->. by apply sp_first_in in Hl2. }
      f_equal. apply Huniq. by apply leaf_old_path.
  - destruct (Hperf p u (leaf_old _ Hp Hpv) Hu) as (l & Hl & Huniq).
    destruct (leaf_new_path _ _ _ Hl) as [Hl' Hvl].
    exists (l ++ [v]). split.
    + eapply sp_snoc; eauto.
    + intros l' Hl'2.
      destruct (leaf_into _ _ Hl'2 Hpv) as (l0 & -> & Hl0 & Hvl0).
      f_equal. apply Huniq. by apply leaf_old_path.
  - destruct (Hperf p q (leaf_old _ Hp Hpv) (leaf_old _ Hq Hqv)) as (l & Hl & Huniq).
    destruct (leaf_new_path _ _ _ Hl) as [Hl' Hvl].
    exists l. split; [done|].
    intros l' Hl'2. apply Huniq. apply leaf_old_path; [done|].
    by eapply leaf_avoid.
Qed.
End Leaf.

Lemma perfect_ext O O' : (forall x, O x <-> O' x) -> perfect O -> perfect O'.
Proof.
  intros Heq Hperf p q Hp Hq.
  destruct (Hperf p q) as (l & Hl & Huniq); [by apply Heq..|].
  exists l. split.
  - eapply sp_mono; [|done]. intros x. apply Heq.
  - intros l' Hl'. apply Huniq. eapply sp_mono; [|done]. intros x. apply Heq.
Qed.

Lemma perfect_singleton O p : (forall x, O x <-> x = p) -> perfect O.
Proof.
  intros HO a b ->%HO ->%HO. exists [p]. split.
  - constructor. by apply HO.
  - apply sp_refl_unique.
Qed.
End SimplePaths.


(** ** Generation *)

Ltac zlia := Z.to_euclidean_division_equations; lia.

Lemma is_valid_spec m r c :
  is_valid m r c = true <-> 0 <= r < height m /\ 0 <= c < width m.
Proof.
  unfold is_valid. rewrite !andb_true_iff, !Z.leb_le, !Z.ltb_lt. lia.
Qed.

Lemma open_cell_valid m g p :
  wf_grid (height m) (width m) g -> open_cell g p -> is_valid m p.1 p.2 = true.
Proof.
  intros Hwf (ch & Hch & _). apply is_valid_spec.
  by eapply cell_at_inv.
Qed.

Lemma open_cell_set g g' p x :
  (forall q, cell_at g' q = if decide (q = p) then Some x else cell_at g q) ->
  x <> Wall ->
  forall q, open_cell g' q <-> open_cell g q \/ q = p.
Proof.
  intros Hset Hx q. unfold open_cell. rewrite Hset.
  destruct (decide (q = p)) as [->|Hne].
  - split; [by right|]. intros _. eauto.
  - split; [by left|]. by intros [?|?].
Qed.

Lemma gen_directions_cases (d : coord) :
  d ∈ gen_directions <-> d = (0, 2) \/ d = (0, -2) \/ d = (2, 0) \/ d = (-2, 0).
Proof.
  unfold gen_directions. rewrite !elem_of_cons, elem_of_nil. tauto.
Qed.

Lemma unvisited_neighbors_spec m g cr cc dirs :
  wf_grid (height m) (width m) g ->
  exists l, unvisited_neighbors m g cr cc dirs = Ok l /\
    forall p, p ∈ l <->
      exists d, d ∈ dirs /\ p = (cr + d.1, cc + d.2) /\
        is_valid m p.1 p.2 = true /\ cell_at g p = Some Wall.
Proof.
  intros Hwf. induction dirs as [|[dr dc] dirs (l & IH & Hl)]; simpl.
  - exists []. split; [done|]. intros p. rewrite elem_of_nil.
    split; [done|]. intros (d & Hd & _). by apply elem_of_nil in Hd.
  - destruct (is_valid m (cr + dr) (cc + dc)) eqn:Hv.
    + apply is_valid_spec in Hv as Hv'.
      destruct (grid_get_valid _ _ _ _ _ Hwf (proj1 Hv') (proj2 Hv')) as (ch & -> & Hch).
      simpl. rewrite IH. simpl. case_decide as Hw.
      * eexists; split; [done|]. intros p. rewrite elem_of_cons, Hl. split.
        -- intros [->|(d & Hd & Hp)].
           ++ exists (dr, dc). rewrite elem_of_cons. subst ch. eauto.
           ++ exists d. rewrite elem_of_cons. eauto.
        -- intros (d & [->|Hd]%elem_of_cons & Hp); [left; apply Hp|right; eauto].
      * eexists; split; [done|]. intros p. rewrite Hl. split.
        -- intros (d & Hd & Hp). exists d. rewrite elem_of_cons. eauto.
        -- intros (d & [->|Hd]%elem_of_cons & Hp); [|eauto].
           destruct Hp as (-> & _ & Hp). simpl in Hp. congruence.
    + exists l. split; [done|]. intros p. rewrite Hl. split.
      * intros (d & Hd & Hp). exists d. rewrite elem_of_cons. eauto.
      * intros (d & [->|Hd]%elem_of_cons & Hp); [|eauto].
        destruct Hp as (-> & Hp & _). simpl in Hp. congruence.
Qed.

Lemma choice_in rnd k x0 xs : choice rnd k x0 xs ∈ x0 :: xs.
Proof.
  unfold choice. apply list_elem_of_In, nth_In.
  apply Nat.mod_upper_bound. simpl. lia.
Qed.

Lemma length_all_cells h w :
  length (all_cells h w) = (Z.to_nat h * Z.to_nat w)%nat.
Proof. unfold all_cells. by rewrite length_prod, !length_seqZ. Qed.

Lemma elem_of_all_cells h w p :
  p ∈ all_cells h w <-> 0 <= p.1 < h /\ 0 <= p.2 < w.
Proof.
  destruct p as [r c]. unfold all_cells.
  rewrite list_elem_of_In, in_prod_iff, <- !list_elem_of_In, !elem_of_seqZ.
  simpl. lia.
Qed.

Lemma filter_length_lt_mono {A} (P Q : A -> Prop)
    `{!forall x, Decision (P x)} `{!forall x, Decision (Q x)} (l : list A) x :
  (forall y, Q y -> P y) -> x ∈ l -> P x -> ~ Q x ->
  (length (filter Q l) < length (filter P l))%nat.
Proof.
  intros HQP Hx HPx HQx.
  rewrite <- (list_filter_filter_l Q P) by done.
  eapply length_filter_lt; [|done]. by apply list_elem_of_filter.
Qed.

Lemma walls_set m g g' p x :
  (forall q, cell_at g' q = if decide (q = p) then Some x else cell_at g q) ->
  x <> Wall ->
  (length (walls m g') <= length (walls m g))%nat.
Proof.
  intros Hset Hx. unfold walls.
  rewrite <- (list_filter_filter_l (fun q => cell_at g' q = Some Wall)
                                  (fun q => cell_at g q = Some Wall)).
  - apply length_filter.
  - intros q. rewrite Hset. case_decide; [|done]. congruence.
Qed.

Lemma walls_set_lt m g g' p x :
  (forall q, cell_at g' q = if decide (q = p) then Some x else cell_at g q) ->
  x <> Wall -> cell_at g p = Some Wall ->
  wf_grid (height m) (width m) g ->
  (length (walls m g') < length (walls m g))%nat.
Proof.
  intros Hset Hx Hp Hwf. unfold walls.
  apply (filter_length_lt_mono _ _ _ p).
  - intros q. rewrite Hset. case_decide; [|done]. congruence.
  - apply elem_of_all_cells. by eapply cell_at_inv.
  - done.
  - rewrite Hset, decide_True by done. congruence.
Qed.

Lemma Path_not_Wall : Path <> Wall.
Proof. discriminate. Qed.

Lemma carve_step m g stack cr cc nr nc wr wc :
  gen_inv m g ((cr, cc) :: stack) ->
  (nr = cr /\ wr = cr /\ (nc = cc + 2 /\ wc = cc + 1 \/ nc = cc - 2 /\ wc = cc - 1)) \/
  (nc = cc /\ wc = cc /\ (nr = cr + 2 /\ wr = cr + 1 \/ nr = cr - 2 /\ wr = cr - 1)) ->
  is_valid m nr nc = true ->
  cell_at g (nr, nc) = Some Wall ->
  exists g1 g2,
    grid_set g nr nc Path = Ok g1 /\
    grid_set g1 wr wc Path = Ok g2 /\
    gen_inv m g2 ((nr, nc) :: (cr, cc) :: stack) /\
    (length (walls m g2) < length (walls m g))%nat.
Proof.
  intros Hinv Hgeo Hvn Hwall.
  destruct Hinv as [Hwf Hchars Hlat Hstack Hstart Hperf Hdone].
  destruct (Hstack (cr, cc)) as [Hcur Hjc]; [left|].
  pose proof (open_cell_valid m _ _ Hwf Hcur) as Hvc.
  apply is_valid_spec in Hvc, Hvn. simpl in Hvc.
  assert (Hjn : junction (nr, nc)).
  { unfold junction in *. simpl in *. zlia. }
  assert (Hnn : ~ open_cell g (nr, nc)).
  { intros (ch & Hch & Hne). congruence. }
  destruct (grid_set_valid _ _ g nr nc Path Hwf) as (g1 & Hg1 & Hwf1 & Hset1); [lia..|].
  destruct (grid_set_valid _ _ g1 wr wc Path Hwf1) as (g2 & Hg2 & Hwf2 & Hset2); [lia..|].
  pose proof (open_cell_set _ _ _ _ Hset1 Path_not_Wall) as Hop1.
  pose proof (open_cell_set _ _ _ _ Hset2 Path_not_Wall) as Hop2.
  assert (Hop : forall q, open_cell g2 q <-> (open_cell g q \/ q = (wr, wc)) \/ q = (nr, nc)).
  { intros q. rewrite Hop2, Hop1. tauto. }
  assert (Hmono : forall q, open_cell g q -> open_cell g2 q).
  { intros q Hq. apply Hop. auto. }
  assert (Hnm : ~ open_cell g (wr, wc)).
  { intros Hm. destruct (Hlat _ Hm) as [Hj|[(?&?&Ha&Hb)|(?&?&Ha&Hb)]];
      unfold junction in *; simpl in *; try zlia.
    - assert ((wr, wc - 1) = (nr, nc) \/ (wr, wc + 1) = (nr, nc)) as [E|E]
        by (destruct Hgeo as [(?&?&[[? ?]|[? ?]])|(?&?&[[? ?]|[? ?]])];
            subst; (try zlia); [right|left]; f_equal; lia);
        [rewrite E in Ha|rewrite E in Hb]; done.
    - assert ((wr - 1, wc) = (nr, nc) \/ (wr + 1, wc) = (nr, nc)) as [E|E]
        by (destruct Hgeo as [(?&?&[[? ?]|[? ?]])|(?&?&[[? ?]|[? ?]])];
            subst; (try zlia); [right|left]; f_equal; lia);
        [rewrite E in Ha|rewrite E in Hb]; done. }
  exists g1, g2. split; [done|]. split; [done|]. split.
  - split.
    + done.
    + intros p ch. rewrite Hset2, Hset1.
      repeat case_decide; try (intros [= <-]; by right). apply Hchars.
    + intros p [[Hp| ->]| ->]%Hop.
      * destruct (Hlat _ Hp) as [?|[(?&?&?&?)|(?&?&?&?)]]; [by left|right..].
        -- left. auto.
        -- right. auto.
      * right. unfold connector. simpl.
        destruct Hgeo as [(?&?&[[? ?]|[? ?]])|(?&?&[[? ?]|[? ?]])]; subst;
          unfold junction in *; simpl in *.
        -- left. split; [zlia|]. split; [zlia|].
           replace (cc + 1 - 1) with cc by lia. replace (cc + 1 + 1) with (cc + 2) by lia.
           split; apply Hop; auto.
        -- left. split; [zlia|]. split; [zlia|].
           replace (cc - 1 - 1) with (cc - 2) by lia. replace (cc - 1 + 1) with cc by lia.
           split; apply Hop; auto.
        -- right. split; [zlia|]. split; [zlia|].
           replace (cr + 1 - 1) with cr by lia. replace (cr + 1 + 1) with (cr + 2) by lia.
           split; apply Hop; auto.
        -- right. split; [zlia|]. split; [zlia|].
           replace (cr - 1 - 1) with (cr - 2) by lia. replace (cr - 1 + 1) with cr by lia.
           split; apply Hop; auto.
      * by left.
    + intros p [->|Hp]%elem_of_cons.
      * split; [apply Hop; auto|done].
      * destruct (Hstack _ Hp). auto.
    + auto.
    + apply (perfect_leaf (fun q => open_cell g q \/ q = (wr, wc)) (open_cell g2)
               (wr, wc) (nr, nc)).
      * intros [?| [= -> ->]]; [done|]. lia.
      * by right.
      * unfold adj. simpl. lia.
      * intros [xr xc] [Hx|Hx] Hadj; [|done]. exfalso.
        unfold adj in Hadj. simpl in Hadj.
        destruct (Hlat _ Hx) as [Hj|[(?&?&Ha&Hb)|(?&?&Ha&Hb)]];
          unfold junction in *; simpl in *; try zlia.
        -- assert ((xr, xc - 1) = (nr, nc) \/ (xr, xc + 1) = (nr, nc)) as [E|E]
             by (assert (xr = nr) by zlia; subst;
                 assert (xc - 1 = nc \/ xc + 1 = nc) as [?|?] by lia;
                 [left|right]; f_equal; lia);
             [rewrite E in Ha|rewrite E in Hb]; done.
        -- assert ((xr - 1, xc) = (nr, nc) \/ (xr + 1, xc) = (nr, nc)) as [E|E]
             by (assert (xc = nc) by zlia; subst;
                 assert (xr - 1 = nr \/ xr + 1 = nr) as [?|?] by lia;
                 [left|right]; f_equal; lia);
             [rewrite E in Ha|rewrite E in Hb]; done.
      * done.
      * apply (perfect_leaf (open_cell g) _ (cr, cc) (wr, wc)); try done.
        -- unfold adj. simpl. lia.
        -- intros [xr xc] Hx Hadj.
           unfold adj in Hadj. simpl in Hadj.
           destruct (decide ((xr, xc) = (nr, nc))) as [E|Hne]; [by rewrite E in Hx|].
           assert (xr <> nr \/ xc <> nc) by (destruct (decide (xr = nr)); [right|left]; congruence).
           destruct (Hlat _ Hx) as [Hj|[(?&?&Ha&Hb)|(?&?&Ha&Hb)]];
             unfold junction in *; simpl in *; f_equal; zlia.
    + intros p d [[Hp| ->]| ->]%Hop Hj Hns Hd Hv.
      * apply Hmono, Hdone; auto.
        intros Hin. apply Hns. by right.
      * exfalso. unfold junction in *. simpl in *. zlia.
      * exfalso. apply Hns. left.
  - eapply Nat.le_lt_trans; [by eapply walls_set|].
    by eapply walls_set_lt.
Qed.

Lemma pop_step m g stack cr cc :
  gen_inv m g ((cr, cc) :: stack) ->
  (forall d, d ∈ gen_directions ->
     is_valid m (cr + d.1) (cc + d.2) = true ->
     cell_at g (cr + d.1, cc + d.2) <> Some Wall) ->
  gen_inv m g stack.
Proof.
  intros [Hwf Hchars Hlat Hstack Hstart Hperf Hdone] Hnone.
  split; try done.
  - intros p Hp. apply Hstack. by right.
  - intros p d Hp Hj Hns Hd Hv.
    destruct (decide (p = (cr, cc))) as [->|Hne].
    + simpl in *. apply is_valid_spec in Hv as Hv'.
      destruct (cell_at_valid _ _ g _ _ Hwf (proj1 Hv') (proj2 Hv')) as [ch Hch].
      exists ch. split; [done|]. intros ->. by eapply Hnone.
    + apply Hdone; try done.
      rewrite elem_of_cons. by intros [?|?].
Qed.

Lemma generate_loop_unfold fuel rnd m k g cr cc rest :
  generate_loop (S fuel) rnd m k g ((cr, cc) :: rest) =
  nbrs ← unvisited_neighbors m g cr cc gen_directions;
  match nbrs with
  | [] => generate_loop fuel rnd m k g rest
  | x0 :: xs =>
      let '(nr, nc) := choice rnd k x0 xs in
      g1 ← grid_set g nr nc Path;
      g2 ← grid_set g1 (cr + (nr - cr) / 2) (cc + (nc - cc) / 2) Path;
      generate_loop fuel rnd m (S k) g2 ((nr, nc) :: (cr, cc) :: rest)
  end.
Proof. done. Qed.

Lemma generate_loop_spec fuel rnd m k g stack :
  gen_inv m g stack ->
  (2 * length (walls m g) + length stack < fuel)%nat ->
  exists g', generate_loop fuel rnd m k g stack = Ok g' /\ gen_inv m g' [].
Proof.
  revert k g stack.
  induction fuel as [|fuel IH]; intros k g stack Hinv Hfuel; [lia|].
  destruct stack as [|[cr cc] rest]; [simpl; eauto|].
  rewrite generate_loop_unfold.
  destruct (unvisited_neighbors_spec m g cr cc gen_directions (gi_wf _ _ _ Hinv))
    as (l & -> & Hl).
  simpl. destruct l as [|x0 xs].
  - apply IH; [|simpl in Hfuel; lia].
    eapply pop_step; [done|].
    intros d Hd Hv Hw.
    assert ((cr + d.1, cc + d.2) ∈ @nil coord) as Hin by (apply Hl; eauto).
    by apply elem_of_nil in Hin.
  - pose proof (choice_in rnd k x0 xs) as Hin.
    destruct (choice rnd k x0 xs) as [nr nc].
    apply Hl in Hin as (d & Hd & Heq & Hv & Hw).
    injection Heq as -> ->. simpl in Hv.
    destruct (carve_step m g rest cr cc (cr + d.1) (cc + d.2)
                (cr + (cr + d.1 - cr) / 2) (cc + (cc + d.2 - cc) / 2) Hinv)
      as (g1 & g2 & -> & Hg2 & Hinv2 & Hlt); [|done|done|].
    { apply gen_directions_cases in Hd as [->|[->|[->| ->]]]; simpl; zlia. }
    simpl. rewrite Hg2. simpl.
    apply IH; [done|]. simpl in *. lia.
Qed.

(** When the stack is empty every junction of the grid has been carved. *)
Lemma gen_inv_all_junctions m g :
  gen_inv m g [] ->
  forall i j : nat,
    is_valid m (1 + 2 * Z.of_nat i) (1 + 2 * Z.of_nat j) = true ->
    open_cell g (1 + 2 * Z.of_nat i, 1 + 2 * Z.of_nat j).
Proof.
  intros Hinv.
  assert (Hstep : forall r c r' c', open_cell g (r, c) -> junction (r, c) ->
            (r' = r /\ c' = c + 2) \/ (r' = r + 2 /\ c' = c) ->
            is_valid m r' c' = true -> open_cell g (r', c')).
  { intros r c r' c' Hp Hj Hgeo Hv.
    assert (forall d, d ∈ gen_directions ->
              is_valid m (r + d.1) (c + d.2) = true ->
              open_cell g (r + d.1, c + d.2)) as Hd.
    { intros d Hd Hvd. apply (gi_done _ _ _ Hinv (r, c) d); try done.
      apply not_elem_of_nil. }
    destruct Hgeo as [[-> ->]|[-> ->]].
    - specialize (Hd (0, 2)). simpl in Hd.
      replace (r + 0) with r in Hd by lia.
      apply Hd; [|done]. apply gen_directions_cases. auto.
    - specialize (Hd (2, 0)). simpl in Hd.
      replace (c + 0) with c in Hd by lia.
      apply Hd; [|done]. apply gen_directions_cases. auto. }
  induction i as [|i IHi].
  - induction j as [|j IHj]; intros Hv.
    + apply (gi_start _ _ _ Hinv).
    + apply (Hstep (1 + 2 * Z.of_nat 0) (1 + 2 * Z.of_nat j)); [| |lia|done].
      * apply IHj. apply is_valid_spec in Hv. apply is_valid_spec. lia.
      * unfold junction. simpl. zlia.
  - intros j Hv.
    apply (Hstep (1 + 2 * Z.of_nat i) (1 + 2 * Z.of_nat j)); [| |lia|done].
    + apply IHi. apply is_valid_spec in Hv. apply is_valid_spec. lia.
    + unfold junction. simpl. zlia.
Qed.


(** The state in which [generate] enters its loop. *)
Lemma gen_inv_init m g0 :
  wf_grid (height m) (width m) g0 ->
  (forall q, cell_at g0 q = if decide (q = (1, 1)) then Some Path else cell_at (grid m) q) ->
  (forall q ch, cell_at (grid m) q = Some ch -> ch = Wall) ->
  gen_inv m g0 [(1, 1)].
Proof.
  intros Hwf Hset Hwalls.
  assert (Hop : forall q, open_cell g0 q <-> q = (1, 1)).
  { intros q. rewrite (open_cell_set _ _ _ _ Hset Path_not_Wall).
    split; [|by right]. intros [(ch & Hch & Hne)|?]; [|done].
    by apply Hwalls in Hch. }
  split.
  - done.
  - intros p ch. rewrite Hset. case_decide.
    + intros [= <-]. by right.
    + intros ?%Hwalls. by left.
  - intros p ->%Hop. by left.
  - intros p ->%list_elem_of_singleton. split; [by apply Hop|done].
  - by apply Hop.
  - by apply (perfect_singleton _ (1, 1)).
  - intros p d ->%Hop _ Hns. exfalso. apply Hns. left.
Qed.

(** What [generate] does on a freshly constructed maze with both
    dimensions at least 3: the loop ends with every junction carved, then
    the two markers are written over open cells. *)
Lemma generate_fresh rnd m :
  wf_maze m ->
  (forall q ch, cell_at (grid m) q = Some ch -> ch = Wall) ->
  start m = (1, 1) -> end_ m = (height m - 2, width m - 2) ->
  width m mod 2 = 1 -> height m mod 2 = 1 ->
  3 <= width m -> 3 <= height m ->
  exists g1 g3,
    generate rnd m = Ok (with_grid m g3) /\
    gen_inv m g1 [] /\
    wf_grid (height m) (width m) g3 /\
    open_cell g1 (end_ m) /\
    (forall q, cell_at g3 q =
               if decide (q = end_ m) then Some EndMark
               else if decide (q = start m) then Some StartMark
               else cell_at g1 q).
Proof.
  intros Hwf Hwalls Hstart Hend Hwodd Hhodd Hw Hh.
  unfold generate. rewrite Hstart, Hend. simpl.
  destruct (grid_set_valid _ _ (grid m) 1 1 Path Hwf) as (g0 & -> & Hwf0 & Hset0); [lia..|].
  simpl.
  pose proof (gen_inv_init m g0 Hwf0 Hset0 Hwalls) as Hinv0.
  destruct (generate_loop_spec (gen_fuel m) rnd m 0 g0 [(1, 1)] Hinv0)
    as (g1 & -> & Hinv1).
  { unfold gen_fuel, walls. simpl.
    pose proof (length_filter (fun p => cell_at g0 p = Some Wall)
                  (all_cells (height m) (width m))) as Hlen.
    rewrite length_all_cells in Hlen. lia. }
  simpl.
  pose proof (gi_wf _ _ _ Hinv1) as Hwf1.
  destruct (grid_set_valid _ _ g1 1 1 StartMark Hwf1) as (g2 & -> & Hwf2 & Hset2); [lia..|].
  simpl.
  destruct (grid_set_valid _ _ g2 (height m - 2) (width m - 2) EndMark Hwf2)
    as (g3 & -> & Hwf3 & Hset3); [lia..|].
  simpl. exists g1, g3. split; [done|]. split; [done|]. split; [done|]. split.
  - pose proof (gen_inv_all_junctions m g1 Hinv1
                  (Z.to_nat ((height m - 3) / 2)) (Z.to_nat ((width m - 3) / 2))) as Hj.
    replace (1 + 2 * Z.of_nat (Z.to_nat ((height m - 3) / 2))) with (height m - 2) in Hj
      by (Z.to_euclidean_division_equations; lia).
    replace (1 + 2 * Z.of_nat (Z.to_nat ((width m - 3) / 2))) with (width m - 2) in Hj
      by (Z.to_euclidean_division_equations; lia).
    apply Hj. apply is_valid_spec. lia.
  - intros q. rewrite Hset3, Hset2. done.
Qed.

Lemma Maze_init_fresh w0 h0 m :
  Maze_init w0 h0 = Ok m ->
  wf_maze m /\
  (forall q ch, cell_at (grid m) q = Some ch -> ch = Wall) /\
  start m = (1, 1) /\ end_ m = (height m - 2, width m - 2) /\
  width m = normalize w0 /\ height m = normalize h0.
Proof.
  rewrite Maze_init_eq. intros [= <-]. simpl.
  split; [apply wf_grid_replicate|]. split; [|done].
  intros q ch. apply cell_at_replicate.
Qed.

Lemma generated_spec rnd w0 h0 :
  2 <= w0 -> 2 <= h0 ->
  exists m g1 g3,
    Maze_init w0 h0 = Ok m /\
    generated rnd w0 h0 = Ok (with_grid m g3) /\
    3 <= width m /\ 3 <= height m /\
    start m = (1, 1) /\ end_ m = (height m - 2, width m - 2) /\
    gen_inv m g1 [] /\
    wf_grid (height m) (width m) g3 /\
    open_cell g1 (end_ m) /\
    (forall q, cell_at g3 q =
               if decide (q = end_ m) then Some EndMark
               else if decide (q = start m) then Some StartMark
               else cell_at g1 q).
Proof.
  intros Hw Hh. unfold generated.
  destruct (Maze_init w0 h0) as [m| |] eqn:Hinit;
    try (rewrite Maze_init_eq in Hinit; discriminate).
  destruct (Maze_init_fresh _ _ _ Hinit) as (Hwf & Hwalls & Hs & He & Hwm & Hhm).
  assert (3 <= width m /\ 3 <= height m) as [Hw3 Hh3].
  { rewrite Hwm, Hhm. unfold normalize.
    destruct (Z.even w0) eqn:Ew, (Z.even h0) eqn:Eh;
      rewrite ?Zeven_mod in *;
      repeat match goal with
             | H : (_ =? _) = true |- _ => apply Z.eqb_eq in H
             | H : (_ =? _) = false |- _ => apply Z.eqb_neq in H
             end; Z.to_euclidean_division_equations; lia. }
  destruct (generate_fresh rnd m Hwf Hwalls Hs He) as (g1 & g3 & Hgen & Hrest);
    [rewrite Hwm; apply normalize_odd|rewrite Hhm; apply normalize_odd|done..|].
  exists m, g1, g3. simpl. tauto.
Qed.

Lemma generated_open m g1 g3 :
  gen_inv m g1 [] -> start m = (1, 1) -> open_cell g1 (end_ m) ->
  (forall q, cell_at g3 q =
             if decide (q = end_ m) then Some EndMark
             else if decide (q = start m) then Some StartMark
             else cell_at g1 q) ->
  forall q, open_cell g3 q <-> open_cell g1 q.
Proof.
  intros Hinv Hs He Hset q. unfold open_cell at 1. rewrite Hset.
  repeat case_decide; subst.
  - split; [done|]. intros _. by exists EndMark.
  - split; [|intros _; by exists StartMark].
    intros _. rewrite Hs. apply (gi_start _ _ _ Hinv).
  - done.
Qed.


(** ** The generated maze *)

(** C1: for odd [width], [height >= 3] and every run of the random source,
    [generate] returns, every open cell is joined to [start] by a path of
    open cells, and any two open cells are joined by exactly one simple
    path: the open cells form a perfect maze. *)
Theorem generate_perfect (rnd : nat -> nat) (w0 h0 : Z) :
  Z.odd w0 = true -> Z.odd h0 = true -> 3 <= w0 -> 3 <= h0 ->
  exists m', generated rnd w0 h0 = Ok m' /\
    open_cell (grid m') (start m') /\
    (forall p, open_cell (grid m') p ->
       exists l, simple_path (open_cell (grid m')) (start m') p l) /\
    perfect (open_cell (grid m')).
Proof.
  intros _ _ Hw Hh.
  destruct (generated_spec rnd w0 h0) as
    (m & g1 & g3 & _ & Hgen & _ & _ & Hs & He & Hinv & Hwf3 & Hend & Hset); [lia..|].
  pose proof (generated_open m g1 g3 Hinv Hs Hend Hset) as Hop.
  assert (Hperf : perfect (open_cell g3)).
  { eapply perfect_ext; [|apply (gi_perfect _ _ _ Hinv)]. intros x. by rewrite Hop. }
  assert (Hstart : open_cell g3 (start m)).
  { apply Hop. rewrite Hs. apply (gi_start _ _ _ Hinv). }
  exists (with_grid m g3). split; [done|]. simpl. split; [done|]. split; [|done].
  intros p Hp. destruct (Hperf (start m) p Hstart Hp) as (l & Hl & _). eauto.
Qed.

Lemma generate_perfect_witness :
  exists m', generated (fun _ => 0%nat) 5 5 = Ok m' /\
    open_cell (grid m') (start m') /\
    (forall p, open_cell (grid m') p ->
       exists l, simple_path (open_cell (grid m')) (start m') p l) /\
    perfect (open_cell (grid m')).
Proof. apply (generate_perfect (fun _ => 0%nat) 5 5); [reflexivity|reflexivity|lia|lia]. Defined.

(** C5, as stated, fails: on the 3 by 3 maze [start] and [end] are the
    same cell, the [EndMark] marker overwrites the [StartMark] marker and no cell
    is marked [StartMark]. *)
Lemma generate_marks_3x3 :
  ~ (exists m', generated (fun _ => 0%nat) 3 3 = Ok m' /\ marks_ok m').
Proof.
  intros (m' & Hgen & Hmarks). vm_compute in Hgen. injection Hgen as <-.
  destruct (Hmarks (1, 1)) as [[_ Hs] _]. specialize (Hs eq_refl).
  vm_compute in Hs. discriminate Hs.
Qed.

(** C5, amended: for [width], [height >= 2] of which at least one exceeds
    3, [generate] returns a grid with exactly one [StartMark] cell, at [(1,1)],
    and exactly one [EndMark] cell, at [(height-2, width-2)]. *)
Theorem generate_marks (rnd : nat -> nat) (w0 h0 : Z) :
  2 <= w0 -> 2 <= h0 -> 3 < w0 \/ 3 < h0 ->
  exists m', generated rnd w0 h0 = Ok m' /\ marks_ok m'.
Proof.
  intros Hw Hh Hbig.
  destruct (generated_spec rnd w0 h0) as
    (m & g1 & g3 & Hinit & Hgen & Hw3 & Hh3 & Hs & He & Hinv & Hwf3 & Hend & Hset); [lia..|].
  destruct (Maze_init_fresh _ _ _ Hinit) as (_ & _ & _ & _ & Hwm & Hhm).
  assert (Hne : start m <> end_ m).
  { rewrite Hs, He, Hwm, Hhm. unfold normalize.
    destruct (Z.even w0), (Z.even h0); intros [= ? ?]; lia. }
  exists (with_grid m g3). split; [done|]. intros p. simpl. rewrite Hset, <- Hs, <- He.
  split.
  - repeat case_decide; subst; split; try done; try congruence.
    all: intros Hc; destruct (gi_chars _ _ _ Hinv _ _ Hc); discriminate.
  - repeat case_decide; subst; split; try done; try congruence.
    all: intros Hc; destruct (gi_chars _ _ _ Hinv _ _ Hc); discriminate.
Qed.

Lemma generate_marks_witness :
  exists m', generated (fun k => k) 4 3 = Ok m' /\ marks_ok m'.
Proof. apply (generate_marks (fun k => k) 4 3); lia. Defined.

(** C6, as stated, fails: the carved cells lie on odd coordinates. On the
    3 by 3 maze the one open cell is [(1,1)]. *)
Lemma generate_lattice_not_even :
  ~ (exists m', generated (fun _ => 0%nat) 3 3 = Ok m' /\ lattice_even (grid m')).
Proof.
  intros (m' & Hgen & Hlat). vm_compute in Hgen. injection Hgen as <-.
  destruct (Hlat (1, 1)) as [[H _]|[(H & _)|(_ & H & _)]]; simpl in *; try discriminate H.
  exists EndMark. split; [reflexivity|discriminate].
Qed.

(** C6, amended: after [generate] every open cell is a junction with two
    odd coordinates, or a connector with exactly one even coordinate that
    lies, on the axis of that coordinate, between two open junctions. *)
Theorem generate_lattice (rnd : nat -> nat) (w0 h0 : Z) :
  2 <= w0 -> 2 <= h0 ->
  exists m', generated rnd w0 h0 = Ok m' /\ lattice (grid m').
Proof.
  intros Hw Hh.
  destruct (generated_spec rnd w0 h0) as
    (m & g1 & g3 & _ & Hgen & _ & _ & Hs & He & Hinv & Hwf3 & Hend & Hset); [lia..|].
  pose proof (generated_open m g1 g3 Hinv Hs Hend Hset) as Hop.
  exists (with_grid m g3). split; [done|]. simpl.
  intros p Hp%Hop. unfold connector. rewrite !Hop.
  by apply (gi_lattice _ _ _ Hinv).
Qed.

Lemma generate_lattice_witness :
  exists m', generated (fun k => k) 7 5 = Ok m' /\ lattice (grid m').
Proof. apply (generate_lattice (fun k => k) 7 5); lia. Defined.

(** The first write of [generate], at [start = (1,1)], is out of range as
    soon as a dimension is below 2. *)
Lemma first_write_fails m :
  wf_maze m -> width m < 2 \/ height m < 2 ->
  grid_set (grid m) 1 1 Path = Raise IndexError.
Proof.
  intros [Hlen Hall] Hsmall. unfold grid_set.
  destruct (decide (height m < 2)) as [Hh|Hh].
  - rewrite py_get_out by lia. done.
  - destruct (py_get_nonneg (grid m) 1) as (rw & -> & Hrw); [lia|].
    simpl. rewrite py_set_out; [done|].
    rewrite Forall_forall in Hall. rewrite (Hall rw); [lia|].
    by eapply list_elem_of_lookup_2.
Qed.

(** C10: on a constructed maze with a normalized dimension equal to 1 the
    first grid write of [generate], at [start = (1,1)], raises
    [IndexError], and so does [generate]; [generate] completes exactly when
    both normalized dimensions are at least 3. *)
Theorem generate_in_bounds (rnd : nat -> nat) (w0 h0 : Z) (m : Maze) :
  Maze_init w0 h0 = Ok m ->
  (width m = 1 \/ height m = 1 ->
     grid_set (grid m) (start m).1 (start m).2 Path = Raise IndexError /\
     generate rnd m = Raise IndexError) /\
  (3 <= width m /\ 3 <= height m <-> exists m', generate rnd m = Ok m').
Proof.
  intros Hinit.
  destruct (Maze_init_fresh _ _ _ Hinit) as (Hwf & Hwalls & Hs & He & Hwm & Hhm).
  assert (Hfail : width m < 2 \/ height m < 2 ->
            grid_set (grid m) (start m).1 (start m).2 Path = Raise IndexError /\
            generate rnd m = Raise IndexError).
  { intros Hsmall. unfold generate. rewrite Hs. simpl.
    by rewrite first_write_fails. }
  split; [intros; apply Hfail; lia|]. split.
  - intros [Hw Hh].
    destruct (generate_fresh rnd m Hwf Hwalls Hs He) as (g1 & g3 & Hgen & _);
      [rewrite Hwm; apply normalize_odd|rewrite Hhm; apply normalize_odd|done..|].
    eauto.
  - intros [m' Hgen].
    destruct (decide (width m < 2 \/ height m < 2)) as [Hsmall|Hbig].
    + destruct (Hfail Hsmall) as [_ Hr]. congruence.
    + pose proof (normalize_odd w0). pose proof (normalize_odd h0).
      rewrite <- Hwm, <- Hhm in *. Z.to_euclidean_division_equations. lia.
Qed.

Lemma generate_in_bounds_witness :
  exists m, Maze_init 1 4 = Ok m /\
  (width m = 1 \/ height m = 1 ->
     grid_set (grid m) (start m).1 (start m).2 Path = Raise IndexError /\
     generate (fun k => k) m = Raise IndexError) /\
  (3 <= width m /\ 3 <= height m <-> exists m', generate (fun k => k) m = Ok m').
Proof.
  eexists. split; [reflexivity|].
  apply (generate_in_bounds (fun k => k) 1 4). reflexivity.
Defined.


(** ** Solving: breadth-first search *)

Lemma sorted_lvl_snoc (lvl : coord -> nat) (q : list coord) (v : coord) (n : nat) :
  StronglySorted (fun a b => (lvl a <= lvl b)%nat) q ->
  v ∉ q -> (forall x, x ∈ q -> (lvl x <= n)%nat) ->
  StronglySorted (fun a b => (<[v := n]> lvl a <= <[v := n]> lvl b)%nat) (q ++ [v]).
Proof.
  induction 1 as [|a q Hq IH Ha]; intros Hv Hn; simpl.
  - repeat constructor.
  - apply not_elem_of_cons in Hv as [Hva Hvq].
    constructor.
    + apply IH; [done|]. intros x Hx. apply Hn. by right.
    + rewrite Forall_app. split.
      * rewrite Forall_forall in *. intros x Hx.
        rewrite !fn_lookup_insert_ne; [by apply Ha| |by apply not_eq_sym].
        intros ->. done.
      * constructor; [|constructor].
        rewrite fn_lookup_insert, fn_lookup_insert_ne by (by apply not_eq_sym).
        apply Hn. left.
Qed.

Lemma bfs_enqueue m lvl processed st cur rest v :
  bfs_inv m lvl processed st ->
  queue st = cur :: rest ->
  v ∉ visited st -> adj cur v -> open_cell (grid m) v ->
  bfs_inv m (<[v := S (lvl cur)]> lvl) processed
    {| queue := queue st ++ [v];
       visited := {[ v ]} ∪ visited st;
       parent_map := <[ v := Some cur ]> (parent_map st) |}.
Proof.
  intros [Hspm Hslvl Hsvis Hvis Hnd Hpar Hcl Hne Hsort Hfront Hbound] Hq Hv Hadj Hopen.
  assert (Hcurq : cur ∈ queue st) by (rewrite Hq; left).
  assert (Hcurv : cur ∈ visited st) by (apply Hvis; by right).
  assert (Hold : forall x, x ∈ visited st -> <[v := S (lvl cur)]> lvl x = lvl x).
  { intros x Hx. apply fn_lookup_insert_ne. by intros ->. }
  split; simpl.
  - rewrite lookup_insert_ne; [done|]. by intros ->.
  - by rewrite Hold.
  - apply elem_of_union. by right.
  - intros x. rewrite elem_of_union, elem_of_singleton, elem_of_app,
      list_elem_of_singleton, Hvis. tauto.
  - rewrite app_assoc. apply NoDup_app. split; [done|]. split.
    + intros x Hx ->%list_elem_of_singleton. apply Hv, Hvis.
      by apply elem_of_app in Hx.
    + apply NoDup_singleton.
  - intros x [->%elem_of_singleton|Hx]%elem_of_union Hxs.
    + exists cur. rewrite lookup_insert_eq, fn_lookup_insert, Hold by done.
      repeat split; try done. apply elem_of_union. by right.
    + destruct (Hpar x Hx Hxs) as (u & Hu & Huv & Hadju & Hopx & Hlvl).
      exists u. rewrite lookup_insert_ne by (by intros ->).
      rewrite !Hold by done. repeat split; try done. apply elem_of_union. by right.
  - intros u x Hu Hadju Hopx. destruct (Hcl u x Hu Hadju Hopx) as [Hx Hle].
    rewrite !Hold; [|apply Hvis; by left|done].
    split; [|done]. apply elem_of_union. by right.
  - done.
  - apply sorted_lvl_snoc; [done| |].
    + intros Hin. apply Hv, Hvis. by right.
    + intros x Hx. apply Hfront; [|done]. apply Hvis. by right.
  - assert (Hmin : forall q, q ∈ queue st -> (lvl cur <= lvl q)%nat).
    { intros q. rewrite Hq. intros [->|Hin]%elem_of_cons; [done|].
      rewrite Hq in Hsort. apply StronglySorted_inv in Hsort as [_ Hall].
      rewrite Forall_forall in Hall. by apply Hall. }
    intros x q [->%elem_of_singleton|Hx]%elem_of_union
             [Hqin| ->%list_elem_of_singleton]%elem_of_app.
    + rewrite fn_lookup_insert, Hold by (apply Hvis; by right).
      specialize (Hmin q Hqin). lia.
    + lia.
    + rewrite !Hold; [|apply Hvis; by right|done]. by apply Hfront.
    + rewrite fn_lookup_insert, Hold by done.
      specialize (Hfront x cur Hx Hcurq). lia.
  - intros x [->%elem_of_singleton|Hx]%elem_of_union; rewrite length_app; simpl.
    + rewrite fn_lookup_insert. specialize (Hbound cur Hcurv). lia.
    + rewrite Hold by done. specialize (Hbound x Hx). lia.
Qed.

Lemma bfs_dequeue m lvl processed st cur rest :
  bfs_inv m lvl processed st ->
  queue st = cur :: rest ->
  cur <> end_ m ->
  (forall v, adj cur v -> open_cell (grid m) v ->
     v ∈ visited st /\ (lvl v <= S (lvl cur))%nat) ->
  bfs_inv m lvl (processed ++ [cur])
    {| queue := rest; visited := visited st; parent_map := parent_map st |}.
Proof.
  intros [Hspm Hslvl Hsvis Hvis Hnd Hpar Hcl Hne Hsort Hfront Hbound] Hq Hcur Hclosed.
  rewrite Hq in *. split; simpl; try done.
  - intros x. rewrite Hvis, elem_of_app, list_elem_of_singleton, elem_of_cons. tauto.
  - by rewrite <- app_assoc.
  - intros u x [Hu| ->%list_elem_of_singleton]%elem_of_app; [by apply Hcl|by apply Hclosed].
  - intros u [Hu| ->%list_elem_of_singleton]%elem_of_app; [by apply Hne|done].
  - by apply StronglySorted_inv in Hsort as [? _].
  - intros x q Hx Hqin. apply Hfront; [done|by right].
  - intros x Hx. specialize (Hbound x Hx). rewrite length_app. simpl in *. lia.
Qed.

Lemma solve_directions_cases (d : coord) :
  d ∈ solve_directions <-> d = (0, 1) \/ d = (0, -1) \/ d = (1, 0) \/ d = (-1, 0).
Proof.
  unfold solve_directions. rewrite !elem_of_cons, elem_of_nil. tauto.
Qed.

Lemma adj_direction (p q : coord) :
  adj p q <-> exists d, d ∈ solve_directions /\ q = (p.1 + d.1, p.2 + d.2).
Proof.
  destruct p as [pr pc], q as [qr qc]. unfold adj. simpl. split.
  - intros Hadj.
    exists (qr - pr, qc - pc). split.
    + apply solve_directions_cases.
      assert ((qr - pr = 0 /\ qc - pc = 1) \/ (qr - pr = 0 /\ qc - pc = -1) \/
              (qr - pr = 1 /\ qc - pc = 0) \/ (qr - pr = -1 /\ qc - pc = 0))
        as [[-> ->]|[[-> ->]|[[-> ->]|[-> ->]]]] by lia; auto.
    + simpl. f_equal; lia.
  - intros (d & Hd & [= -> ->]).
    apply solve_directions_cases in Hd as [->|[->|[->| ->]]]; simpl; lia.
Qed.

Lemma cur_closed_enqueue (m : Maze) (lvl : coord -> nat) (vis : gset coord)
    (cur v : coord) (dirs : list coord) :
  cur ∈ vis -> v ∉ vis ->
  cur_closed m lvl vis cur dirs ->
  cur_closed m (<[v := S (lvl cur)]> lvl) ({[ v ]} ∪ vis) cur dirs.
Proof.
  intros Hcur Hv Hcl d Hd Hop. destruct (Hcl d Hd Hop) as [Hin Hle].
  split; [apply elem_of_union; by right|].
  rewrite !fn_lookup_insert_ne; [done|by intros ->|by intros ->].
Qed.

Lemma bfs_neighbors_spec m cur todo :
  wf_maze m ->
  Forall (fun d => d ∈ solve_directions) todo ->
  forall done lvl processed st,
    bfs_inv m lvl processed (push_front cur st) ->
    cur_closed m lvl (visited st) cur done ->
    exists lvl' st',
      bfs_neighbors m cur todo st = Ok st' /\
      bfs_inv m lvl' processed (push_front cur st') /\
      cur_closed m lvl' (visited st') cur (done ++ todo).
Proof.
  intros Hwf. induction todo as [|[dr dc] todo IH]; intros Hdirs done lvl processed st Hinv Hcl.
  - exists lvl, st. rewrite app_nil_r. done.
  - apply Forall_cons in Hdirs as [Hd Hdirs]. specialize (IH Hdirs).
    simpl. rewrite (cons_middle (dr, dc) done todo), app_assoc.
    set (v := (cur.1 + dr, cur.2 + dc)).
    assert (Hcurv : cur ∈ visited st).
    { apply (bi_visited _ _ _ _ Hinv). right. left. }
    assert (Hskip : (open_cell (grid m) v ->
                     v ∈ visited st /\ (lvl v <= S (lvl cur))%nat) ->
                    cur_closed m lvl (visited st) cur (done ++ [(dr, dc)])).
    { intros Hv d [Hin| ->%list_elem_of_singleton]%elem_of_app; [by apply Hcl|done]. }
    destruct (is_valid m (cur.1 + dr) (cur.2 + dc)) eqn:Hval.
    + apply is_valid_spec in Hval as Hval'.
      destruct (grid_get_valid _ _ _ _ _ Hwf (proj1 Hval') (proj2 Hval')) as (ch & -> & Hch).
      simpl. fold v in Hch. case_decide as Hw.
      * case_decide as Hvis.
        -- assert (Hopv : open_cell (grid m) v) by (by exists ch).
           assert (Hadj : adj cur v).
           { apply adj_direction. by exists (dr, dc). }
           pose proof (bfs_enqueue m lvl processed (push_front cur st) cur (queue st) v
                         Hinv eq_refl Hvis Hadj Hopv) as Hinv'.
           apply (IH (done ++ [(dr, dc)]) _ processed
                    {| queue := queue st ++ [v];
                       visited := {[ v ]} ∪ visited st;
                       parent_map := <[ v := Some cur ]> (parent_map st) |} Hinv').
           simpl. intros d [Hin| ->%list_elem_of_singleton]%elem_of_app.
           ++ by apply (cur_closed_enqueue m lvl (visited st) cur v done Hcurv Hvis Hcl d).
           ++ intros _. simpl. fold v. split; [apply elem_of_union_l, elem_of_singleton; done|].
              rewrite fn_lookup_insert, fn_lookup_insert_ne; [done|].
              by intros ->.
        -- apply (IH _ _ _ _ Hinv). apply Hskip. intros _.
           split; [done|].
           apply (bi_front _ _ _ _ Hinv); [done|left].
      * apply (IH _ _ _ _ Hinv). apply Hskip. intros (ch' & Hch' & Hne).
        congruence.
    + apply (IH _ _ _ _ Hinv). apply Hskip. intros Hop.
      apply (open_cell_valid m _ _ Hwf) in Hop. simpl in Hop. congruence.
Qed.

Lemma bfs_reach m lvl processed st :
  bfs_inv m lvl processed st ->
  forall n w, reach m n w ->
    (w ∈ visited st /\ (lvl w <= n)%nat) \/
    (exists q, q ∈ queue st /\ (lvl q < n)%nat).
Proof.
  intros Hinv. induction 1 as [|n p q _ IH Hadj Hop].
  - left. split; [apply (bi_start_vis _ _ _ _ Hinv)|].
    by rewrite (bi_start_lvl _ _ _ _ Hinv).
  - destruct IH as [[Hp Hle]|(q' & Hq' & Hlt)].
    + apply (bi_visited _ _ _ _ Hinv) in Hp as [Hp|Hp].
      * left. destruct (bi_closed _ _ _ _ Hinv p q Hp Hadj Hop). split; [done|lia].
      * right. exists p. split; [done|lia].
    + right. exists q'. split; [done|lia].
Qed.

Lemma bfs_size m lvl processed st :
  wf_maze m -> bfs_inv m lvl processed st ->
  (length processed + length (queue st)
   <= 1 + Z.to_nat (height m) * Z.to_nat (width m))%nat.
Proof.
  intros Hwf Hinv.
  rewrite <- length_app, <- length_all_cells.
  change (1 + length (all_cells (height m) (width m)))%nat
    with (length (start m :: all_cells (height m) (width m))).
  apply submseteq_length, NoDup_submseteq; [apply (bi_nodup _ _ _ _ Hinv)|].
  intros x Hx. destruct (decide (x = start m)) as [->|Hne]; [left|right].
  assert (x ∈ visited st) as Hv.
  { apply (bi_visited _ _ _ _ Hinv). by apply elem_of_app. }
  destruct (bi_parent _ _ _ _ Hinv x Hv Hne) as (_ & _ & _ & _ & Hop & _).
  apply elem_of_all_cells, is_valid_spec. by apply (open_cell_valid m (grid m)).
Qed.

Lemma bfs_loop_unfold fuel m cur rest vs pm :
  bfs_loop (S fuel) m {| queue := cur :: rest; visited := vs; parent_map := pm |} =
  if decide (cur = end_ m) then Ok (Some pm)
  else st' ← bfs_neighbors m cur solve_directions
               {| queue := rest; visited := vs; parent_map := pm |};
       bfs_loop fuel m st'.
Proof. done. Qed.

Lemma bfs_loop_spec m :
  wf_maze m ->
  forall fuel lvl processed st,
    bfs_inv m lvl processed st ->
    (1 + Z.to_nat (height m) * Z.to_nat (width m) - length processed < fuel)%nat ->
    match bfs_loop fuel m st with
    | Ok None => forall n, ~ reach m n (end_ m)
    | Ok (Some pm) =>
        exists lvl' processed' st',
          bfs_inv m lvl' processed' st' /\ pm = parent_map st' /\
          exists rest, queue st' = end_ m :: rest
    | _ => False
    end.
Proof.
  intros Hwf. induction fuel as [|fuel IH]; intros lvl processed st Hinv Hfuel; [lia|].
  destruct st as [q vs pm]. destruct q as [|cur rest].
  - simpl. intros n Hr. destruct (bfs_reach _ _ _ _ Hinv _ _ Hr) as [[Hv _]|(q & Hq & _)].
    + apply (bi_visited _ _ _ _ Hinv) in Hv as [Hv|Hv]; simpl in Hv.
      * by apply (bi_not_end _ _ _ _ Hinv) in Hv.
      * by apply elem_of_nil in Hv.
    + simpl in Hq. by apply elem_of_nil in Hq.
  - rewrite bfs_loop_unfold. case_decide as Hend.
    + exists lvl, processed, {| queue := cur :: rest; visited := vs; parent_map := pm |}.
      subst cur. eauto.
    + destruct (bfs_neighbors_spec m cur solve_directions Hwf) with
        (done := @nil coord) (lvl := lvl) (processed := processed)
        (st := {| queue := rest; visited := vs; parent_map := pm |})
        as (lvl' & st' & -> & Hinv' & Hcl); [by apply Forall_forall|done| |].
      { intros d Hd. by apply elem_of_nil in Hd. }
      simpl. destruct st' as [q' vs' pm'].
      apply IH with (lvl := lvl') (processed := processed ++ [cur]).
      * apply (bfs_dequeue m lvl' processed _ cur q' Hinv' eq_refl Hend).
        intros v (d & Hd & ->)%adj_direction Hop. by apply Hcl.
      * pose proof (bfs_size _ _ _ _ Hwf Hinv) as Hsz. simpl in Hsz.
        rewrite length_app. simpl. lia.
Qed.

Lemma trail_snoc g p u v l :
  trail g p u l -> adj u v -> open_cell g v -> trail g p v (l ++ [v]).
Proof.
  induction 1 as [p|p p' q l Hadj Hop _ IH]; intros Huv Hv; simpl.
  - econstructor; eauto. constructor.
  - econstructor; eauto.
Qed.

Lemma back_chain_trail m v l :
  back_chain m v l -> trail (grid m) (start m) v (reverse l).
Proof.
  induction 1 as [|v u l Hadj Hop _ IH].
  - constructor.
  - rewrite reverse_cons. by eapply trail_snoc.
Qed.

Lemma reconstruct_spec m lvl processed st :
  bfs_inv m lvl processed st ->
  forall fuel v acc,
    v ∈ visited st -> (lvl v < fuel)%nat ->
    exists l, reconstruct fuel (parent_map st) acc (Some v) = Ok (acc ++ l) /\
      length l = S (lvl v) /\ back_chain m v l.
Proof.
  intros Hinv. induction fuel as [|fuel IH]; intros v acc Hv Hfuel; [lia|].
  simpl. destruct (decide (v = start m)) as [->|Hne].
  - rewrite (bi_start_pm _ _ _ _ Hinv). destruct fuel; simpl.
    all: exists [start m]; rewrite (bi_start_lvl _ _ _ _ Hinv);
      split; [done|]; split; [done|constructor].
  - destruct (bi_parent _ _ _ _ Hinv v Hv Hne) as (u & -> & Hu & Hadj & Hop & Hlvl).
    destruct (IH u (acc ++ [v]) Hu) as (l & -> & Hlen & Hbc); [lia|].
    exists (v :: l). rewrite <- app_assoc. simpl.
    split; [done|]. split; [lia|]. by econstructor.
Qed.

(** What [solve] returns on a well-formed maze. *)
Lemma solve_spec m :
  wf_maze m ->
  match solve m with
  | Ok None => forall n, ~ reach m n (end_ m)
  | Ok (Some path) =>
      trail (grid m) (start m) (end_ m) path /\
      forall n, reach m n (end_ m) -> (length path <= S n)%nat
  | _ => False
  end.
Proof.
  intros Hwf. unfold solve.
  set (st0 := {| queue := [start m]; visited := {[ start m ]};
                 parent_map := {[ start m := None ]} |}).
  assert (Hinv0 : bfs_inv m (fun _ => 0%nat) [] st0).
  { split; simpl; try done.
    - apply lookup_singleton_eq.
    - by apply elem_of_singleton.
    - intros v. rewrite elem_of_singleton, list_elem_of_singleton, elem_of_nil. tauto.
    - apply NoDup_singleton.
    - by intros v ->%elem_of_singleton.
    - intros u v Hu. by apply elem_of_nil in Hu.
    - intros u Hu. by apply elem_of_nil in Hu.
    - repeat constructor.
    - intros. lia.
    - intros. lia. }
  pose proof (bfs_loop_spec m Hwf (solve_fuel m) _ _ _ Hinv0) as Hloop.
  destruct (bfs_loop (solve_fuel m) m st0) as [[pm|]| |]; simpl;
    try (apply Hloop; unfold solve_fuel; simpl; lia).
  destruct Hloop as (lvl & processed & st & Hinv & -> & rest & Hq);
    [unfold solve_fuel; simpl; lia|].
  assert (Hendq : end_ m ∈ queue st) by (rewrite Hq; left).
  assert (Hendv : end_ m ∈ visited st).
  { apply (bi_visited _ _ _ _ Hinv). by right. }
  destruct (reconstruct_spec m lvl processed st Hinv (solve_fuel m) (end_ m) [] Hendv)
    as (l & -> & Hlen & Hbc).
  { pose proof (bi_bound _ _ _ _ Hinv _ Hendv).
    pose proof (bfs_size _ _ _ _ Hwf Hinv). unfold solve_fuel. lia. }
  simpl. split; [by apply back_chain_trail|].
  intros n Hr. rewrite length_reverse, Hlen.
  destruct (bfs_reach _ _ _ _ Hinv _ _ Hr) as [[_ Hle]|(q & Hqin & Hlt)]; [lia|].
  assert (lvl (end_ m) <= lvl q)%nat; [|lia].
  rewrite Hq in Hqin. apply elem_of_cons in Hqin as [->|Hqin]; [done|].
  pose proof (bi_sorted _ _ _ _ Hinv) as Hs. rewrite Hq in Hs.
  apply StronglySorted_inv in Hs as [_ Hall].
  rewrite Forall_forall in Hall. by apply Hall.
Qed.


(** ** The solver's contract *)

Lemma walk_source g p q l : walk g p q l -> open_cell g p.
Proof. by destruct 1. Qed.

Lemma walk_reach m n p q l :
  reach m n p -> walk (grid m) p q l -> reach m (n + length l - 1) q.
Proof.
  intros Hr Hw. revert n Hr.
  induction Hw as [p Hp|p p' q l Hp Hadj Hl IH]; intros n Hr; simpl.
  - by replace (n + 1 - 1)%nat with n by lia.
  - replace (n + S (length l) - 1)%nat with (S n + length l - 1)%nat by lia.
    apply IH. econstructor; eauto. by eapply walk_source.
Qed.

Lemma trail_walk g p q l : open_cell g p -> trail g p q l -> walk g p q l.
Proof.
  intros Hp Ht. induction Ht as [p|p p' q l Hadj Hop _ IH].
  - by constructor.
  - econstructor; eauto.
Qed.

Lemma sp_walk g p q l : simple_path (open_cell g) p q l -> walk g p q l.
Proof. induction 1; econstructor; eauto. Qed.

Lemma trail_head g p q l : trail g p q l -> head l = Some p.
Proof. by destruct 1. Qed.

Lemma trail_last g p q l : trail g p q l -> last l = Some q.
Proof.
  induction 1 as [p|p p' q l _ _ Hl IH]; [done|].
  destruct Hl; done.
Qed.

Lemma trail_adj g p q l :
  trail g p q l ->
  forall (i : nat) a b, l !! i = Some a -> l !! S i = Some b -> adj a b.
Proof.
  induction 1 as [p|p p' q l Hadj _ Hl IH]; intros i a b Ha Hb; [done|].
  destruct i as [|i]; simpl in *.
  - injection Ha as <-. apply trail_head in Hl.
    destruct l; simpl in *; congruence.
  - eauto.
Qed.

(** C2: on every well-formed grid, whenever [solve] returns a path it is a
    sequence of adjacent cells from [start] to [end], open after the first,
    and no sequence of adjacent open cells from [start] to [end] has fewer
    cells. *)
Theorem solve_shortest (m : Maze) (path : list coord) :
  wf_maze m -> solve m = Ok (Some path) ->
  trail (grid m) (start m) (end_ m) path /\
  forall l, walk (grid m) (start m) (end_ m) l -> (length path <= length l)%nat.
Proof.
  intros Hwf Hsolve. pose proof (solve_spec m Hwf) as Hspec.
  rewrite Hsolve in Hspec. destruct Hspec as [Htrail Hmin].
  split; [done|]. intros l Hl.
  pose proof (walk_reach m 0 _ _ _ (reach_O m) Hl) as Hr.
  apply Hmin in Hr. destruct Hl; simpl in *; lia.
Qed.

Lemma solve_shortest_witness :
  trail (grid two_routes) (start two_routes) (end_ two_routes)
    [(1, 1); (1, 2); (1, 3); (2, 3); (3, 3)] /\
  forall l, walk (grid two_routes) (start two_routes) (end_ two_routes) l ->
    (length [(1, 1); (1, 2); (1, 3); (2, 3); (3, 3)] <= length l)%nat.
Proof.
  apply (solve_shortest two_routes [(1, 1); (1, 2); (1, 3); (2, 3); (3, 3)]).
  - split; [reflexivity|]. repeat constructor.
  - vm_compute. reflexivity.
Defined.

(** C3: for odd [width], [height >= 3] and every run of the random source,
    [solve] after [generate] returns a path; its first element is [start],
    its last is [end], and consecutive coordinates are at Manhattan
    distance 1. *)
Theorem solve_generated (rnd : nat -> nat) (w0 h0 : Z) :
  Z.odd w0 = true -> Z.odd h0 = true -> 3 <= w0 -> 3 <= h0 ->
  exists m' path,
    generated rnd w0 h0 = Ok m' /\
    solve m' = Ok (Some path) /\
    head path = Some (start m') /\
    last path = Some (end_ m') /\
    forall (i : nat) a b, path !! i = Some a -> path !! S i = Some b ->
      Z.abs (a.1 - b.1) + Z.abs (a.2 - b.2) = 1.
Proof.
  intros _ _ Hw Hh.
  destruct (generated_spec rnd w0 h0) as
    (m & g1 & g3 & _ & Hgen & _ & _ & Hs & He & Hinv & Hwf3 & Hend & Hset); [lia..|].
  pose proof (generated_open m g1 g3 Hinv Hs Hend Hset) as Hop.
  set (m' := with_grid m g3).
  assert (Hwf : wf_maze m') by done.
  assert (Hreach : exists n, reach m' n (end_ m')).
  { destruct (gi_perfect _ _ _ Hinv (start m) (end_ m)) as (l & Hl & _);
      [rewrite Hs; apply (gi_start _ _ _ Hinv)|done|].
    exists (0 + length l - 1)%nat.
    apply (walk_reach m' 0 (start m')); [constructor|].
    apply sp_walk. eapply sp_mono; [|done]. intros x. apply Hop. }
  pose proof (solve_spec m' Hwf) as Hspec.
  destruct (solve m') as [[path|]| |] eqn:Hsolve; try done.
  - destruct Hspec as [Htrail _].
    exists m', path. split; [done|]. split; [done|].
    split; [by eapply trail_head|]. split; [by eapply trail_last|].
    intros i a b Ha Hb. by eapply (trail_adj _ _ _ _ Htrail).
  - destruct Hreach as [n Hr]. by apply Hspec in Hr.
Qed.

Lemma solve_generated_witness :
  exists m' path,
    generated (fun k => k) 7 5 = Ok m' /\
    solve m' = Ok (Some path) /\
    head path = Some (start m') /\
    last path = Some (end_ m') /\
    forall (i : nat) a b, path !! i = Some a -> path !! S i = Some b ->
      Z.abs (a.1 - b.1) + Z.abs (a.2 - b.2) = 1.
Proof.
  apply (solve_generated (fun k => k) 7 5); [reflexivity|reflexivity|lia|lia].
Defined.


(** ** Determinism *)

Lemma choice_ext rnd1 rnd2 k x0 xs :
  rnd1 k = rnd2 k -> choice rnd1 k x0 xs = choice rnd2 k x0 xs.
Proof. unfold choice. by intros ->. Qed.

Lemma generate_loop_ext rnd1 rnd2 m :
  (forall k, rnd1 k = rnd2 k) ->
  forall fuel k g stack,
    generate_loop fuel rnd1 m k g stack = generate_loop fuel rnd2 m k g stack.
Proof.
  intros Hrnd. induction fuel as [|fuel IH]; intros k g stack; [done|].
  destruct stack as [|[cr cc] rest]; [done|].
  rewrite !generate_loop_unfold.
  destruct (unvisited_neighbors m g cr cc gen_directions) as [[|x0 xs]| |]; simpl; try done.
  rewrite (choice_ext rnd1 rnd2 k x0 xs (Hrnd k)).
  destruct (choice rnd2 k x0 xs) as [nr nc].
  destruct (grid_set g nr nc Path) as [g1| |]; simpl; try done.
  destruct (grid_set g1 _ _ Path) as [g2| |]; simpl; try done.
Qed.

Lemma generate_ext rnd1 rnd2 m :
  (forall k, rnd1 k = rnd2 k) -> generate rnd1 m = generate rnd2 m.
Proof.
  intros Hrnd. unfold generate. destruct (start m) as [sr sc].
  destruct (grid_set (grid m) sr sc Path) as [g0| |]; simpl; try done.
  by rewrite (generate_loop_ext rnd1 rnd2 m Hrnd).
Qed.



(** ** Rendering *)

Lemma cell_at_insert (g : list (list ascii)) (r c : nat) rw x :
  g !! r = Some rw -> (c < length rw)%nat ->
  forall q, cell_at (<[r := <[c := x]> rw]> g) q =
            if decide (q = (Z.of_nat r, Z.of_nat c)) then Some x else cell_at g q.
Proof.
  intros Hrw Hc [qr qc]. unfold cell_at. simpl.
  destruct (Z.leb_spec 0 qr), (Z.leb_spec 0 qc); simpl;
    try (case_decide; [simplify_eq; lia|done]).
  destruct (decide (Z.to_nat qr = r)) as [Heq|Hne].
  - rewrite Heq, list_lookup_insert_eq by (by eapply lookup_lt_Some).
    rewrite Hrw. simpl.
    destruct (decide (Z.to_nat qc = c)) as [Heqc|Hnec].
    + rewrite Heqc, list_lookup_insert_eq by lia.
      rewrite decide_True; [done|]. f_equal; lia.
    + rewrite list_lookup_insert_ne by done.
      rewrite decide_False; [done|]. intros [= -> ->]. lia.
  - rewrite list_lookup_insert_ne by done.
    rewrite decide_False; [done|]. intros [= -> ->]. lia.
Qed.

Lemma copy_rows_spec rows : forall s s' dg,
  copy_rows s rows = (s', dg) ->
  next s' = (next s + length rows)%nat /\
  dg = seq (next s) (length rows) /\
  (forall l, (l < next s)%nat -> cells s' l = cells s l) /\
  (forall (i : nat) l, rows !! i = Some l -> (l < next s)%nat ->
     cells s' (next s + i)%nat = cells s l).
Proof.
  induction rows as [|l0 rows IH]; intros s s' dg; simpl.
  - intros [= <- <-]. split; [lia|]. split; [done|]. split; [done|].
    intros i l Hi. done.
  - destruct (copy_rows _ rows) as [s2 ls] eqn:Hcopy.
    intros [= <- <-].
    destruct (IH _ _ _ Hcopy) as (Hnext & -> & Hframe & Hcopies). simpl in *.
    split; [lia|]. split; [done|].
    assert (Hframe' : forall l, (l < next s)%nat -> cells s2 l = cells s l).
    { intros l Hl. rewrite Hframe by lia. apply fn_lookup_insert_ne. lia. }
    split; [done|].
    intros [|i] l Hi Hl; simpl in Hi.
    + injection Hi as ->. rewrite Nat.add_0_r, Hframe by lia.
      apply fn_lookup_insert.
    + replace (next s + S i)%nat with (S (next s + i))%nat by lia.
      rewrite (Hcopies i l Hi) by lia. apply fn_lookup_insert_ne. lia.
Qed.

Lemma map_cells_update (s : store) (n k r : nat) rw :
  (r < k)%nat ->
  map (<[(n + r)%nat := rw]> (cells s)) (seq n k) = <[r := rw]> (map (cells s) (seq n k)).
Proof.
  intros Hr. apply list_eq. intros i.
  destruct (decide (i < k)%nat) as [Hi|Hi].
  - rewrite list_lookup_fmap, lookup_seq_lt by done. simpl.
    destruct (decide (i = r)) as [->|Hne].
    + rewrite list_lookup_insert_eq by (rewrite length_map, length_seq; lia).
      by rewrite fn_lookup_insert.
    + rewrite list_lookup_insert_ne by done.
      rewrite list_lookup_fmap, lookup_seq_lt by done. simpl.
      rewrite fn_lookup_insert_ne by lia. done.
  - rewrite !lookup_ge_None_2; try done.
    + rewrite length_insert, length_map, length_seq. lia.
    + rewrite length_map, length_seq. lia.
Qed.

Lemma overlay_spec h w n k st en path : forall s,
  wf_grid h w (map (cells s) (seq n k)) ->
  Forall (fun p : coord => 0 <= p.1 < h /\ 0 <= p.2 < w) path ->
  exists s',
    overlay s (seq n k) st en path = Ok s' /\
    (forall l, (l < n)%nat -> cells s' l = cells s l) /\
    wf_grid h w (map (cells s') (seq n k)) /\
    forall q, cell_at (map (cells s') (seq n k)) q =
              if decide (q ∈ path /\ q <> st /\ q <> en) then Some SolutionMark
              else cell_at (map (cells s) (seq n k)) q.
Proof.
  induction path as [|[r c] path IH]; intros s Hwf Hvalid; cbn [overlay].
  - exists s. split; [done|]. split; [done|]. split; [done|].
    intros q. case_decide as Hq; [|done].
    destruct Hq as [Hq _]. by apply elem_of_nil in Hq.
  - apply Forall_cons in Hvalid as [[Hr Hc] Hvalid]. simpl in Hr, Hc.
    assert (Hk : k = Z.to_nat h).
    { destruct Hwf as [Hlen _]. by rewrite length_map, length_seq in Hlen. }
    case_decide as Hmark.
    + destruct (py_get_nonneg (seq n k) r) as (l & -> & Hl); [rewrite length_seq; lia|].
      apply lookup_seq in Hl as [-> Hlt]. simpl.
      assert (Hrow : map (cells s) (seq n k) !! Z.to_nat r = Some (cells s (n + Z.to_nat r)%nat)).
      { rewrite list_lookup_fmap, lookup_seq_lt by done. done. }
      pose proof (wf_grid_row _ _ _ _ _ Hwf Hrow) as Hlen.
      rewrite py_set_nonneg by lia. simpl.
      set (s1 := {| cells := _; next := _ |}).
      assert (Hmap : map (cells s1) (seq n k) =
                     <[Z.to_nat r := <[Z.to_nat c := SolutionMark]> (cells s (n + Z.to_nat r)%nat)]>
                       (map (cells s) (seq n k))).
      { apply map_cells_update. lia. }
      destruct (IH s1) as (s' & -> & Hframe & Hwf' & Hcells); [|done|].
      { rewrite Hmap. destruct Hwf as [Hh Hall]. split; [by rewrite length_insert|].
        apply Forall_insert; [done|]. by rewrite length_insert. }
      exists s'. split; [done|]. split.
      { intros l Hl. rewrite Hframe by done. simpl. apply fn_lookup_insert_ne. lia. }
      split; [done|].
      intros q. rewrite Hcells, Hmap.
      rewrite (cell_at_insert _ _ _ _ _ Hrow) by lia.
      rewrite !Z2Nat.id by lia.
      destruct (decide (q = (r, c))) as [->|Hne].
      * rewrite (decide_True (P := (r, c) ∈ (r, c) :: path /\ _)); [|split; [left|done]].
        by case_decide.
      * case_decide as H1; case_decide as H2; try done.
        -- exfalso. apply H2. destruct H1 as [? ?]. split; [by right|done].
        -- exfalso. apply H1. destruct H2 as [[?|?]%elem_of_cons ?]; done.
    + destruct (IH s Hwf Hvalid) as (s' & -> & Hframe & Hwf' & Hcells).
      exists s'. split; [done|]. split; [done|]. split; [done|].
      intros q. rewrite Hcells.
      case_decide as H1; case_decide as H2; try done.
      * exfalso. apply H2. destruct H1 as [? ?]. split; [by right|done].
      * exfalso. apply H1. destruct H2 as [[->|?]%elem_of_cons ?]; done.
Qed.

Lemma print_rows_spec (s : store) (dg : list nat) (rs : list Z) :
  Forall (fun r => 0 <= r < Z.of_nat (length dg)) rs ->
  exists lines,
    print_rows s dg rs = Ok lines /\
    map list_ascii_of_string lines =
    map (fun r => cells s (default 0%nat (dg !! Z.to_nat r))) rs.
Proof.
  induction 1 as [|r rs Hr _ (lines & IH & Hlines)]; simpl.
  - by exists [].
  - destruct (py_get_nonneg dg r Hr) as (l & -> & Hl). simpl.
    rewrite IH. simpl. eexists; split; [done|]. simpl.
    by rewrite list_ascii_of_string_of_list_ascii, Hlines, Hl.
Qed.

Lemma print_rows_all (s : store) (dg : list nat) :
  exists lines,
    print_rows s dg (seqZ 0 (Z.of_nat (length dg))) = Ok lines /\
    map list_ascii_of_string lines = map (cells s) dg.
Proof.
  destruct (print_rows_spec s dg (seqZ 0 (Z.of_nat (length dg)))) as (lines & Hp & Hl).
  { apply Forall_forall. intros r Hr%elem_of_seqZ. lia. }
  exists lines. split; [done|]. rewrite Hl. apply list_eq. intros i.
  rewrite !list_lookup_fmap.
  destruct (decide (i < length dg)%nat) as [Hi|Hi].
  - rewrite lookup_seqZ_lt by lia. simpl.
    replace (Z.to_nat (0 + Z.of_nat i)) with i by lia.
    by destruct (lookup_lt_is_Some_2 dg i Hi) as [l ->].
  - rewrite lookup_seqZ_ge by lia. by rewrite lookup_ge_None_2 by lia.
Qed.

(** C8, as stated, fails: a negative coordinate in the path is an alias of
    a cell counted from the far edge, so the mark shows on a cell whose
    coordinate is not in the path. *)
Lemma display_negative_alias :
  ~ (forall s o path, wf_obj s o -> display_ok s o path).
Proof.
  intros H.
  destruct (H (load two_routes).1 (load two_routes).2 (Some [(-1, -1)]))
    as (s' & lines & Hd & _ & _ & _ & Hshown).
  { split; [repeat constructor|]. split; [reflexivity|repeat constructor]. }
  vm_compute in Hd. injection Hd as _ <-.
  destruct (Hshown (4, 4)) as (ch & Hch & Hs); [simpl; lia..|].
  vm_compute in Hch. injection Hch as <-.
  vm_compute in Hs. discriminate Hs.
Qed.

(** C8, amended: for every well-formed maze object and every path whose
    coordinates all lie inside the grid, [display] returns, leaves every
    existing row object (hence the maze's grid) unchanged, and prints the
    solution mark exactly on the path coordinates other than [start] and
    [end], and the grid's glyph on every other cell. *)
Theorem display_in_bounds (s : store) (o : MazeObj) (path : option (list coord)) :
  wf_obj s o ->
  Forall (fun p : coord => 0 <= p.1 < o_height o /\ 0 <= p.2 < o_width o)
         (default [] path) ->
  display_ok s o path.
Proof.
  intros [Hlocs Hwf] Hpath. unfold display_ok, display.
  destruct (copy_rows s (o_grid o)) as [s1 dg] eqn:Hcopy.
  destruct (copy_rows_spec _ _ _ _ Hcopy) as (Hnext & -> & Hframe1 & Hcopies).
  set (k := length (o_grid o)) in *.
  assert (Hdg : map (cells s1) (seq (next s) k) = grid_of s o).
  { apply list_eq. intros i. unfold grid_of. rewrite !list_lookup_fmap.
    destruct (o_grid o !! i) as [l|] eqn:Hl; simpl.
    - rewrite lookup_seq_lt by (by eapply lookup_lt_Some). simpl.
      rewrite (Hcopies i l Hl); [done|].
      rewrite Forall_forall in Hlocs. apply Hlocs. by eapply list_elem_of_lookup_2.
    - apply lookup_ge_None in Hl. by rewrite lookup_seq_ge. }
  assert (Hk : Z.of_nat k = Z.max 0 (o_height o) /\ k = Z.to_nat (o_height o)).
  { destruct Hwf as [Hlen _]. unfold grid_of in Hlen. rewrite length_map in Hlen.
    fold k in Hlen. lia. }
  assert (Hov : exists s2,
            match path with
            | Some (p :: ps) => overlay s1 (seq (next s) k) (o_start o) (o_end o) (p :: ps)
            | _ => Ok s1
            end = Ok s2 /\
            (forall l, (l < next s)%nat -> cells s2 l = cells s1 l) /\
            forall q, cell_at (map (cells s2) (seq (next s) k)) q =
              if decide (q ∈ default [] path /\ q <> o_start o /\ q <> o_end o)
              then Some SolutionMark else cell_at (grid_of s o) q).
  { assert (Hnone : forall q, cell_at (map (cells s1) (seq (next s) k)) q =
              if decide (q ∈ @nil coord /\ q <> o_start o /\ q <> o_end o)
              then Some SolutionMark else cell_at (grid_of s o) q).
    { intros q. rewrite Hdg. case_decide as Hq; [|done].
      destruct Hq as [Hq _]. by apply elem_of_nil in Hq. }
    destruct path as [[|p ps]|]; simpl in *; try (exists s1; done).
    destruct (overlay_spec (o_height o) (o_width o) (next s) k (o_start o) (o_end o)
                (p :: ps) s1) as (s2 & Hs2 & Hframe2 & _ & Hcells); [by rewrite Hdg|done|].
    exists s2. split; [done|]. split; [done|].
    intros q. by rewrite Hcells, Hdg. }
  destruct Hov as (s2 & -> & Hframe2 & Hcells). simpl.
  destruct (print_rows_all s2 (seq (next s) k)) as (lines & Hprint & Hlines).
  rewrite length_seq in Hprint.
  assert (seqZ 0 (o_height o) = seqZ 0 (Z.of_nat k)) as ->.
  { unfold seqZ. f_equal. f_equal. lia. }
  rewrite Hprint. simpl. exists s2, lines. split; [done|].
  assert (Hframe : forall l, (l < next s)%nat -> cells s2 l = cells s l).
  { intros l Hl. by rewrite Hframe2, Hframe1. }
  split; [done|]. split.
  { unfold grid_of. apply map_ext_in. intros l Hl. apply Hframe.
    rewrite Forall_forall in Hlocs. by apply Hlocs, list_elem_of_In. }
  split.
  { apply (f_equal length) in Hlines. rewrite !length_map, length_seq in Hlines. lia. }
  intros [r c] Hr Hc. simpl in Hr, Hc.
  destruct (cell_at_valid _ _ _ r c Hwf Hr Hc) as [ch Hch].
  exists ch. split; [done|]. unfold shown. rewrite Hlines, Hcells, Hch.
  by case_decide.
Qed.

Lemma display_in_bounds_witness :
  display_ok (load two_routes).1 (load two_routes).2
    (Some [(1, 1); (1, 2); (1, 3); (2, 3); (3, 3)]).
Proof.
  apply (display_in_bounds (load two_routes).1 (load two_routes).2
           (Some [(1, 1); (1, 2); (1, 3); (2, 3); (3, 3)])).
  - split; [repeat constructor|]. split; [reflexivity|repeat constructor].
  - simpl. repeat constructor; simpl; lia.
Defined.


(** ** Supporting facts *)

(** The inductive [simple_path] is the usual notion: a duplicate-free list
    of cells of [O] from [p] to [q] with adjacent consecutive elements. *)
Lemma simple_path_iff (O : coord -> Prop) (p q : coord) (l : list coord) :
  simple_path O p q l <->
  head l = Some p /\ last l = Some q /\ Forall O l /\ NoDup l /\
  forall (i : nat) a b, l !! i = Some a -> l !! S i = Some b -> adj a b.
Proof.
  split.
  - intros Hsp. split; [by destruct Hsp|]. split; [by eapply sp_last|].
    split; [by eapply sp_Forall|].
    induction Hsp as [p Hp|p p' q l Hp Hadj Hnin Hl [Hnd Hstep]].
    + split; [apply NoDup_singleton|]. by intros [|i] a b.
    + split; [by constructor|]. intros [|i] a b Ha Hb; simpl in *; [|eauto].
      injection Ha as <-. destruct Hl; simpl in *; congruence.
  - revert p. induction l as [|a l IH]; intros p (Hhd & Hlast & Hall & Hnd & Hstep);
      [done|].
    injection Hhd as ->.
    apply Forall_cons in Hall as [Hp Hall]. apply NoDup_cons in Hnd as [Hnin Hnd].
    destruct l as [|b l].
    + injection Hlast as ->. by constructor.
    + apply (sp_cons O p b q); [done|by apply (Hstep 0%nat)|done|].
      apply IH. repeat split; try done.
      intros i x y Hx Hy. by apply (Hstep (S i)).
Qed.

(** Writing a cell keeps the shape of the grid, whatever index is used. *)
Lemma grid_set_wf h w g r c x g' :
  wf_grid h w g -> grid_set g r c x = Ok g' -> wf_grid h w g'.
Proof.
  intros [Hlen Hall] Hset. unfold grid_set, py_get, py_set in Hset.
  destruct (py_index (length g) r) as [k|]; [|done].
  destruct (g !! k) as [rw|] eqn:Hrw; [|done]. simpl in Hset.
  destruct (py_index (length rw) c) as [k'|]; [|done]. simpl in Hset.
  injection Hset as <-. split; [by rewrite length_insert|].
  apply Forall_insert; [done|]. rewrite length_insert.
  rewrite Forall_forall in Hall. apply Hall. by eapply list_elem_of_lookup_2.
Qed.

Lemma generate_loop_wf rnd m fuel : forall k g stack g',
  wf_grid (height m) (width m) g ->
  generate_loop fuel rnd m k g stack = Ok g' ->
  wf_grid (height m) (width m) g'.
Proof.
  induction fuel as [|fuel IH]; intros k g stack g' Hwf; [done|].
  destruct stack as [|[cr cc] rest]; [by intros [= <-]|].
  rewrite generate_loop_unfold.
  destruct (unvisited_neighbors m g cr cc gen_directions) as [[|x0 xs]| |]; simpl;
    try done; [by apply IH|].
  destruct (choice rnd k x0 xs) as [nr nc].
  destruct (grid_set g nr nc Path) as [g1| |] eqn:Hg1; simpl; try done.
  destruct (grid_set g1 _ _ Path) as [g2| |] eqn:Hg2; simpl; try done.
  apply IH. eapply grid_set_wf; [|done]. by eapply grid_set_wf.
Qed.

(** Every grid state a maze object goes through is well formed: the
    constructor builds such a grid and [generate] keeps its shape. *)
Lemma generate_wf rnd m m' :
  wf_maze m -> generate rnd m = Ok m' -> wf_maze m'.
Proof.
  unfold wf_maze, generate. intros Hwf. destruct (start m) as [sr sc].
  destruct (grid_set (grid m) sr sc Path) as [g0| |] eqn:Hg0; simpl; try done.
  destruct (generate_loop _ rnd m 0 g0 _) as [g1| |] eqn:Hg1; simpl; try done.
  destruct (grid_set g1 _ _ StartMark) as [g2| |] eqn:Hg2; simpl; try done.
  destruct (grid_set g2 _ _ EndMark) as [g3| |] eqn:Hg3; simpl; try done.
  intros [= <-]. simpl.
  do 2 (eapply grid_set_wf; [|done]).
  eapply generate_loop_wf; [|done]. by eapply grid_set_wf.
Qed.

Lemma Maze_init_wf w0 h0 m : Maze_init w0 h0 = Ok m -> wf_maze m.
Proof. intros Hinit. by destruct (Maze_init_fresh _ _ _ Hinit). Qed.

(** ** Runs of the model *)

Example generate_5x5 :
  (m ← generated (fun _ => 0%nat) 5 5; Ok (map string_of_list_ascii (grid m))) =
  Ok ["#####"; "#S  #"; "### #"; "#  E#"; "#####"]%string.
Proof. vm_compute. reflexivity. Qed.

Example solve_5x5 :
  (m ← generated (fun _ => 0%nat) 5 5; solve m) =
  Ok (Some [(1, 1); (1, 2); (1, 3); (2, 3); (3, 3)]).
Proof. vm_compute. reflexivity. Qed.

Example generate_3x3 :
  (m ← generated (fun _ => 0%nat) 3 3; Ok (map string_of_list_ascii (grid m))) =
  Ok ["###"; "#E#"; "###"]%string.
Proof. vm_compute. reflexivity. Qed.

Example generate_1x3 : generated (fun _ => 0%nat) 1 3 = Raise IndexError.
Proof. vm_compute. reflexivity. Qed.

Example solve_before_generate :
  (m ← Maze_init 5 5; solve m) = Ok None.
Proof. vm_compute. reflexivity. Qed.

Example solve_two_routes :
  solve two_routes = Ok (Some [(1, 1); (1, 2); (1, 3); (2, 3); (3, 3)]).
Proof. vm_compute. reflexivity. Qed.

Example display_two_routes :
  (x ← display (load two_routes).1 (load two_routes).2
         (Some [(1, 1); (1, 2); (1, 3); (2, 3); (3, 3)]);
   Ok x.2) =
  Ok ["#####"; "#Soo#"; "# #o#"; "#  E#"; "#####"]%string.
Proof. vm_compute. reflexivity. Qed.

Example display_negative :
  (x ← display (load two_routes).1 (load two_routes).2 (Some [(-1, -1)]);
   Ok x.2) =
  Ok ["#####"; "#S  #"; "# # #"; "#  E#"; "####o"]%string.
Proof. vm_compute. reflexivity. Qed.

Example display_out_of_range :
  display (load two_routes).1 (load two_routes).2 (Some [(5, 5)]) = Raise IndexError.
Proof. vm_compute. reflexivity. Qed.



(** * Further properties of the solver *)

Lemma trail_reach m n p q l :
  reach m n p -> trail (grid m) p q l -> reach m (n + length l - 1) q.
Proof.
  intros Hr Ht. revert n Hr.
  induction Ht as [p|p p' q l Hadj Hop Hl IH]; intros n Hr; simpl.
  - by replace (n + 1 - 1)%nat with n by lia.
  - assert (0 < length l)%nat by (destruct Hl; simpl; lia).
    replace (n + S (length l) - 1)%nat with (S n + length l - 1)%nat by lia.
    apply IH. by econstructor.
Qed.

Lemma reach_trail m n q :
  reach m n q -> exists l, trail (grid m) (start m) q l /\ length l = S n.
Proof.
  induction 1 as [|n p q _ (l & Hl & Hlen) Hadj Hop].
  - exists [start m]. split; [constructor|done].
  - exists (l ++ [q]). split; [by eapply trail_snoc|].
    rewrite length_app. simpl. lia.
Qed.

Lemma trail_cells g p q l :
  trail g p q l -> forall x, x ∈ l -> x = p \/ open_cell g x.
Proof.
  induction 1 as [p|p p' q l Hadj Hop _ IH]; intros x Hx.
  - left. by apply list_elem_of_singleton in Hx.
  - apply elem_of_cons in Hx as [->|Hx]; [by left|].
    right. destruct (IH x Hx) as [->|?]; done.
Qed.

Lemma trail_suffix g p q l x :
  trail g p q l -> x ∈ l ->
  exists l', trail g x q l' /\ (length l' <= length l)%nat.
Proof.
  induction 1 as [p|p p' q l Hadj Hop Hl IH]; intros Hx.
  - apply list_elem_of_singleton in Hx as ->. exists [p]. split; [constructor|done].
  - apply elem_of_cons in Hx as [->|Hx].
    + exists (p :: l). split; [by econstructor|done].
    + destruct (IH Hx) as (l' & Hl' & Hlen). exists l'. split; [done|simpl; lia].
Qed.

Lemma trail_dup_shorter g p q l :
  trail g p q l -> ~ NoDup l ->
  exists l', trail g p q l' /\ (length l' < length l)%nat.
Proof.
  induction 1 as [p|p p' q l Hadj Hop Hl IH]; intros Hdup.
  - destruct Hdup. apply NoDup_singleton.
  - destruct (decide (p ∈ l)) as [Hin|Hnin].
    + destruct (trail_suffix _ _ _ _ _ Hl Hin) as (l' & Hl' & Hlen).
      exists l'. split; [done|simpl; lia].
    + destruct IH as (l' & Hl' & Hlen).
      { intros Hnd. apply Hdup. by constructor. }
      exists (p :: l'). split; [by econstructor|simpl; lia].
Qed.

Lemma solve_path_NoDup m path :
  wf_maze m -> solve m = Ok (Some path) -> NoDup path.
Proof.
  intros Hwf Hsolve. pose proof (solve_spec m Hwf) as Hspec.
  rewrite Hsolve in Hspec. destruct Hspec as [Htrail Hmin].
  destruct (decide (NoDup path)) as [|Hdup]; [done|].
  destruct (trail_dup_shorter _ _ _ _ Htrail Hdup) as (l' & Hl' & Hlen).
  pose proof (trail_reach m 0 _ _ _ (reach_O m) Hl') as Hr.
  apply Hmin in Hr. destruct Hl'; simpl in *; lia.
Qed.

Lemma trail_simple_path g p q l :
  open_cell g p -> trail g p q l -> NoDup l -> simple_path (open_cell g) p q l.
Proof.
  intros Hp Ht. induction Ht as [p|p p' q l Hadj Hop _ IH]; intros Hnd.
  - by constructor.
  - apply NoDup_cons in Hnd as [Hnin Hnd]. econstructor; eauto.
Qed.

(** X1: on a well-formed maze [solve] always returns: it never indexes the
    grid out of range, never misses a key of the parent map, and both of
    its loops end. *)
Theorem solve_returns (m : Maze) :
  wf_maze m -> exists r, solve m = Ok r.
Proof.
  intros Hwf. pose proof (solve_spec m Hwf) as Hspec.
  destruct (solve m) as [r| |]; [eauto|done..].
Qed.

Lemma solve_returns_witness : exists r, solve two_routes = Ok r.
Proof.
  apply (solve_returns two_routes).
  split; [reflexivity|repeat constructor].
Defined.

(** X2: [solve] returns no path exactly when no sequence of moves through
    open cells leads from [start] to [end]. *)
Theorem solve_none_iff (m : Maze) :
  wf_maze m ->
  solve m = Ok None <->
  ~ exists l, trail (grid m) (start m) (end_ m) l.
Proof.
  intros Hwf. pose proof (solve_spec m Hwf) as Hspec. split.
  - intros Hsolve (l & Hl). rewrite Hsolve in Hspec.
    apply (Hspec (0 + length l - 1)%nat).
    by apply (trail_reach m 0 (start m)); [constructor|].
  - intros Hno. destruct (solve m) as [[path|]| |]; try done.
    destruct Hno. exists path. apply Hspec.
Qed.

Lemma solve_none_iff_witness :
  solve two_routes = Ok None <->
  ~ exists l, trail (grid two_routes) (start two_routes) (end_ two_routes) l.
Proof.
  apply (solve_none_iff two_routes).
  split; [reflexivity|repeat constructor].
Defined.

(** X3: when [start] and [end] are the same coordinate, [solve] returns the
    one-cell path without reading the grid, whatever the grid holds. *)
Theorem solve_start_is_end (m : Maze) :
  start m = end_ m -> solve m = Ok (Some [start m]).
Proof.
  intros Heq. unfold solve, solve_fuel.
  rewrite Nat.add_comm. cbn [Nat.add bfs_loop queue parent_map].
  rewrite decide_True by done. cbn [mbind result_bind reconstruct].
  rewrite <- Heq, lookup_singleton_eq.
  by destruct (Z.to_nat (height m) * Z.to_nat (width m))%nat.
Qed.

Lemma solve_start_is_end_witness :
  solve (mkMaze 3 3 [] (1, 1) (1, 1)) = Ok (Some [(1, 1)]).
Proof. apply (solve_start_is_end (mkMaze 3 3 [] (1, 1) (1, 1))). reflexivity. Defined.

(** X4: a path returned by [solve] visits no cell twice, and every cell on
    it other than [start] is an open cell of the grid. *)
Theorem solve_no_repeat (m : Maze) (path : list coord) :
  wf_maze m -> solve m = Ok (Some path) ->
  NoDup path /\ forall x, x ∈ path -> x = start m \/ open_cell (grid m) x.
Proof.
  intros Hwf Hsolve. split; [by eapply solve_path_NoDup|].
  pose proof (solve_spec m Hwf) as Hspec.
  rewrite Hsolve in Hspec. destruct Hspec as [Htrail _].
  by eapply trail_cells.
Qed.

Lemma solve_no_repeat_witness :
  NoDup [(1, 1); (1, 2); (1, 3); (2, 3); (3, 3)] /\
  forall x, x ∈ [(1, 1); (1, 2); (1, 3); (2, 3); (3, 3)] ->
    x = start two_routes \/ open_cell (grid two_routes) x.
Proof.
  apply (solve_no_repeat two_routes).
  - split; [reflexivity|repeat constructor].
  - vm_compute. reflexivity.
Defined.

(** X5: when [end] differs from [start] and is a wall, or is not a cell of
    the grid at all, [solve] returns no path. *)
Theorem solve_closed_end (m : Maze) :
  wf_maze m -> start m <> end_ m -> ~ open_cell (grid m) (end_ m) ->
  solve m = Ok None.
Proof.
  intros Hwf Hne Hclosed. pose proof (solve_spec m Hwf) as Hspec.
  destruct (solve m) as [[path|]| |]; try done.
  destruct Hspec as [Hl _]. exfalso.
  assert (end_ m ∈ path) as Hin.
  { apply trail_last in Hl. apply last_Some in Hl as [l' ->].
    apply elem_of_app. right. left. }
  destruct (trail_cells _ _ _ _ Hl _ Hin) as [?|?]; by auto.
Qed.

Lemma solve_closed_end_witness :
  exists m, Maze_init 5 5 = Ok m /\ solve m = Ok None.
Proof.
  eexists. split; [reflexivity|].
  apply solve_closed_end.
  - split; [reflexivity|repeat constructor].
  - simpl. discriminate.
  - intros (ch & Hch & Hne). vm_compute in Hch. injection Hch as <-. by apply Hne.
Defined.


(** * Further properties of generation *)

Lemma cell_at_nat (g : list (list ascii)) (i j : nat) :
  cell_at g (Z.of_nat i, Z.of_nat j) = rw ← g !! i; rw !! j.
Proof.
  unfold cell_at. simpl.
  destruct (Z.leb_spec 0 (Z.of_nat i)), (Z.leb_spec 0 (Z.of_nat j)); try lia.
  simpl. by rewrite !Nat2Z.id.
Qed.

(** Two grids of the same shape with the same cells are the same grid. *)
Lemma grid_ext h w (g g' : list (list ascii)) :
  wf_grid h w g -> wf_grid h w g' ->
  (forall p, cell_at g p = cell_at g' p) -> g = g'.
Proof.
  intros Hwf Hwf' Hcells. apply list_eq. intros i.
  destruct (g !! i) as [rw|] eqn:Hrw.
  - destruct (lookup_lt_is_Some_2 g' i) as [rw' Hrw'].
    { apply lookup_lt_Some in Hrw. destruct Hwf, Hwf'. lia. }
    rewrite Hrw'. f_equal. apply list_eq. intros j.
    pose proof (Hcells (Z.of_nat i, Z.of_nat j)) as Hc.
    rewrite !cell_at_nat, Hrw, Hrw' in Hc. done.
  - symmetry. apply lookup_ge_None. apply lookup_ge_None in Hrw.
    destruct Hwf, Hwf'. lia.
Qed.

Lemma gen_inv_junction_open m g r c :
  gen_inv m g [] -> is_valid m r c = true ->
  r mod 2 = 1 -> c mod 2 = 1 -> open_cell g (r, c).
Proof.
  intros Hinv Hv Hr Hc. apply is_valid_spec in Hv as Hv'.
  pose proof (gen_inv_all_junctions m g Hinv
                (Z.to_nat ((r - 1) / 2)) (Z.to_nat ((c - 1) / 2))) as Hj.
  replace (1 + 2 * Z.of_nat (Z.to_nat ((r - 1) / 2))) with r in Hj by zlia.
  replace (1 + 2 * Z.of_nat (Z.to_nat ((c - 1) / 2))) with c in Hj by zlia.
  by apply Hj.
Qed.

(** X6: [generate] only rewrites cell contents: when it returns, the grid
    still has [height] rows of [width] cells and the dimensions, [start]
    and [end] are the ones it was called with. *)
Theorem generate_keeps_shape (rnd : nat -> nat) (m m' : Maze) :
  wf_maze m -> generate rnd m = Ok m' ->
  wf_maze m' /\ width m' = width m /\ height m' = height m /\
  start m' = start m /\ end_ m' = end_ m.
Proof.
  intros Hwf Hgen. split; [by eapply generate_wf|].
  unfold generate in Hgen. destruct (start m) as [sr sc] eqn:Hs.
  destruct (grid_set (grid m) sr sc Path) as [g0| |]; simpl in Hgen; try done.
  destruct (generate_loop _ rnd m 0 g0 _) as [g1| |]; simpl in Hgen; try done.
  destruct (grid_set g1 _ _ StartMark) as [g2| |]; simpl in Hgen; try done.
  destruct (grid_set g2 _ _ EndMark) as [g3| |]; simpl in Hgen; try done.
  injection Hgen as <-. simpl. by rewrite Hs.
Qed.

Lemma generate_keeps_shape_witness :
  exists m m', Maze_init 5 7 = Ok m /\ generate (fun k => k) m = Ok m' /\
    wf_maze m' /\ width m' = width m /\ height m' = height m /\
    start m' = start m /\ end_ m' = end_ m.
Proof.
  eexists _, _. split; [reflexivity|]. split; [vm_compute; reflexivity|].
  apply (generate_keeps_shape (fun k => k)).
  - split; [reflexivity|repeat constructor].
  - vm_compute. reflexivity.
Defined.

(** X7: generation carves every junction: after [generate] every cell of
    the grid whose row and column are both odd is open. *)
Theorem generate_all_junctions (rnd : nat -> nat) (w0 h0 : Z) :
  2 <= w0 -> 2 <= h0 ->
  exists m', generated rnd w0 h0 = Ok m' /\
    forall r c, 0 <= r < height m' -> 0 <= c < width m' ->
      r mod 2 = 1 -> c mod 2 = 1 -> open_cell (grid m') (r, c).
Proof.
  intros Hw Hh.
  destruct (generated_spec rnd w0 h0) as
    (m & g1 & g3 & _ & Hgen & _ & _ & Hs & He & Hinv & Hwf3 & Hend & Hset); [lia..|].
  pose proof (generated_open m g1 g3 Hinv Hs Hend Hset) as Hop.
  exists (with_grid m g3). split; [done|]. simpl.
  intros r c Hr Hc Hro Hco. apply Hop.
  apply (gen_inv_junction_open m); try done. by apply is_valid_spec.
Qed.

Lemma generate_all_junctions_witness :
  exists m', generated (fun k => k) 7 5 = Ok m' /\
    forall r c, 0 <= r < height m' -> 0 <= c < width m' ->
      r mod 2 = 1 -> c mod 2 = 1 -> open_cell (grid m') (r, c).
Proof. apply (generate_all_junctions (fun k => k) 7 5); lia. Defined.

(** X8: the generated maze is walled in: after [generate] every cell on
    the first or last row or column, and every cell whose row and column
    are both even, is a wall. *)
Theorem generate_walls (rnd : nat -> nat) (w0 h0 : Z) :
  2 <= w0 -> 2 <= h0 ->
  exists m', generated rnd w0 h0 = Ok m' /\
    forall r c, 0 <= r < height m' -> 0 <= c < width m' ->
      r = 0 \/ r = height m' - 1 \/ c = 0 \/ c = width m' - 1 \/
      (r mod 2 = 0 /\ c mod 2 = 0) ->
      cell_at (grid m') (r, c) = Some Wall.
Proof.
  intros Hw Hh.
  destruct (generated_spec rnd w0 h0) as
    (m & g1 & g3 & Hinit & Hgen & Hw3 & Hh3 & Hs & He & Hinv & Hwf3 & Hend & Hset); [lia..|].
  pose proof (generated_open m g1 g3 Hinv Hs Hend Hset) as Hop.
  destruct (Maze_init_fresh _ _ _ Hinit) as (_ & _ & _ & _ & Hwm & Hhm).
  pose proof (normalize_odd w0) as Hwodd. pose proof (normalize_odd h0) as Hhodd.
  rewrite <- Hwm in Hwodd. rewrite <- Hhm in Hhodd.
  exists (with_grid m g3). split; [done|]. simpl.
  intros r c Hr Hc Hpos.
  destruct (cell_at_valid _ _ g3 r c Hwf3 Hr Hc) as [ch Hch]. rewrite Hch. f_equal.
  destruct (decide (ch = Wall)) as [|Hne]; [done|]. exfalso.
  assert (Hopen : open_cell g1 (r, c)) by (apply Hop; by exists ch).
  pose proof (gi_wf _ _ _ Hinv) as Hwf1.
  assert (Hout : forall q, open_cell g1 q -> 0 <= q.1 < height m /\ 0 <= q.2 < width m).
  { intros q (ch' & Hq & _). by eapply cell_at_inv. }
  destruct (gi_lattice _ _ _ Hinv _ Hopen) as [[? ?]|[(?&?&Ha&Hb)|(?&?&Ha&Hb)]];
    simpl in *; [zlia|apply Hout in Ha, Hb; simpl in *; zlia..].
Qed.

Lemma generate_walls_witness :
  exists m', generated (fun k => k) 7 5 = Ok m' /\
    forall r c, 0 <= r < height m' -> 0 <= c < width m' ->
      r = 0 \/ r = height m' - 1 \/ c = 0 \/ c = width m' - 1 \/
      (r mod 2 = 0 /\ c mod 2 = 0) ->
      cell_at (grid m') (r, c) = Some Wall.
Proof. apply (generate_walls (fun k => k) 7 5); lia. Defined.

(** X9: after [generate] the grid holds only the four glyphs ['#'], [' '],
    ['S'] and ['E']; in particular no solution mark. *)
Theorem generate_alphabet (rnd : nat -> nat) (w0 h0 : Z) :
  2 <= w0 -> 2 <= h0 ->
  exists m', generated rnd w0 h0 = Ok m' /\
    forall p ch, cell_at (grid m') p = Some ch ->
      ch = Wall \/ ch = Path \/ ch = StartMark \/ ch = EndMark.
Proof.
  intros Hw Hh.
  destruct (generated_spec rnd w0 h0) as
    (m & g1 & g3 & _ & Hgen & _ & _ & Hs & He & Hinv & Hwf3 & Hend & Hset); [lia..|].
  exists (with_grid m g3). split; [done|]. simpl.
  intros p ch. rewrite Hset. repeat case_decide.
  - intros [= <-]. auto.
  - intros [= <-]. auto.
  - intros Hc. destruct (gi_chars _ _ _ Hinv _ _ Hc); auto.
Qed.

Lemma generate_alphabet_witness :
  exists m', generated (fun k => k) 7 5 = Ok m' /\
    forall p ch, cell_at (grid m') p = Some ch ->
      ch = Wall \/ ch = Path \/ ch = StartMark \/ ch = EndMark.
Proof. apply (generate_alphabet (fun k => k) 7 5); lia. Defined.

(** X10: calling [generate] again on a generated maze changes nothing,
    whatever the random source: every junction is already carved, so the
    loop pops [start] at once and the markers are written back. *)
Theorem generate_twice (rnd : nat -> nat) (w0 h0 : Z) :
  2 <= w0 -> 2 <= h0 ->
  exists m', generated rnd w0 h0 = Ok m' /\
    forall rnd', generate rnd' m' = Ok m'.
Proof.
  intros Hw Hh.
  destruct (generated_spec rnd w0 h0) as
    (m & g1 & g3 & _ & Hgen & Hw3 & Hh3 & Hs & He & Hinv & Hwf3 & Hend & Hset); [lia..|].
  pose proof (generated_open m g1 g3 Hinv Hs Hend Hset) as Hop.
  exists (with_grid m g3). split; [done|]. intros rnd'.
  set (m' := with_grid m g3).
  unfold generate. change (start m') with (start m). change (end_ m') with (end_ m).
  rewrite Hs, He. change (grid m') with g3. simpl.
  destruct (grid_set_valid _ _ g3 1 1 Path Hwf3) as (ga & -> & Hwfa & Hseta); [lia..|].
  simpl.
  assert (Hloop : generate_loop (gen_fuel m') rnd' m' 0 ga [(1, 1)] = Ok ga).
  { unfold gen_fuel. rewrite Nat.add_comm. cbn [Nat.add].
    rewrite generate_loop_unfold.
    destruct (unvisited_neighbors_spec m' ga 1 1 gen_directions Hwfa) as (l & -> & Hl).
    destruct l as [|x0 xs]; [done|]. exfalso.
    destruct (proj1 (Hl x0)) as (d & Hd & -> & Hv & Hwall); [left|].
    simpl in Hv. rewrite Hseta in Hwall.
    assert (Hv' := Hv). apply is_valid_spec in Hv'.
    assert (open_cell g3 (1 + d.1, 1 + d.2)) as (ch & Hch & Hne).
    { apply Hop. apply (gen_inv_junction_open m); [done|done|..];
        apply gen_directions_cases in Hd as [->|[->|[->| ->]]]; simpl; zlia. }
    rewrite decide_False in Hwall; [congruence|].
    apply gen_directions_cases in Hd as [->|[->|[->| ->]]]; simpl; intros [= ]. }
  rewrite Hloop. simpl.
  destruct (grid_set_valid _ _ ga 1 1 StartMark Hwfa) as (gb & -> & Hwfb & Hsetb); [lia..|].
  simpl.
  destruct (grid_set_valid _ _ gb (height m - 2) (width m - 2) EndMark Hwfb)
    as (gc & -> & Hwfc & Hsetc); [lia..|].
  simpl. unfold m', with_grid. simpl. do 2 f_equal; [|done..].
  apply (grid_ext (height m) (width m)); [done..|].
  intros q. rewrite Hsetc, Hsetb, Hseta, Hset, He, Hs.
  by repeat case_decide.
Qed.

Lemma generate_twice_witness :
  exists m', generated (fun k => k) 7 5 = Ok m' /\
    forall rnd', generate rnd' m' = Ok m'.
Proof. apply (generate_twice (fun k => k) 7 5); lia. Defined.


(** * Further properties of rendering *)

Lemma py_get_index {A} (l : list A) i :
  py_get l i = match py_index (length l) i with
               | Some k => match l !! k with Some x => Ok x | None => Raise IndexError end
               | None => Raise IndexError
               end.
Proof. done. Qed.

(** The store-level overlay loop simulates the value-level one. *)
Lemma overlay_sim n k st en path : forall s,
  match overlay_v (map (cells s) (seq n k)) st en path with
  | Ok g' => exists s', overlay s (seq n k) st en path = Ok s' /\
               map (cells s') (seq n k) = g' /\
               (forall l, (l < n)%nat -> cells s' l = cells s l) /\
               next s' = next s
  | Raise e => overlay s (seq n k) st en path = Raise e
  | OutOfFuel => False
  end.
Proof.
  induction path as [|[r c] path IH]; intros s; cbn [overlay overlay_v].
  - exists s. done.
  - case_decide as Hmark; [|apply IH].
    unfold grid_set. rewrite !py_get_index, length_map, length_seq.
    destruct (py_index k r) as [i|] eqn:Hi; [|by cbn].
    apply py_index_lt in Hi as Hlt.
    rewrite list_lookup_fmap, lookup_seq_lt by done.
    cbn [fmap option_fmap option_map mbind result_bind].
    unfold py_set. rewrite length_map, length_seq, Hi.
    destruct (py_index (length (cells s (n + i)%nat)) c) as [j|] eqn:Hj; [|by cbn].
    cbn [mbind result_bind].
    set (rw' := <[j := SolutionMark]> (cells s (n + i)%nat)).
    set (s1 := {| cells := <[(n + i)%nat := rw']> (cells s); next := next s |}).
    rewrite <- (map_cells_update s n k i rw' Hlt).
    change (<[(n + i)%nat := rw']> (cells s)) with (cells s1).
    specialize (IH s1).
    destruct (overlay_v (map (cells s1) (seq n k)) st en path) as [g'|e|]; [|done..].
    destruct IH as (s' & Hov & Hmap & Hframe & Hnext).
    exists s'. split; [done|]. split; [done|]. split; [|done].
    intros l Hl. rewrite Hframe by done. simpl. apply fn_lookup_insert_ne. lia.
Qed.

Lemma print_rows_sim s n k rs :
  print_rows s (seq n k) rs = print_rows_v (map (cells s) (seq n k)) rs.
Proof.
  induction rs as [|r rs IH]; [done|]. cbn [print_rows print_rows_v].
  rewrite !py_get_index, length_map, length_seq.
  destruct (py_index k r) as [i|] eqn:Hi; [|done].
  apply py_index_lt in Hi as Hlt.
  rewrite list_lookup_fmap, lookup_seq_lt by done. simpl. by rewrite IH.
Qed.

Lemma copy_rows_value s o s1 dg :
  Forall (fun l => (l < next s)%nat) (o_grid o) ->
  copy_rows s (o_grid o) = (s1, dg) ->
  dg = seq (next s) (length (o_grid o)) /\
  map (cells s1) dg = grid_of s o /\
  (forall l, (l < next s)%nat -> cells s1 l = cells s l) /\
  next s1 = (next s + length (o_grid o))%nat.
Proof.
  intros Hlocs Hcopy.
  destruct (copy_rows_spec _ _ _ _ Hcopy) as (Hnext & -> & Hframe & Hcopies).
  split; [done|]. split; [|done].
  apply list_eq. intros i. unfold grid_of. rewrite !list_lookup_fmap.
  destruct (o_grid o !! i) as [l|] eqn:Hl; simpl.
  - rewrite lookup_seq_lt by (by eapply lookup_lt_Some). simpl.
    rewrite (Hcopies i l Hl); [done|].
    rewrite Forall_forall in Hlocs. apply Hlocs. by eapply list_elem_of_lookup_2.
  - apply lookup_ge_None in Hl. by rewrite lookup_seq_ge.
Qed.

Lemma print_rows_v_no_fuel g rs : print_rows_v g rs <> OutOfFuel.
Proof.
  induction rs as [|r rs IH]; [done|]. simpl.
  unfold py_get. destruct (py_index _ r) as [i|]; [|done].
  destruct (g !! i); [|done]. simpl.
  by destruct (print_rows_v g rs).
Qed.

(** [display] prints what [render] computes on the maze value, raises
    what it raises, and leaves the objects of the store alone. *)
Lemma display_sim s o path :
  Forall (fun l => (l < next s)%nat) (o_grid o) ->
  match render (maze_of s o) path with
  | Ok lines => exists s', display s o path = Ok (s', lines) /\
                  (forall l, (l < next s)%nat -> cells s' l = cells s l) /\
                  (next s <= next s')%nat
  | Raise e => display s o path = Raise e
  | OutOfFuel => False
  end.
Proof.
  intros Hlocs. unfold render, display, maze_of. cbn [grid height start end_].
  destruct (copy_rows s (o_grid o)) as [s1 dg] eqn:Hcopy.
  destruct (copy_rows_value _ _ _ _ Hlocs Hcopy) as (-> & Hmap & Hframe1 & Hnext1).
  set (k := length (o_grid o)) in *.
  assert (Hprint : forall s2,
            (forall l, (l < next s)%nat -> cells s2 l = cells s l) ->
            (next s <= next s2)%nat ->
            match print_rows_v (map (cells s2) (seq (next s) k)) (seqZ 0 (o_height o)) with
            | Ok lines =>
                exists s', (lines0 ← print_rows s2 (seq (next s) k) (seqZ 0 (o_height o));
                            Ok (s2, lines0)) = Ok (s', lines) /\
                  (forall l, (l < next s)%nat -> cells s' l = cells s l) /\
                  (next s <= next s')%nat
            | Raise e => (lines0 ← print_rows s2 (seq (next s) k) (seqZ 0 (o_height o));
                          Ok (s2, lines0)) = Raise e
            | OutOfFuel => False
            end).
  { intros s2 Hf Hn. rewrite print_rows_sim.
    destruct (print_rows_v _ _) as [lines|e|] eqn:Hp; simpl; [eauto|done|].
    by apply print_rows_v_no_fuel in Hp. }
  destruct path as [[|p ps]|].
  - rewrite <- Hmap. apply Hprint; [done|lia].
  - pose proof (overlay_sim (next s) k (o_start o) (o_end o) (p :: ps) s1) as Hov.
    rewrite Hmap in Hov.
    destruct (overlay_v (grid_of s o) (o_start o) (o_end o) (p :: ps)) as [g'|e|];
      [|by rewrite Hov|done].
    destruct Hov as (s2 & -> & <- & Hframe2 & Hnext2).
    cbn [mbind result_bind]. apply Hprint; [|lia].
    intros l Hl. by rewrite Hframe2, Hframe1.
  - rewrite <- Hmap. apply Hprint; [done|lia].
Qed.

Lemma py_index_wrap n i :
  - Z.of_nat n <= i < Z.of_nat n ->
  py_index n i = Some (Z.to_nat (i mod Z.of_nat n)).
Proof.
  intros Hi. unfold py_index.
  destruct (Z.leb_spec 0 i), (Z.ltb_spec i (Z.of_nat n)); simpl; try lia.
  - by rewrite Z.mod_small by lia.
  - destruct (Z.leb_spec (- Z.of_nat n) i), (Z.ltb_spec i 0); simpl; try lia.
    do 2 f_equal. apply Z.mod_unique with (q := -1); lia.
Qed.

Lemma py_index_far n i :
  i < - Z.of_nat n \/ Z.of_nat n <= i -> py_index n i = None.
Proof.
  intros Hi. unfold py_index.
  destruct (Z.leb_spec 0 i), (Z.ltb_spec i (Z.of_nat n)); simpl; try lia;
    destruct (Z.leb_spec (- Z.of_nat n) i), (Z.ltb_spec i 0); simpl; auto; lia.
Qed.

Lemma py_index_wrap_eq n i :
  - Z.of_nat n <= i < Z.of_nat n ->
  py_index n (i mod Z.of_nat n) = py_index n i.
Proof.
  intros Hi. rewrite (py_index_wrap n i Hi).
  apply py_index_nonneg. apply Z.mod_pos_bound. lia.
Qed.

(** A write through a negative index lands on the cell counted from the
    far edge. *)
Lemma grid_set_wrap h w g r c x :
  wf_grid h w g -> - h <= r < h -> - w <= c < w ->
  exists g', grid_set g r c x = Ok g' /\ wf_grid h w g' /\
    forall q, cell_at g' q = if decide (q = wrap (r, c) h w) then Some x else cell_at g q.
Proof.
  intros Hwf Hr Hc.
  assert (grid_set g (r mod h) (c mod w) x = grid_set g r c x) as <-.
  { destruct Hwf as [Hlen Hall]. unfold grid_set, py_get, py_set.
    assert (h = Z.of_nat (length g)) as Hh by lia. rewrite Hh.
    rewrite py_index_wrap_eq by lia.
    destruct (py_index (length g) r) as [k|]; [|done].
    destruct (g !! k) as [rw|] eqn:Hrw; [|done].
    cbn [mbind result_bind].
    rewrite Forall_forall in Hall.
    assert (length rw = Z.to_nat w) as Hlrw by (by eapply Hall, list_elem_of_lookup_2).
    assert (w = Z.of_nat (length rw)) as Hw by lia. rewrite Hw.
    by rewrite py_index_wrap_eq by lia. }
  apply (grid_set_valid h w); [done|apply Z.mod_pos_bound; lia..].
Qed.

Lemma grid_set_far h w g r c x :
  wf_grid h w g -> r < - h \/ h <= r \/ c < - w \/ w <= c ->
  grid_set g r c x = Raise IndexError.
Proof.
  intros [Hlen Hall] Hfar. unfold grid_set, py_get.
  destruct (py_index (length g) r) as [k|] eqn:Hk; [|done].
  destruct (g !! k) as [rw|] eqn:Hrw; [|done]. cbn [mbind result_bind].
  rewrite Forall_forall in Hall.
  assert (length rw = Z.to_nat w) as Hlrw by (by eapply Hall, list_elem_of_lookup_2).
  unfold py_set. rewrite (py_index_far (length rw) c); [done|].
  destruct (decide (r < - h \/ h <= r)) as [Hr|Hr]; [|lia].
  rewrite py_index_far in Hk by lia. done.
Qed.

Lemma grid_set_raise g r c x e : grid_set g r c x = Raise e -> e = IndexError.
Proof.
  unfold grid_set, py_get, py_set.
  destruct (py_index (length g) r) as [k|]; [|by intros [= <-]].
  destruct (g !! k) as [rw|]; [|by intros [= <-]]. cbn [mbind result_bind].
  destruct (py_index (length rw) c); [|by intros [= <-]]. done.
Qed.

Lemma grid_set_no_fuel g r c x : grid_set g r c x <> OutOfFuel.
Proof.
  unfold grid_set, py_get, py_set.
  destruct (py_index (length g) r) as [k|]; [|done].
  destruct (g !! k) as [rw|]; [|done]. cbn [mbind result_bind].
  by destruct (py_index (length rw) c).
Qed.

(** The marked coordinates of a path. *)
Lemma overlay_v_spec h w st en path : forall g,
  wf_grid h w g ->
  Forall (fun p : coord => - h <= p.1 < h /\ - w <= p.2 < w) path ->
  exists g', overlay_v g st en path = Ok g' /\ wf_grid h w g' /\
    forall q, cell_at g' q =
      if decide (Exists (fun p => p <> st /\ p <> en /\ q = wrap p h w) path)
      then Some SolutionMark else cell_at g q.
Proof.
  induction path as [|[r c] path IH]; intros g Hwf Hrange; cbn [overlay_v].
  - exists g. split; [done|]. split; [done|]. intros q.
    rewrite decide_False; [done|]. by intros ?%Exists_nil.
  - apply Forall_cons in Hrange as [[Hr Hc] Hrange]. simpl in Hr, Hc.
    case_decide as Hmark.
    + destruct (grid_set_wrap h w g r c SolutionMark Hwf Hr Hc) as (g1 & -> & Hwf1 & Hset1).
      cbn [mbind result_bind].
      destruct (IH g1 Hwf1 Hrange) as (g' & -> & Hwf' & Hcells).
      exists g'. split; [done|]. split; [done|].
      intros q. rewrite Hcells, Hset1.
      destruct (decide (q = wrap (r, c) h w)) as [Hq|Hq].
      * rewrite (decide_True (P := Exists _ (_ :: _))); [by case_decide|].
        apply Exists_cons. left. tauto.
      * repeat case_decide; try done.
        -- exfalso. rename select (¬ Exists _ (_ :: _)) into Hn. apply Hn. by right.
        -- exfalso. rename select (Exists _ (_ :: _)) into Hy.
           apply Exists_cons in Hy as [(_ & _ & ?)|?]; done.
    + destruct (IH g Hwf Hrange) as (g' & -> & Hwf' & Hcells).
      exists g'. split; [done|]. split; [done|].
      intros q. rewrite Hcells.
      repeat case_decide; try done.
      * exfalso. rename select (¬ Exists _ (_ :: _)) into Hn. apply Hn. by right.
      * exfalso. rename select (Exists _ (_ :: _)) into Hy.
        apply Exists_cons in Hy as [(? & ? & _)|?]; [|done]. by apply Hmark.
Qed.

Lemma overlay_v_wf h w st en path : forall g g',
  wf_grid h w g -> overlay_v g st en path = Ok g' -> wf_grid h w g'.
Proof.
  induction path as [|[r c] path IH]; intros g g' Hwf; cbn [overlay_v].
  - by intros [= <-].
  - case_decide; [|by apply IH].
    destruct (grid_set g r c SolutionMark) as [g1| |] eqn:Hg1; [|done..].
    cbn [mbind result_bind]. apply IH. by eapply grid_set_wf.
Qed.

Lemma overlay_v_far h w st en path p : forall g,
  wf_grid h w g ->
  p ∈ path -> p <> st -> p <> en ->
  p.1 < - h \/ h <= p.1 \/ p.2 < - w \/ w <= p.2 ->
  overlay_v g st en path = Raise IndexError.
Proof.
  intros g Hwf Hin Hst Hen Hfar. revert g Hwf.
  induction path as [|[r c] path IH]; intros g Hwf; [by apply elem_of_nil in Hin|].
  cbn [overlay_v]. apply elem_of_cons in Hin as [->|Hin].
  - rewrite decide_True by done. simpl in Hfar.
    by rewrite (grid_set_far h w).
  - case_decide; [|by apply IH].
    destruct (grid_set g r c SolutionMark) as [g1|e|] eqn:Hg1; cbn [mbind result_bind].
    + apply IH; [done|]. by eapply grid_set_wf.
    + by apply grid_set_raise in Hg1 as ->.
    + by apply grid_set_no_fuel in Hg1.
Qed.

Lemma print_rows_v_valid (g : list (list ascii)) (rs : list Z) :
  Forall (fun r => 0 <= r < Z.of_nat (length g)) rs ->
  print_rows_v g rs =
  Ok (map (fun r => string_of_list_ascii (default [] (g !! Z.to_nat r))) rs).
Proof.
  induction 1 as [|r rs Hr _ IH]; [done|]. simpl.
  destruct (py_get_nonneg g r Hr) as (rw & -> & Hrw). simpl.
  by rewrite IH, Hrw.
Qed.

Lemma print_rows_v_all h w (g : list (list ascii)) :
  wf_grid h w g ->
  print_rows_v g (seqZ 0 h) = Ok (map string_of_list_ascii g).
Proof.
  intros [Hlen _]. rewrite print_rows_v_valid.
  - f_equal. apply list_eq. intros i. rewrite !list_lookup_fmap.
    destruct (decide (i < length g)%nat) as [Hi|Hi].
    + rewrite lookup_seqZ_lt by lia. simpl.
      replace (Z.to_nat (0 + Z.of_nat i)) with i by lia.
      by destruct (lookup_lt_is_Some_2 g i Hi) as [rw ->].
    + rewrite lookup_seqZ_ge by lia. by rewrite lookup_ge_None_2 by lia.
  - apply Forall_forall. intros r Hr%elem_of_seqZ. lia.
Qed.

Lemma load_grid m : grid_of (load m).1 (load m).2 = grid m.
Proof.
  unfold grid_of, load. simpl. apply list_eq. intros i.
  rewrite list_lookup_fmap.
  destruct (grid m !! i) as [rw|] eqn:Hrw.
  - rewrite lookup_seq_lt by (by eapply lookup_lt_Some). simpl. by rewrite Hrw.
  - apply lookup_ge_None in Hrw. by rewrite lookup_seq_ge.
Qed.

Lemma load_wf m : wf_maze m -> wf_obj (load m).1 (load m).2.
Proof.
  intros Hwf. split.
  - simpl. apply Forall_forall. intros l Hl%elem_of_seq. lia.
  - by rewrite load_grid.
Qed.

Lemma map_list_ascii_of_string (g : list (list ascii)) :
  map list_ascii_of_string (map string_of_list_ascii g) = g.
Proof.
  rewrite map_map. induction g as [|rw g IH]; [done|]. simpl.
  by rewrite list_ascii_of_string_of_list_ascii, IH.
Qed.

(** What [display] does for a path whose coordinates are valid Python
    indices, negative ones included. *)
Lemma display_core s o path :
  wf_obj s o ->
  Forall (fun p : coord => - o_height o <= p.1 < o_height o /\
                           - o_width o <= p.2 < o_width o) (default [] path) ->
  exists s' g',
    display s o path = Ok (s', map string_of_list_ascii g') /\
    (forall l, (l < next s)%nat -> cells s' l = cells s l) /\
    wf_grid (o_height o) (o_width o) g' /\
    forall q, cell_at g' q =
      if decide (Exists (fun p => p <> o_start o /\ p <> o_end o /\
                                  q = wrap p (o_height o) (o_width o))
                        (default [] path))
      then Some SolutionMark else cell_at (grid_of s o) q.
Proof.
  intros [Hlocs Hwf] Hrange.
  pose proof (display_sim s o path Hlocs) as Hsim.
  destruct (overlay_v_spec (o_height o) (o_width o) (o_start o) (o_end o)
              (default [] path) (grid_of s o) Hwf Hrange) as (g' & Hov & Hwf' & Hcells).
  assert (render (maze_of s o) path = Ok (map string_of_list_ascii g')) as Hrender.
  { unfold render, maze_of. cbn [grid height start end_].
    assert ((match path with
             | Some (p :: ps) => overlay_v (grid_of s o) (o_start o) (o_end o) (p :: ps)
             | _ => Ok (grid_of s o)
             end) = Ok g') as ->.
    { destruct path as [[|p ps]|]; simpl in Hov; done. }
    cbn [mbind result_bind]. by eapply print_rows_v_all. }
  rewrite Hrender in Hsim. destruct Hsim as (s' & Hd & Hframe & _).
  exists s', g'. done.
Qed.

(** X11: [display] never changes an existing row object, whatever the
    path: when it returns, the maze's grid is what it was. *)
Theorem display_frame (s s' : store) (o : MazeObj) (path : option (list coord))
    (lines : list string) :
  Forall (fun l => (l < next s)%nat) (o_grid o) ->
  display s o path = Ok (s', lines) ->
  (forall l, (l < next s)%nat -> cells s' l = cells s l) /\
  grid_of s' o = grid_of s o.
Proof.
  intros Hlocs Hd. pose proof (display_sim s o path Hlocs) as Hsim.
  destruct (render (maze_of s o) path) as [lines'|e|]; [|congruence|done].
  destruct Hsim as (s'' & Hd' & Hframe & _).
  assert (s'' = s') as -> by congruence.
  split; [done|]. unfold grid_of. apply map_ext_in. intros l Hl. apply Hframe.
  rewrite Forall_forall in Hlocs. by apply Hlocs, list_elem_of_In.
Qed.

Lemma display_frame_witness :
  exists s' lines,
    display (load two_routes).1 (load two_routes).2 (Some [(-1, -1)]) = Ok (s', lines) /\
    (forall l, (l < next (load two_routes).1)%nat ->
       cells s' l = cells (load two_routes).1 l) /\
    grid_of s' (load two_routes).2 = grid_of (load two_routes).1 (load two_routes).2.
Proof.
  destruct (display (load two_routes).1 (load two_routes).2 (Some [(-1, -1)]))
    as [[s' lines]| |] eqn:Hd; [|vm_compute in Hd; discriminate Hd..].
  exists s', lines. split; [reflexivity|].
  apply (display_frame _ _ _ (Some [(-1, -1)]) lines); [repeat constructor|exact Hd].
Defined.

(** X12: the text [display] prints, and the error it raises, depend only
    on the maze value (dimensions, markers' coordinates and cell contents)
    and the path: they are those of [render], computed without a store. *)
Theorem display_prints_render (s : store) (o : MazeObj) (path : option (list coord)) :
  Forall (fun l => (l < next s)%nat) (o_grid o) ->
  (x ← display s o path; Ok x.2) = render (maze_of s o) path.
Proof.
  intros Hlocs. pose proof (display_sim s o path Hlocs) as Hsim.
  destruct (render (maze_of s o) path) as [lines|e|]; [|by rewrite Hsim|done].
  destruct Hsim as (s' & -> & _). done.
Qed.

Lemma display_prints_render_witness :
  (x ← display (load two_routes).1 (load two_routes).2 (Some [(1, 2); (7, 7)]); Ok x.2) =
  render (maze_of (load two_routes).1 (load two_routes).2) (Some [(1, 2); (7, 7)]).
Proof.
  apply (display_prints_render (load two_routes).1 (load two_routes).2).
  repeat constructor.
Defined.

(** X13: rendering is idempotent: calling [display] again with the same
    path, in the store the first call left, prints the same lines. *)
Theorem display_idempotent (s s' : store) (o : MazeObj) (path : option (list coord))
    (lines : list string) :
  Forall (fun l => (l < next s)%nat) (o_grid o) ->
  display s o path = Ok (s', lines) ->
  exists s'', display s' o path = Ok (s'', lines).
Proof.
  intros Hlocs Hd. pose proof (display_sim s o path Hlocs) as Hsim.
  destruct (render (maze_of s o) path) as [lines'|e|] eqn:Hr; [|congruence|done].
  destruct Hsim as (s1 & Hd' & Hframe & Hnext).
  assert (s1 = s' /\ lines' = lines) as [-> ->] by (split; congruence).
  assert (Hlocs' : Forall (fun l => (l < next s')%nat) (o_grid o)).
  { eapply Forall_impl; [done|]. simpl. intros l Hl. lia. }
  pose proof (display_sim s' o path Hlocs') as Hsim'.
  assert (maze_of s' o = maze_of s o) as Heq.
  { unfold maze_of. f_equal. unfold grid_of. apply map_ext_in. intros l Hl.
    apply Hframe. rewrite Forall_forall in Hlocs. by apply Hlocs, list_elem_of_In. }
  rewrite Heq, Hr in Hsim'. destruct Hsim' as (s'' & ? & _). eauto.
Qed.

Lemma display_idempotent_witness :
  exists s' lines s'',
    display (load two_routes).1 (load two_routes).2 (Some [(1, 2)]) = Ok (s', lines) /\
    display s' (load two_routes).2 (Some [(1, 2)]) = Ok (s'', lines).
Proof.
  destruct (display (load two_routes).1 (load two_routes).2 (Some [(1, 2)]))
    as [[s' lines]| |] eqn:Hd; [|vm_compute in Hd; discriminate Hd..].
  destruct (display_idempotent _ s' _ (Some [(1, 2)]) lines
              (ltac:(repeat constructor) : Forall (fun l => (l < next (load two_routes).1)%nat)
                                                  (o_grid (load two_routes).2)) Hd)
    as [s'' Hd'].
  exists s', lines, s''. split; [reflexivity|exact Hd'].
Defined.

(** X14: without a path, or with the empty path, [display] prints the grid
    as it is: one line per row, the row's glyphs joined. *)
Theorem display_plain (s : store) (o : MazeObj) (path : option (list coord)) :
  wf_obj s o -> path = None \/ path = Some [] ->
  exists s', display s o path = Ok (s', map string_of_list_ascii (grid_of s o)).
Proof.
  intros Hwf Hpath.
  destruct (display_core s o path Hwf) as (s' & g' & Hd & _ & Hwf' & Hcells).
  { by destruct Hpath as [-> | ->]. }
  exists s'. rewrite Hd. do 3 f_equal.
  destruct Hwf as [_ Hwf]. apply (grid_ext (o_height o) (o_width o)); [done..|].
  intros q. rewrite Hcells. rewrite decide_False; [done|].
  destruct Hpath as [-> | ->]; by intros ?%Exists_nil.
Qed.

Lemma display_plain_witness :
  exists s', display (load two_routes).1 (load two_routes).2 None =
             Ok (s', map string_of_list_ascii
                       (grid_of (load two_routes).1 (load two_routes).2)).
Proof.
  apply (display_plain (load two_routes).1 (load two_routes).2 None).
  - split; [repeat constructor|]. split; [reflexivity|repeat constructor].
  - by left.
Defined.


(** X16: for a path of valid Python indices, negative ones included,
    [display] returns and the text shows the solution mark exactly on the
    cells the path coordinates other than [start] and [end] designate, a
    negative coordinate counting from the far edge; the comparison with
    [start] and [end] is made on the coordinate as written, so a negative
    alias of [start] or [end] is marked. *)
Theorem display_wrap (s : store) (o : MazeObj) (path : list coord) :
  wf_obj s o ->
  Forall (fun p : coord => - o_height o <= p.1 < o_height o /\
                           - o_width o <= p.2 < o_width o) path ->
  exists s' lines,
    display s o (Some path) = Ok (s', lines) /\
    forall q, 0 <= q.1 < o_height o -> 0 <= q.2 < o_width o ->
      exists ch, cell_at (grid_of s o) q = Some ch /\
        shown lines q =
          Some (if decide (Exists (fun p => p <> o_start o /\ p <> o_end o /\
                                            q = wrap p (o_height o) (o_width o)) path)
                then SolutionMark else ch).
Proof.
  intros Hwf Hrange.
  destruct (display_core s o (Some path) Hwf Hrange) as (s' & g' & Hd & _ & Hwf' & Hcells).
  exists s', (map string_of_list_ascii g'). split; [done|].
  intros [r c] Hr Hc. simpl in Hr, Hc.
  destruct Hwf as [_ Hwf].
  destruct (cell_at_valid _ _ _ r c Hwf Hr Hc) as [ch Hch].
  exists ch. split; [done|].
  unfold shown. rewrite map_list_ascii_of_string, Hcells, Hch. simpl.
  by case_decide.
Qed.

Lemma display_wrap_witness :
  exists s' lines,
    display (load two_routes).1 (load two_routes).2 (Some [(-4, -4); (1, 2)]) =
      Ok (s', lines) /\
    forall q, 0 <= q.1 < 5 -> 0 <= q.2 < 5 ->
      exists ch, cell_at (grid_of (load two_routes).1 (load two_routes).2) q = Some ch /\
        shown lines q =
          Some (if decide (Exists (fun p => p <> (1, 1) /\ p <> (3, 3) /\
                                            q = wrap p 5 5) [(-4, -4); (1, 2)])
                then SolutionMark else ch).
Proof.
  apply (display_wrap (load two_routes).1 (load two_routes).2 [(-4, -4); (1, 2)]).
  - split; [repeat constructor|]. split; [reflexivity|repeat constructor].
  - repeat constructor; simpl; lia.
Defined.


(** * How the operations compose *)

(** [generate] then [solve]: the path found, with what is known of it. *)
Lemma generated_solved rnd w0 h0 :
  2 <= w0 -> 2 <= h0 ->
  exists m g1 g3 path,
    generated rnd w0 h0 = Ok (with_grid m g3) /\
    3 <= width m /\ 3 <= height m /\
    start m = (1, 1) /\ end_ m = (height m - 2, width m - 2) /\
    gen_inv m g1 [] /\
    wf_grid (height m) (width m) g3 /\
    (forall q, open_cell g3 q <-> open_cell g1 q) /\
    solve (with_grid m g3) = Ok (Some path) /\
    trail g3 (start m) (end_ m) path /\
    NoDup path.
Proof.
  intros Hw Hh.
  destruct (generated_spec rnd w0 h0) as
    (m & g1 & g3 & _ & Hgen & Hw3 & Hh3 & Hs & He & Hinv & Hwf3 & Hend & Hset); [lia..|].
  pose proof (generated_open m g1 g3 Hinv Hs Hend Hset) as Hop.
  set (m' := with_grid m g3).
  assert (Hwf : wf_maze m') by done.
  assert (Hreach : exists n, reach m' n (end_ m')).
  { destruct (gi_perfect _ _ _ Hinv (start m) (end_ m)) as (l & Hl & _);
      [rewrite Hs; apply (gi_start _ _ _ Hinv)|done|].
    exists (0 + length l - 1)%nat.
    apply (walk_reach m' 0 (start m')); [constructor|].
    apply sp_walk. eapply sp_mono; [|done]. intros x. apply Hop. }
  pose proof (solve_spec m' Hwf) as Hspec.
  destruct (solve m') as [[path|]| |] eqn:Hsolve; try done.
  - exists m, g1, g3, path. destruct Hspec as [Htrail _].
    repeat (split; [done|]). by eapply solve_path_NoDup.
  - destruct Hreach as [n Hr]. by apply Hspec in Hr.
Qed.

(** X17: in a generated maze the path [solve] returns is a simple path of
    open cells from [start] to [end], and it is the only one. *)
Theorem solve_generated_unique (rnd : nat -> nat) (w0 h0 : Z) :
  2 <= w0 -> 2 <= h0 ->
  exists m' path,
    generated rnd w0 h0 = Ok m' /\
    solve m' = Ok (Some path) /\
    simple_path (open_cell (grid m')) (start m') (end_ m') path /\
    forall l, simple_path (open_cell (grid m')) (start m') (end_ m') l -> l = path.
Proof.
  intros Hw Hh.
  destruct (generated_solved rnd w0 h0 Hw Hh) as
    (m & g1 & g3 & path & Hgen & _ & _ & Hs & He & Hinv & Hwf3 & Hop & Hsolve & Htrail & Hnd).
  exists (with_grid m g3), path. split; [done|]. split; [done|]. simpl.
  assert (Hstart : open_cell g3 (start m)).
  { apply Hop. rewrite Hs. apply (gi_start _ _ _ Hinv). }
  assert (Hsp : simple_path (open_cell g3) (start m) (end_ m) path).
  { by apply trail_simple_path. }
  split; [done|]. intros l Hl.
  assert (Hperf : perfect (open_cell g3)).
  { eapply perfect_ext; [|apply (gi_perfect _ _ _ Hinv)]. intros x. by rewrite Hop. }
  destruct (Hperf (start m) (end_ m)) as (l0 & _ & Huniq); [done| |].
  { pose proof (sp_Forall _ _ _ _ Hsp) as Hall. rewrite Forall_forall in Hall.
    by eapply Hall, sp_last_in. }
  by rewrite (Huniq l), (Huniq path).
Qed.

Lemma solve_generated_unique_witness :
  exists m' path,
    generated (fun k => k) 7 5 = Ok m' /\
    solve m' = Ok (Some path) /\
    simple_path (open_cell (grid m')) (start m') (end_ m') path /\
    forall l, simple_path (open_cell (grid m')) (start m') (end_ m') l -> l = path.
Proof. apply (solve_generated_unique (fun k => k) 7 5); lia. Defined.

Lemma Exists_in_bounds (h w : Z) (st en q : coord) (path : list coord) :
  Forall (fun p : coord => 0 <= p.1 < h /\ 0 <= p.2 < w) path ->
  Exists (fun p => p <> st /\ p <> en /\ q = wrap p h w) path <->
  q ∈ path /\ q <> st /\ q <> en.
Proof.
  intros Hall. rewrite Forall_forall in Hall.
  assert (Hwrap : forall p, p ∈ path -> wrap p h w = p).
  { intros [r c] [Hr Hc]%Hall. unfold wrap. simpl in *.
    by rewrite !Z.mod_small by lia. }
  rewrite Exists_exists. split.
  - intros (p & Hp & Hst & Hen & ->). by rewrite Hwrap.
  - intros (Hq & Hst & Hen). exists q. by rewrite Hwrap.
Qed.

(** X18: the pipeline of the script: after [generate], the path [solve]
    returns is accepted by [display], which prints the maze with the
    solution mark exactly on the cells of the path strictly between
    [start] and [end], and leaves the grid as generated. *)
Theorem generate_solve_display (rnd : nat -> nat) (w0 h0 : Z) :
  2 <= w0 -> 2 <= h0 ->
  exists m' path,
    generated rnd w0 h0 = Ok m' /\
    solve m' = Ok (Some path) /\
    display_ok (load m').1 (load m').2 (Some path).
Proof.
  intros Hw Hh.
  destruct (generated_solved rnd w0 h0 Hw Hh) as
    (m & g1 & g3 & path & Hgen & Hw3 & Hh3 & Hs & He & Hinv & Hwf3 & Hop & Hsolve & Htrail & Hnd).
  set (m' := with_grid m g3) in *.
  exists m', path. split; [done|]. split; [done|].
  assert (Hwfm : wf_maze m') by done.
  pose proof (load_wf m' Hwfm) as Hwfo.
  assert (Hin : Forall (fun p : coord => 0 <= p.1 < height m /\ 0 <= p.2 < width m) path).
  { apply Forall_forall. intros p Hp.
    destruct (trail_cells _ _ _ _ Htrail p Hp) as [->|(ch & Hch & _)].
    - rewrite Hs. simpl. lia.
    - by eapply cell_at_inv. }
  destruct (display_core (load m').1 (load m').2 (Some path) Hwfo)
    as (s' & g' & Hd & Hframe & Hwf' & Hcells).
  { simpl. eapply Forall_impl; [done|]. simpl. intros p. lia. }
  exists s', (map string_of_list_ascii g'). split; [done|]. split; [done|].
  split.
  { unfold grid_of. apply map_ext_in. intros l Hl. apply Hframe.
    destruct Hwfo as [Hlocs _]. rewrite Forall_forall in Hlocs.
    by apply Hlocs, list_elem_of_In. }
  split.
  { rewrite length_map. by destruct Hwf'. }
  intros [r c] Hr Hc.
  destruct Hwfo as [_ Hwfg].
  destruct (cell_at_valid _ _ _ r c Hwfg Hr Hc) as [ch Hch].
  exists ch. split; [done|].
  unfold shown. rewrite map_list_ascii_of_string, Hcells, Hch.
  cbn [default o_start o_end o_height o_width load snd].
  pose proof (Exists_in_bounds (height m) (width m) (start m) (end_ m) (r, c) path Hin).
  by repeat case_decide; try tauto.
Qed.

Lemma generate_solve_display_witness :
  exists m' path,
    generated (fun k => k) 7 5 = Ok m' /\
    solve m' = Ok (Some path) /\
    display_ok (load m').1 (load m').2 (Some path).
Proof. apply (generate_solve_display (fun k => k) 7 5); lia. Defined.

Lemma trail_manhattan g p q l :
  trail g p q l ->
  (Z.abs (p.1 - q.1) + Z.abs (p.2 - q.2) + 1 <= Z.of_nat (length l)).
Proof.
  induction 1 as [p|p p' q l Hadj _ _ IH]; simpl length.
  - lia.
  - unfold adj in Hadj. lia.
Qed.

Lemma trail_parity g p q l :
  trail g p q l ->
  (Z.of_nat (length l) - 1 - (Z.abs (p.1 - q.1) + Z.abs (p.2 - q.2))) mod 2 = 0.
Proof.
  induction 1 as [[pr pc]|[pr pc] [pr' pc'] [qr qc] l Hadj _ _ IH].
  - simpl. zlia.
  - unfold adj in Hadj. cbn [fst snd length] in *. rewrite Nat2Z.inj_succ.
    revert IH. generalize (Z.of_nat (length l)). intros n IH.
    zlia.
Qed.

(** X19: a path returned by [solve] has at least as many cells as the
    Manhattan distance from [start] to [end] plus one, and the number of
    its moves has the parity of that distance. *)
Theorem solve_manhattan (m : Maze) (path : list coord) :
  wf_maze m -> solve m = Ok (Some path) ->
  Z.abs ((start m).1 - (end_ m).1) + Z.abs ((start m).2 - (end_ m).2) + 1
    <= Z.of_nat (length path) /\
  (Z.of_nat (length path) - 1 -
     (Z.abs ((start m).1 - (end_ m).1) + Z.abs ((start m).2 - (end_ m).2))) mod 2 = 0.
Proof.
  intros Hwf Hsolve. pose proof (solve_spec m Hwf) as Hspec.
  rewrite Hsolve in Hspec. destruct Hspec as [Htrail _].
  split; [by eapply trail_manhattan|by eapply trail_parity].
Qed.

Lemma solve_manhattan_witness :
  Z.abs ((start two_routes).1 - (end_ two_routes).1) +
    Z.abs ((start two_routes).2 - (end_ two_routes).2) + 1
    <= Z.of_nat (length [(1, 1); (1, 2); (1, 3); (2, 3); (3, 3)]) /\
  (Z.of_nat (length [(1, 1); (1, 2); (1, 3); (2, 3); (3, 3)]) - 1 -
     (Z.abs ((start two_routes).1 - (end_ two_routes).1) +
      Z.abs ((start two_routes).2 - (end_ two_routes).2))) mod 2 = 0.
Proof.
  apply (solve_manhattan two_routes).
  - split; [reflexivity|repeat constructor].
  - vm_compute. reflexivity.
Defined.

(** * The constructor and the bounds check *)

(** X20: constructing a maze with the dimensions of a constructed maze
    gives that maze again: normalization happens once. *)
Theorem Maze_init_again (w0 h0 : Z) (m : Maze) :
  Maze_init w0 h0 = Ok m -> Maze_init (width m) (height m) = Ok m.
Proof.
  rewrite !Maze_init_eq. intros [= <-]. simpl.
  assert (forall d, normalize (normalize d) = normalize d) as Hnn.
  { intros d. pose proof (normalize_odd d) as Hodd.
    unfold normalize at 1. rewrite Zeven_mod, Hodd. done. }
  by rewrite !Hnn.
Qed.

Lemma Maze_init_again_witness :
  exists m, Maze_init 30 18 = Ok m /\ Maze_init (width m) (height m) = Ok m.
Proof.
  eexists. split; [reflexivity|].
  apply (Maze_init_again 30 18). reflexivity.
Defined.

(** X21: on a well-formed maze [_is_valid] accepts exactly the coordinates
    of the cells of the grid; where it accepts, reading [grid[r][c]]
    raises nothing and returns that cell. Negative aliases are rejected. *)
Theorem is_valid_guards (m : Maze) (r c : Z) :
  wf_maze m ->
  (is_valid m r c = true <-> is_Some (cell_at (grid m) (r, c))) /\
  (is_valid m r c = true ->
     exists ch, grid_get (grid m) r c = Ok ch /\ cell_at (grid m) (r, c) = Some ch) /\
  (r < 0 \/ c < 0 -> is_valid m r c = false).
Proof.
  intros Hwf. split; [|split].
  - split.
    + intros [Hr Hc]%is_valid_spec. by eapply cell_at_valid.
    + intros [ch Hch]. apply is_valid_spec. by eapply cell_at_inv in Hch.
  - intros [Hr Hc]%is_valid_spec. by eapply grid_get_valid.
  - intros Hneg. destruct (is_valid m r c) eqn:Hv; [|done].
    apply is_valid_spec in Hv. lia.
Qed.

Lemma is_valid_guards_witness :
  (is_valid two_routes 1 1 = true <-> is_Some (cell_at (grid two_routes) (1, 1))) /\
  (is_valid two_routes 1 1 = true ->
     exists ch, grid_get (grid two_routes) 1 1 = Ok ch /\
                cell_at (grid two_routes) (1, 1) = Some ch) /\
  (1 < 0 \/ 1 < 0 -> is_valid two_routes 1 1 = false).
Proof.
  apply (is_valid_guards two_routes 1 1).
  split; [reflexivity|repeat constructor].
Defined.


(** * Counting the carved cells *)

Lemma NoDup_list_prod {A B} (l1 : list A) (l2 : list B) :
  NoDup l1 -> NoDup l2 -> NoDup (list_prod l1 l2).
Proof.
  intros H1 H2. induction H1 as [|a l1 Ha _ IH]; simpl; [constructor|].
  apply NoDup_app. split; [|split; [|done]].
  - apply NoDup_fmap_2; [|done]. by intros x y [= ->].
  - intros [x y] [z [[= <- <-] _]]%list_elem_of_fmap Hin.
    apply list_elem_of_In, in_prod_iff in Hin as [Hin _].
    by apply list_elem_of_In in Hin.
Qed.

Lemma NoDup_all_cells h w : NoDup (all_cells h w).
Proof. apply NoDup_list_prod; apply NoDup_seqZ. Qed.

Lemma filter_ext_elem {A} (P Q : A -> Prop)
    `{!forall x, Decision (P x)} `{!forall x, Decision (Q x)} (l : list A) :
  (forall x, x ∈ l -> (P x <-> Q x)) -> filter P l = filter Q l.
Proof.
  induction l as [|a l IH]; intros Heq; [done|].
  rewrite !filter_cons.
  rewrite IH by (intros x Hx; apply Heq; by right).
  destruct (decide (P a)) as [Hp|Hp], (decide (Q a)) as [Hq|Hq]; try done.
  - destruct Hq. apply Heq; [left|done].
  - destruct Hp. apply Heq; [left|done].
Qed.

(** Adding one element of a duplicate-free list to a predicate adds one to
    the count. *)
Lemma filter_add_one {A} (P Q : A -> Prop)
    `{!forall x, Decision (P x)} `{!forall x, Decision (Q x)} (l : list A) (x : A) :
  NoDup l -> x ∈ l -> ~ P x -> Q x ->
  (forall y, y ∈ l -> y <> x -> (Q y <-> P y)) ->
  length (filter Q l) = S (length (filter P l)).
Proof.
  intros Hnd. revert x. induction Hnd as [|a l Ha Hnd IH]; intros x Hx HP HQ Heq.
  - by apply elem_of_nil in Hx.
  - rewrite !filter_cons. apply elem_of_cons in Hx as [->|Hx].
    + rewrite decide_True, decide_False by done. simpl. f_equal. f_equal.
      apply filter_ext_elem. intros y Hy. apply Heq; [by right|]. by intros ->.
    + assert (a <> x) by (by intros ->).
      assert (length (filter Q l) = S (length (filter P l))) as Hlen.
      { apply (IH x Hx HP HQ). intros y Hy. apply Heq. by right. }
      destruct (decide (P a)) as [Hp|Hp], (decide (Q a)) as [Hq|Hq]; simpl;
        rewrite ?Hlen; try done.
      * destruct Hq. apply Heq; [left|done|done].
      * destruct Hp. apply Heq; [left|done|done].
Qed.

Lemma filter_map_pair {A B} (P : A -> Prop) (Q : B -> Prop)
    `{!forall x, Decision (P x)} `{!forall y, Decision (Q y)} (a : A) (l2 : list B) :
  filter (fun p : A * B => P p.1 /\ Q p.2) (map (fun y : B => (a, y)) l2) =
  if decide (P a) then map (fun y => (a, y)) (filter Q l2) else [].
Proof.
  induction l2 as [|b l2 IH]; [by case_decide|]. simpl.
  rewrite !filter_cons, IH. simpl.
  repeat case_decide; simpl; try done; tauto.
Qed.

Lemma filter_list_prod {A B} (P : A -> Prop) (Q : B -> Prop)
    `{!forall x, Decision (P x)} `{!forall y, Decision (Q y)} (l1 : list A) (l2 : list B) :
  filter (fun p => P p.1 /\ Q p.2) (list_prod l1 l2) =
  list_prod (filter P l1) (filter Q l2).
Proof.
  induction l1 as [|a l1 IH]; [done|]. simpl.
  rewrite filter_app, IH, filter_cons, filter_map_pair.
  by case_decide.
Qed.

Lemma odd_count (k : nat) :
  Z.of_nat (length (filter (fun r => r mod 2 = 1) (seqZ 0 (Z.of_nat k)))) = Z.of_nat k / 2.
Proof.
  induction k as [|k IH]; [done|].
  rewrite seqZ_S, filter_app, length_app, Nat2Z.inj_add, IH, filter_cons, filter_nil.
  rewrite Nat2Z.inj_succ. case_decide; simpl; zlia.
Qed.

Lemma junction_count h w :
  0 <= h -> 0 <= w ->
  Z.of_nat (length (filter (fun p : coord => p.1 mod 2 = 1 /\ p.2 mod 2 = 1)
                           (all_cells h w))) = (h / 2) * (w / 2).
Proof.
  intros Hh Hw. unfold all_cells.
  pose proof (filter_list_prod (fun r => r mod 2 = 1) (fun c => c mod 2 = 1)
                (seqZ 0 h) (seqZ 0 w)) as Hprod.
  cbn beta in Hprod. rewrite Hprod.
  rewrite length_prod, Nat2Z.inj_mul.
  rewrite <- (Z2Nat.id h), <- (Z2Nat.id w) by done.
  by rewrite !odd_count, !Z2Nat.id by done.
Qed.


Lemma elem_of_open_list h w g p :
  wf_grid h w g -> p ∈ open_list h w g <-> open_cell g p.
Proof.
  intros Hwf. unfold open_list. rewrite list_elem_of_filter, elem_of_all_cells. split.
  - intros [Hne [Hr Hc]]. destruct p as [r c].
    destruct (cell_at_valid _ _ _ r c Hwf Hr Hc) as [ch Hch].
    exists ch. split; [done|]. intros ->. done.
  - intros (ch & Hch & Hne). split; [|by eapply cell_at_inv].
    rewrite Hch. by intros [= ->].
Qed.

(** The connector about to be carved is still a wall. *)
Lemma carve_mid_wall m g stack cr cc nr nc wr wc :
  gen_inv m g ((cr, cc) :: stack) ->
  (nr = cr /\ wr = cr /\ (nc = cc + 2 /\ wc = cc + 1 \/ nc = cc - 2 /\ wc = cc - 1)) \/
  (nc = cc /\ wc = cc /\ (nr = cr + 2 /\ wr = cr + 1 \/ nr = cr - 2 /\ wr = cr - 1)) ->
  is_valid m nr nc = true ->
  cell_at g (nr, nc) = Some Wall ->
  cell_at g (wr, wc) = Some Wall /\ is_valid m wr wc = true /\
  (wr mod 2 = 0 \/ wc mod 2 = 0) /\ nr mod 2 = 1 /\ nc mod 2 = 1.
Proof.
  intros Hinv Hgeo Hvn Hwall.
  destruct Hinv as [Hwf Hchars Hlat Hstack Hstart Hperf Hdone].
  destruct (Hstack (cr, cc)) as [Hcur Hjc]; [left|].
  pose proof (open_cell_valid m _ _ Hwf Hcur) as Hvc.
  apply is_valid_spec in Hvc, Hvn. simpl in Hvc.
  unfold junction in Hjc. simpl in Hjc.
  assert (Hvm : 0 <= wr < height m /\ 0 <= wc < width m) by lia.
  split; [|split; [by apply is_valid_spec|zlia]].
  destruct (cell_at_valid _ _ g wr wc Hwf (proj1 Hvm) (proj2 Hvm)) as [ch Hch].
  rewrite Hch. f_equal. destruct (decide (ch = Wall)) as [|Hne]; [done|]. exfalso.
  assert (Hm : open_cell g (wr, wc)) by (by exists ch).
  assert (Hnn : ~ open_cell g (nr, nc)).
  { intros (ch' & Hch' & Hne'). congruence. }
  destruct (Hlat _ Hm) as [Hj|[(?&?&Ha&Hb)|(?&?&Ha&Hb)]];
    unfold junction in *; simpl in *; try zlia.
  - assert ((wr, wc - 1) = (nr, nc) \/ (wr, wc + 1) = (nr, nc)) as [E|E]
      by (destruct Hgeo as [(?&?&[[? ?]|[? ?]])|(?&?&[[? ?]|[? ?]])];
          subst; (try zlia); [right|left]; f_equal; lia);
      [rewrite E in Ha|rewrite E in Hb]; done.
  - assert ((wr - 1, wc) = (nr, nc) \/ (wr + 1, wc) = (nr, nc)) as [E|E]
      by (destruct Hgeo as [(?&?&[[? ?]|[? ?]])|(?&?&[[? ?]|[? ?]])];
          subst; (try zlia); [right|left]; f_equal; lia);
      [rewrite E in Ha|rewrite E in Hb]; done.
Qed.

(** Carving adds two open cells, one of them a junction. *)
Lemma carve_count m g nr nc wr wc g1 g2 :
  wf_grid (height m) (width m) g ->
  is_valid m nr nc = true -> is_valid m wr wc = true ->
  cell_at g (nr, nc) = Some Wall -> cell_at g (wr, wc) = Some Wall ->
  (wr mod 2 = 0 \/ wc mod 2 = 0) -> nr mod 2 = 1 -> nc mod 2 = 1 ->
  grid_set g nr nc Path = Ok g1 -> grid_set g1 wr wc Path = Ok g2 ->
  length (open_list (height m) (width m) g2) =
    S (S (length (open_list (height m) (width m) g))) /\
  length (open_junction_list (height m) (width m) g2) =
    S (length (open_junction_list (height m) (width m) g)).
Proof.
  intros Hwf Hvn Hvm Hwn Hwm Hmpar Hnr Hnc Hg1 Hg2.
  apply is_valid_spec in Hvn, Hvm.
  destruct (grid_set_valid _ _ g nr nc Path Hwf) as (g1' & Hg1' & Hwf1 & Hset1); [lia..|].
  assert (g1' = g1) as -> by congruence.
  destruct (grid_set_valid _ _ g1 wr wc Path Hwf1) as (g2' & Hg2' & Hwf2 & Hset2); [lia..|].
  assert (g2' = g2) as -> by congruence.
  assert (Hne : (wr, wc) <> (nr, nc)) by (intros [= -> ->]; zlia).
  pose proof (NoDup_all_cells (height m) (width m)) as Hnd.
  assert (Hin_n : (nr, nc) ∈ all_cells (height m) (width m)) by (by apply elem_of_all_cells).
  assert (Hin_m : (wr, wc) ∈ all_cells (height m) (width m)) by (by apply elem_of_all_cells).
  unfold open_list, open_junction_list. split.
  - rewrite (filter_add_one (fun p => cell_at g1 p <> Some Wall) _ _ (wr, wc) Hnd Hin_m).
    + f_equal.
      apply (filter_add_one (fun p => cell_at g p <> Some Wall) _ _ (nr, nc) Hnd Hin_n).
      * by intros ?.
      * rewrite Hset1, decide_True by done. discriminate.
      * intros y _ Hy. by rewrite Hset1, decide_False.
    + rewrite Hset1, decide_False by done. by intros ?.
    + rewrite Hset2, decide_True by done. discriminate.
    + intros y _ Hy. by rewrite Hset2, decide_False.
  - rewrite (filter_ext_elem _
               (fun p => (p.1 mod 2 = 1 /\ p.2 mod 2 = 1) /\ cell_at g1 p <> Some Wall)).
    + apply (filter_add_one
               (fun p => (p.1 mod 2 = 1 /\ p.2 mod 2 = 1) /\ cell_at g p <> Some Wall)
               _ _ (nr, nc) Hnd Hin_n).
      * intros [_ ?]. done.
      * rewrite Hset1, decide_True by done. split; [done|discriminate].
      * intros y _ Hy. by rewrite Hset1, decide_False.
    + intros [yr yc] _. rewrite Hset2. case_decide as Hy; [|done].
      injection Hy as -> ->. simpl. split; intros [[? ?] _]; zlia.
Qed.

(** Through the loop of [generate], the open cells number one less than
    twice the open junctions. *)
Lemma generate_loop_count rnd m fuel : forall k g stack g',
  gen_inv m g stack ->
  (length (open_list (height m) (width m) g) + 1 =
   2 * length (open_junction_list (height m) (width m) g))%nat ->
  generate_loop fuel rnd m k g stack = Ok g' ->
  (length (open_list (height m) (width m) g') + 1 =
   2 * length (open_junction_list (height m) (width m) g'))%nat.
Proof.
  induction fuel as [|fuel IH]; intros k g stack g' Hinv Hcnt; [done|].
  destruct stack as [|[cr cc] rest]; [by intros [= <-]|].
  rewrite generate_loop_unfold.
  destruct (unvisited_neighbors_spec m g cr cc gen_directions (gi_wf _ _ _ Hinv))
    as (l & -> & Hl).
  cbn [mbind result_bind]. destruct l as [|x0 xs].
  - apply IH; [|done]. eapply pop_step; [done|].
    intros d Hd Hv Hw.
    assert ((cr + d.1, cc + d.2) ∈ @nil coord) as Hin by (apply Hl; eauto).
    by apply elem_of_nil in Hin.
  - pose proof (choice_in rnd k x0 xs) as Hin.
    destruct (choice rnd k x0 xs) as [nr nc].
    apply Hl in Hin as (d & Hd & Heq & Hv & Hw).
    injection Heq as -> ->. simpl in Hv.
    assert (Hgeo :
      (cr + d.1 = cr /\ cr + (cr + d.1 - cr) / 2 = cr /\
       (cc + d.2 = cc + 2 /\ cc + (cc + d.2 - cc) / 2 = cc + 1 \/
        cc + d.2 = cc - 2 /\ cc + (cc + d.2 - cc) / 2 = cc - 1)) \/
      (cc + d.2 = cc /\ cc + (cc + d.2 - cc) / 2 = cc /\
       (cr + d.1 = cr + 2 /\ cr + (cr + d.1 - cr) / 2 = cr + 1 \/
        cr + d.1 = cr - 2 /\ cr + (cr + d.1 - cr) / 2 = cr - 1))).
    { apply gen_directions_cases in Hd as [->|[->|[->| ->]]]; simpl; zlia. }
    destruct (carve_mid_wall m g rest cr cc _ _ _ _ Hinv Hgeo Hv Hw)
      as (Hwm & Hvm & Hmpar & Hnr & Hnc).
    destruct (carve_step m g rest cr cc _ _ _ _ Hinv Hgeo Hv Hw)
      as (g1 & g2 & Hg1 & Hg2 & Hinv2 & _).
    rewrite Hg1. cbn [mbind result_bind]. rewrite Hg2. cbn [mbind result_bind].
    apply IH; [done|].
    destruct (carve_count m g _ _ _ _ g1 g2 (gi_wf _ _ _ Hinv) Hv Hvm Hw Hwm Hmpar Hnr Hnc
                Hg1 Hg2) as [-> ->].
    lia.
Qed.

Lemma filter_none {A} (P : A -> Prop) `{!forall x, Decision (P x)} (l : list A) :
  (forall x, x ∈ l -> ~ P x) -> filter P l = [].
Proof.
  induction l as [|a l IH]; intros Hno; [done|].
  rewrite filter_cons, decide_False by (apply Hno; left).
  apply IH. intros x Hx. apply Hno. by right.
Qed.

(** X22: the carved cells number what a spanning tree of the junctions
    needs: after [generate] the open cells are [2 * J - 1], where
    [J = ((height-1)/2) * ((width-1)/2)] is the number of junctions (one
    connector per junction other than the first). *)
Theorem generate_count (rnd : nat -> nat) (w0 h0 : Z) :
  2 <= w0 -> 2 <= h0 ->
  exists m' l,
    generated rnd w0 h0 = Ok m' /\
    NoDup l /\ (forall p, p ∈ l <-> open_cell (grid m') p) /\
    Z.of_nat (length l) = 2 * (((height m' - 1) / 2) * ((width m' - 1) / 2)) - 1.
Proof.
  intros Hw Hh. unfold generated.
  destruct (Maze_init w0 h0) as [m| |] eqn:Hinit;
    try (rewrite Maze_init_eq in Hinit; discriminate).
  destruct (Maze_init_fresh _ _ _ Hinit) as (Hwf & Hwalls & Hs & He & Hwm & Hhm).
  pose proof (normalize_odd w0) as Hwodd. pose proof (normalize_odd h0) as Hhodd.
  rewrite <- Hwm in Hwodd. rewrite <- Hhm in Hhodd.
  assert (3 <= width m /\ 3 <= height m) as [Hw3 Hh3].
  { rewrite Hwm, Hhm in *. unfold normalize in *.
    destruct (Z.even w0), (Z.even h0); zlia. }
  cbn [mbind result_bind]. unfold generate. rewrite Hs, He. cbn [fst snd].
  destruct (grid_set_valid _ _ (grid m) 1 1 Path Hwf) as (g0 & -> & Hwf0 & Hset0); [lia..|].
  cbn [mbind result_bind].
  pose proof (gen_inv_init m g0 Hwf0 Hset0 Hwalls) as Hinv0.
  destruct (generate_loop_spec (gen_fuel m) rnd m 0 g0 [(1, 1)] Hinv0)
    as (g1 & Hloop & Hinv1).
  { unfold gen_fuel, walls. simpl.
    pose proof (length_filter (fun p => cell_at g0 p = Some Wall)
                  (all_cells (height m) (width m))) as Hlen.
    rewrite length_all_cells in Hlen. lia. }
  pose proof (NoDup_all_cells (height m) (width m)) as Hnd.
  assert (Hin1 : (1, 1) ∈ all_cells (height m) (width m)).
  { apply elem_of_all_cells. simpl. lia. }
  assert (Hallwall : forall q, q ∈ all_cells (height m) (width m) ->
                               cell_at (grid m) q = Some Wall).
  { intros [r c] [Hr Hc]%elem_of_all_cells.
    destruct (cell_at_valid _ _ _ r c Hwf Hr Hc) as [ch Hch].
    by rewrite Hch, (Hwalls _ _ Hch). }
  assert (Hcnt0 : (length (open_list (height m) (width m) g0) + 1 =
                   2 * length (open_junction_list (height m) (width m) g0))%nat).
  { unfold open_list, open_junction_list.
    rewrite (filter_add_one (fun p => cell_at (grid m) p <> Some Wall)
               (fun p => cell_at g0 p <> Some Wall) _ (1, 1) Hnd Hin1).
    - rewrite (filter_add_one
                 (fun p => (p.1 mod 2 = 1 /\ p.2 mod 2 = 1) /\ cell_at (grid m) p <> Some Wall)
                 (fun p => (p.1 mod 2 = 1 /\ p.2 mod 2 = 1) /\ cell_at g0 p <> Some Wall)
                 _ (1, 1) Hnd Hin1).
      + rewrite (filter_none (fun p => cell_at (grid m) p <> Some Wall))
          by (intros q Hq Hne; by apply Hne, Hallwall).
        rewrite (filter_none (fun p => _ /\ cell_at (grid m) p <> Some Wall))
          by (intros q Hq [_ Hne]; by apply Hne, Hallwall).
        done.
      + intros [_ Hne]. by apply Hne, Hallwall.
      + rewrite Hset0, decide_True by done. split; [done|discriminate].
      + intros y _ Hy. by rewrite Hset0, decide_False.
    - intros Hne. by apply Hne, Hallwall.
    - rewrite Hset0, decide_True by done. discriminate.
    - intros y _ Hy. by rewrite Hset0, decide_False. }
  pose proof (generate_loop_count rnd m _ _ _ _ _ Hinv0 Hcnt0 Hloop) as Hcnt1.
  rewrite Hloop. cbn [mbind result_bind].
  pose proof (gi_wf _ _ _ Hinv1) as Hwf1.
  destruct (grid_set_valid _ _ g1 1 1 StartMark Hwf1) as (g2 & -> & Hwf2 & Hset2); [lia..|].
  cbn [mbind result_bind].
  destruct (grid_set_valid _ _ g2 (height m - 2) (width m - 2) EndMark Hwf2)
    as (g3 & -> & Hwf3 & Hset3); [lia..|].
  cbn [mbind result_bind].
  assert (Hend : open_cell g1 (end_ m)).
  { rewrite He. apply (gen_inv_junction_open m); [done|apply is_valid_spec; lia|zlia..]. }
  assert (Hset : forall q, cell_at g3 q =
             if decide (q = end_ m) then Some EndMark
             else if decide (q = start m) then Some StartMark
             else cell_at g1 q).
  { intros q. by rewrite Hset3, Hset2, He, Hs. }
  pose proof (generated_open m g1 g3 Hinv1 Hs Hend Hset) as Hop.
  exists (with_grid m g3), (open_list (height m) (width m) g1).
  split; [done|]. split; [by apply NoDup_filter|]. split.
  { intros p. cbn [grid with_grid]. by rewrite Hop, elem_of_open_list. }
  cbn [height width with_grid].
  assert (Z.of_nat (length (open_junction_list (height m) (width m) g1)) =
          (height m / 2) * (width m / 2)) as Hj.
  { rewrite <- junction_count by lia. f_equal. f_equal.
    apply filter_ext_elem. intros [r c] [Hr Hc]%elem_of_all_cells.
    split; [by intros [? _]|]. intros [Hro Hco]. split; [done|].
    simpl in *.
    destruct (gen_inv_junction_open m g1 r c Hinv1) as (ch & Hch & Hne);
      [by apply is_valid_spec|done..|].
    rewrite Hch. by intros [= ->]. }
  replace ((height m - 1) / 2) with (height m / 2) by zlia.
  replace ((width m - 1) / 2) with (width m / 2) by zlia.
  lia.
Qed.

Lemma generate_count_witness :
  exists m' l,
    generated (fun k => k) 7 5 = Ok m' /\
    NoDup l /\ (forall p, p ∈ l <-> open_cell (grid m') p) /\
    Z.of_nat (length l) = 2 * (((height m' - 1) / 2) * ((width m' - 1) / 2)) - 1.
Proof. apply (generate_count (fun k => k) 7 5); lia. Defined.


(** * The script *)

Lemma generate_fields rnd m m' :
  generate rnd m = Ok m' ->
  width m' = width m /\ height m' = height m /\
  start m' = start m /\ end_ m' = end_ m.
Proof.
  unfold generate. destruct (start m) as [sr sc] eqn:Hs.
  destruct (grid_set (grid m) sr sc Path) as [g0| |]; simpl; try done.
  destruct (generate_loop _ rnd m 0 g0 _) as [g1| |]; simpl; try done.
  destruct (grid_set g1 _ _ StartMark) as [g2| |]; simpl; try done.
  destruct (grid_set g2 _ _ EndMark) as [g3| |]; simpl; try done.
  intros [= <-]. simpl. by rewrite Hs.
Qed.

Lemma display_lines_spec m path :
  wf_maze m ->
  Forall (fun p : coord => 0 <= p.1 < height m /\ 0 <= p.2 < width m) (default [] path) ->
  exists lines, display_lines m path = Ok lines /\
    length lines = Z.to_nat (height m) /\
    (default [] path = [] -> lines = map string_of_list_ascii (grid m)).
Proof.
  intros Hwf Hin. pose proof (load_wf m Hwf) as Hwfo.
  destruct (display_core (load m).1 (load m).2 path Hwfo)
    as (s' & g' & Hd & _ & Hwf' & Hcells).
  { simpl. eapply Forall_impl; [done|]. simpl. intros p. lia. }
  exists (map string_of_list_ascii g'). unfold display_lines. rewrite Hd.
  split; [done|]. split; [rewrite length_map; by destruct Hwf'|].
  intros Hnil. f_equal. rewrite <- (load_grid m).
  destruct Hwfo as [_ Hwfg]. apply (grid_ext (height m) (width m)); [done..|].
  intros q. rewrite Hcells, Hnil. rewrite decide_False; [done|]. by intros ?%Exists_nil.
Qed.

(** The maze the script constructs. *)
Lemma main_init :
  Maze_init 31 19 = Ok (mkMaze 31 19 (replicate 19 (replicate 31 Wall)) (1, 1) (17, 29)).
Proof. reflexivity. Qed.

Lemma main_init_wf :
  wf_maze (mkMaze 31 19 (replicate 19 (replicate 31 Wall)) (1, 1) (17, 29)).
Proof. split; [reflexivity|repeat constructor]. Qed.

Lemma main_init_shown :
  map string_of_list_ascii (replicate 19 (replicate 31 Wall)) =
  replicate 19 (string_of_list_ascii (replicate 31 Wall)).
Proof. vm_compute. reflexivity. Qed.

(** The script's output in terms of what its calls return. *)
Lemma main_unfold rnd m0 m' shown0 shown1 shown2 p ps :
  Maze_init 31 19 = Ok m0 ->
  display_lines m0 None = Ok shown0 ->
  generate rnd m0 = Ok m' ->
  display_lines m' None = Ok shown1 ->
  solve m' = Ok (Some (p :: ps)) ->
  display_lines m' (Some (p :: ps)) = Ok shown2 ->
  main rnd =
    Ok (["--- Generating and Solving a Random Maze ---"%string;
         (newline +:+ "Initialized empty 19x31 maze:")%string] ++
        shown0 ++
        [(newline +:+ "Generated random maze:")%string] ++ shown1 ++
        [(newline +:+ "Maze with solution path ('o'):")%string] ++ shown2 ++
        [(newline +:+ "Path length: " +:+ pretty (Z.of_nat (length (p :: ps)) - 1)
            +:+ " steps")%string;
         (newline +:+ "--- Tutorial Complete ---")%string]).
Proof.
  intros Hinit Hd0 Hgen Hd1 Hsolve Hd2.
  unfold main. cbv zeta. rewrite Hinit. cbn [mbind result_bind].
  rewrite Hd0. cbn [mbind result_bind]. rewrite Hgen. cbn [mbind result_bind].
  rewrite Hd1. cbn [mbind result_bind]. rewrite Hsolve. cbn [mbind result_bind].
  rewrite Hd2. cbn [mbind result_bind].
  apply (f_equal Ok).
  apply (f_equal2 app); [vm_compute; reflexivity|].
  do 3 (apply (f_equal2 app); [reflexivity|]).
  rewrite <- !app_assoc. reflexivity.
Qed.

(** X23: whatever the random source does, the script runs to its end
    without raising, never prints ["No solution path found."], shows a 19
    by 31 maze three times (all walls, generated, solved), and reports a
    path length that is even and at least 44, the Manhattan distance from
    [(1,1)] to [(17,29)]. *)
Theorem main_finds_solution (rnd : nat -> nat) :
  exists (shown1 shown2 : list string) (n : Z),
    main rnd =
      Ok (["--- Generating and Solving a Random Maze ---"%string;
           (newline +:+ "Initialized empty 19x31 maze:")%string] ++
          replicate 19 (string_of_list_ascii (replicate 31 Wall)) ++
          [(newline +:+ "Generated random maze:")%string] ++ shown1 ++
          [(newline +:+ "Maze with solution path ('o'):")%string] ++ shown2 ++
          [(newline +:+ "Path length: " +:+ pretty n +:+ " steps")%string;
           (newline +:+ "--- Tutorial Complete ---")%string]) /\
    length shown1 = 19%nat /\ length shown2 = 19%nat /\
    44 <= n /\ n mod 2 = 0.
Proof.
  destruct (generated_solved rnd 31 19) as
    (m & g1 & g3 & path & Hgen & _ & _ & Hs & He & Hinv & Hwf3 & Hop & Hsolve & Htrail & Hnd);
    [lia..|].
  assert (exists p ps, path = p :: ps) as (p & ps & Hpath).
  { destruct path as [|p ps]; [by apply trail_head in Htrail|eauto]. }
  unfold generated in Hgen. rewrite main_init in Hgen. cbn [mbind result_bind] in Hgen.
  destruct (generate_fields _ _ _ Hgen) as (Hw & Hh & _ & _).
  cbn [width height with_grid] in Hw, Hh.
  pose proof (trail_manhattan _ _ _ _ Htrail) as Hman.
  pose proof (trail_parity _ _ _ _ Htrail) as Hpar.
  rewrite Hs, He, Hh, Hw in Hman, Hpar. cbn [fst snd] in Hman, Hpar.
  assert (Hin : Forall (fun q : coord => 0 <= q.1 < height (with_grid m g3) /\
                                         0 <= q.2 < width (with_grid m g3)) path).
  { apply Forall_forall. intros q Hq. cbn [height width with_grid].
    destruct (trail_cells _ _ _ _ Htrail q Hq) as [->|(ch & Hch & _)].
    - rewrite Hs, Hh, Hw. cbn [fst snd]. lia.
    - by eapply cell_at_inv. }
  destruct (display_lines_spec _ None main_init_wf) as (shown0 & Hd0 & _ & Hshown0);
    [constructor|].
  destruct (display_lines_spec (with_grid m g3) None Hwf3) as (shown1 & Hd1 & Hlen1 & _);
    [constructor|].
  destruct (display_lines_spec (with_grid m g3) (Some path) Hwf3 Hin)
    as (shown2 & Hd2 & Hlen2 & _).
  cbn [height with_grid] in Hlen1, Hlen2. rewrite Hh in Hlen1, Hlen2.
  exists shown1, shown2, (Z.of_nat (length path) - 1).
  split; [|split; [done|split; [done|]]].
  - rewrite Hpath in *.
    rewrite (main_unfold rnd _ _ _ _ _ _ _ main_init Hd0 Hgen Hd1 Hsolve Hd2).
    rewrite (Hshown0 eq_refl). cbn [grid]. by rewrite main_init_shown.
  - revert Hman Hpar. generalize (Z.of_nat (length path)). intros k Hman Hpar.
    clear -Hman Hpar. zlia.
Qed.

(** ** Rendering, with the console *)

Lemma print_rows_io_result s dg rs :
  print_rows s dg rs =
  (_ ← (print_rows_io s dg rs).2; Ok (print_rows_io s dg rs).1).
Proof.
  induction rs as [|r rs IH]; [done|]. cbn [print_rows print_rows_io].
  destruct (py_get dg r) as [l| |]; [|done..]. cbn [mbind result_bind].
  rewrite IH. destruct (print_rows_io s dg rs) as [out [[]| |]]; done.
Qed.

(** A call of [display] that returns has printed the lines [display]
    gives, and conversely; a call that raises in the one raises in the
    other. *)
Lemma display_io_result s o path :
  display s o path =
  (s' ← (display_io s o path).2; Ok (s', (display_io s o path).1)).
Proof.
  unfold display, display_io.
  destruct (copy_rows s (o_grid o)) as [s1 dg].
  destruct (match path with
            | Some (p :: ps) => overlay s1 dg (o_start o) (o_end o) (p :: ps)
            | _ => Ok s1
            end) as [s2| |]; [|done..].
  cbn [mbind result_bind]. rewrite print_rows_io_result.
  destruct (print_rows_io s2 dg (seqZ 0 (o_height o))) as [out [[]| |]]; done.
Qed.

Lemma print_rows_io_app s dg rs1 rs2 :
  Forall (fun r => 0 <= r < Z.of_nat (length dg)) rs1 ->
  print_rows_io s dg (rs1 ++ rs2) =
  (map (fun r => string_of_list_ascii (cells s (default 0%nat (dg !! Z.to_nat r)))) rs1
     ++ (print_rows_io s dg rs2).1,
   (print_rows_io s dg rs2).2).
Proof.
  induction 1 as [|r rs1 Hr _ IH]; [simpl; by destruct (print_rows_io s dg rs2)|].
  cbn [app print_rows_io map].
  destruct (py_get_nonneg dg r Hr) as (l & -> & ->). by rewrite IH.
Qed.

(** Printing [h] rows of a shorter list of rows: every row there is gets
    printed, then the index runs past the end. *)
Lemma print_rows_io_short s dg h :
  Z.of_nat (length dg) < h ->
  print_rows_io s dg (seqZ 0 h) =
  (map (fun l => string_of_list_ascii (cells s l)) dg, Raise IndexError).
Proof.
  intros Hh. set (n := Z.of_nat (length dg)).
  assert (seqZ 0 h = seqZ 0 n ++ n :: seqZ (n + 1) (h - n - 1)) as ->.
  { replace h with (n + (h - n)) at 1 by lia.
    rewrite seqZ_app by lia. f_equal. rewrite Z.add_0_l.
    by rewrite (seqZ_cons n (h - n)) by lia. }
  rewrite print_rows_io_app.
  2:{ apply Forall_forall. intros r Hr. apply elem_of_seqZ in Hr. lia. }
  cbn [print_rows_io]. rewrite (py_get_out dg n) by lia. cbn [fst snd].
  rewrite app_nil_r. f_equal.
  apply list_eq. intros i. rewrite !list_lookup_fmap.
  destruct (decide (i < length dg)%nat) as [Hi|Hi].
  - rewrite lookup_seqZ_lt by lia. simpl.
    destruct (lookup_lt_is_Some_2 dg i Hi) as [l Hl].
    rewrite Hl. simpl. replace (Z.to_nat (0 + Z.of_nat i)) with i by lia.
    by rewrite Hl.
  - rewrite lookup_seqZ_ge by lia. by rewrite lookup_ge_None_2 by lia.
Qed.

(** X15: when the path holds a coordinate, other than [start] and [end],
    that is no valid index of the grid (at or past an edge, or below minus
    the size), [display] raises [IndexError] before it has printed a
    line. *)
Theorem display_out_of_range_raises (s : store) (o : MazeObj)
    (path : list coord) (p : coord) :
  wf_obj s o ->
  p ∈ path -> p <> o_start o -> p <> o_end o ->
  p.1 < - o_height o \/ o_height o <= p.1 \/
  p.2 < - o_width o \/ o_width o <= p.2 ->
  display_io s o (Some path) = ([], Raise IndexError) /\
  display s o (Some path) = Raise IndexError.
Proof.
  intros [Hlocs Hwf] Hin Hst Hen Hfar.
  assert (display_io s o (Some path) = ([], Raise IndexError)) as Hio.
  { unfold display_io.
    destruct (copy_rows s (o_grid o)) as [s1 dg] eqn:Hcopy.
    destruct (copy_rows_value _ _ _ _ Hlocs Hcopy) as (-> & Hmap & _ & _).
    destruct path as [|p0 ps]; [by apply elem_of_nil in Hin|].
    pose proof (overlay_sim (next s) (length (o_grid o)) (o_start o) (o_end o)
                  (p0 :: ps) s1) as Hsim.
    rewrite Hmap in Hsim.
    rewrite (overlay_v_far (o_height o) (o_width o) _ _ _ p) in Hsim by done.
    by rewrite Hsim. }
  split; [done|]. by rewrite display_io_result, Hio.
Qed.

Lemma display_out_of_range_raises_witness :
  display_io (load two_routes).1 (load two_routes).2 (Some [(1, 2); (5, 0)]) =
    ([], Raise IndexError) /\
  display (load two_routes).1 (load two_routes).2 (Some [(1, 2); (5, 0)]) =
    Raise IndexError.
Proof.
  apply (display_out_of_range_raises _ _ [(1, 2); (5, 0)] (5, 0)).
  - split; [repeat constructor|]. split; [reflexivity|repeat constructor].
  - right. left.
  - discriminate.
  - discriminate.
  - simpl. lia.
Defined.

(** X24: when the grid has fewer rows than [height] says and no path is
    drawn, [display] prints every row the grid has and then raises
    [IndexError]: the output before the exception is not lost. *)
Theorem display_short_grid (s : store) (o : MazeObj) (path : option (list coord)) :
  Forall (fun l => (l < next s)%nat) (o_grid o) ->
  path = None \/ path = Some [] ->
  Z.of_nat (length (o_grid o)) < o_height o ->
  display_io s o path =
    (map string_of_list_ascii (grid_of s o), Raise IndexError).
Proof.
  intros Hlocs Hpath Hshort. unfold display_io.
  destruct (copy_rows s (o_grid o)) as [s1 dg] eqn:Hcopy.
  destruct (copy_rows_value _ _ _ _ Hlocs Hcopy) as (Hdg & Hmap & _ & _).
  assert (length dg = length (o_grid o)) as Hlen by (by rewrite Hdg, length_seq).
  assert (match path with
          | Some (p :: ps) => overlay s1 dg (o_start o) (o_end o) (p :: ps)
          | _ => Ok s1
          end = Ok s1) as -> by (by destruct Hpath as [-> | ->]).
  rewrite print_rows_io_short by lia.
  by rewrite <- Hmap, map_map.
Qed.

Lemma display_short_grid_witness :
  display_io (load (mkMaze 5 7 (grid two_routes) (1, 1) (3, 3))).1
             (load (mkMaze 5 7 (grid two_routes) (1, 1) (3, 3))).2 None =
    (["#####"; "#S  #"; "# # #"; "#  E#"; "#####"]%string, Raise IndexError).
Proof.
  apply (display_short_grid (load (mkMaze 5 7 (grid two_routes) (1, 1) (3, 3))).1
                            (load (mkMaze 5 7 (grid two_routes) (1, 1) (3, 3))).2 None).
  - repeat constructor.
  - by left.
  - simpl. lia.
Defined.

(** ** Determinism in the choices made *)

Lemma generate_loop_log_unfold fuel rnd m k g cr cc rest :
  generate_loop_log (S fuel) rnd m k g ((cr, cc) :: rest) =
  match unvisited_neighbors m g cr cc gen_directions with
  | Ok [] => generate_loop_log fuel rnd m k g rest
  | Ok (x0 :: xs) =>
      let '(nr, nc) := choice rnd k x0 xs in
      match g1 ← grid_set g nr nc Path;
            grid_set g1 (cr + (nr - cr) / 2) (cc + (nc - cc) / 2) Path with
      | Ok g2 =>
          let '(log, res) :=
            generate_loop_log fuel rnd m (S k) g2 ((nr, nc) :: (cr, cc) :: rest) in
          ((nr, nc) :: log, res)
      | Raise e => ([(nr, nc)], Raise e)
      | OutOfFuel => ([(nr, nc)], OutOfFuel)
      end
  | Raise e => ([], Raise e)
  | OutOfFuel => ([], OutOfFuel)
  end.
Proof. done. Qed.

(** The logged loop computes what the loop computes. *)
Lemma generate_loop_log_result rnd m fuel :
  forall k g stack,
    (generate_loop_log fuel rnd m k g stack).2 = generate_loop fuel rnd m k g stack.
Proof.
  induction fuel as [|fuel IH]; intros k g stack; [done|].
  destruct stack as [|[cr cc] rest]; [done|].
  rewrite generate_loop_log_unfold, generate_loop_unfold.
  destruct (unvisited_neighbors m g cr cc gen_directions) as [[|x0 xs]| |];
    simpl; try done.
  destruct (choice rnd k x0 xs) as [nr nc].
  destruct (grid_set g nr nc Path) as [g1| |]; simpl; try done.
  destruct (grid_set g1 _ _ Path) as [g2| |]; simpl; try done.
  specialize (IH (S k) g2 ((nr, nc) :: (cr, cc) :: rest)).
  by destruct (generate_loop_log fuel rnd m (S k) g2 _).
Qed.

(** Two runs of the loop from the same grid and stack whose calls of
    [random.choice] return the same values end alike, whatever the random
    sources are and wherever on their tapes the runs start. *)
Lemma generate_loop_same_choices rnd1 rnd2 m fuel :
  forall k1 k2 g stack,
    (generate_loop_log fuel rnd1 m k1 g stack).1 =
    (generate_loop_log fuel rnd2 m k2 g stack).1 ->
    generate_loop fuel rnd1 m k1 g stack = generate_loop fuel rnd2 m k2 g stack.
Proof.
  induction fuel as [|fuel IH]; intros k1 k2 g stack; [done|].
  destruct stack as [|[cr cc] rest]; [done|].
  rewrite !generate_loop_log_unfold, !generate_loop_unfold.
  destruct (unvisited_neighbors m g cr cc gen_directions) as [[|x0 xs]| |];
    simpl; try done.
  { apply IH. }
  destruct (choice rnd1 k1 x0 xs) as [nr1 nc1].
  destruct (choice rnd2 k2 x0 xs) as [nr2 nc2].
  intros Hlog.
  assert ((nr1, nc1) = (nr2, nc2)) as [= -> ->].
  { destruct (grid_set g nr1 nc1 Path) as [g1| |];
      destruct (grid_set g nr2 nc2 Path) as [g1'| |]; simpl in Hlog;
      repeat match type of Hlog with
             | context [match ?x with _ => _ end] => destruct x
             end; simpl in Hlog; congruence. }
  destruct (grid_set g nr2 nc2 Path) as [g1| |]; simpl in *; try done.
  destruct (grid_set g1 _ _ Path) as [g2| |]; simpl in *; try done.
  apply IH.
  destruct (generate_loop_log fuel rnd1 m (S k1) g2 _) as [l1 r1].
  destruct (generate_loop_log fuel rnd2 m (S k2) g2 _) as [l2 r2].
  simpl in *. congruence.
Qed.

Lemma generated_same_choices rnd1 rnd2 w0 h0 :
  choices rnd1 w0 h0 = choices rnd2 w0 h0 ->
  generated rnd1 w0 h0 = generated rnd2 w0 h0.
Proof.
  unfold choices, generated, generate.
  destruct (Maze_init w0 h0) as [m| |]; simpl; try done.
  destruct (start m) as [sr sc].
  destruct (grid_set (grid m) sr sc Path) as [g0| |]; simpl; try done.
  intros Hc. by rewrite (generate_loop_same_choices rnd1 rnd2 m _ 0%nat 0%nat g0 _ Hc).
Qed.

(** The choices matter: on a 7 by 5 maze, always taking the first
    candidate and always taking the second give different grids. *)
Example generate_depends_on_choices :
  generated (fun _ => 0%nat) 7 5 <> generated (fun _ => 1%nat) 7 5.
Proof. vm_compute. discriminate. Qed.

(** C9: two runs of [generate] then [solve] on mazes constructed with the
    same [width] and [height], in which [random.choice] returns the same
    sequence of values, end alike: identical mazes (grids included) and
    identical results of [solve], or the same exception. The random
    sources themselves may differ; only the choices made count. For
    dimensions of at least 2 both runs do produce a maze and a path. *)
Theorem generate_solve_deterministic (rnd1 rnd2 : nat -> nat) (w0 h0 : Z) :
  choices rnd1 w0 h0 = choices rnd2 w0 h0 ->
  generated rnd1 w0 h0 = generated rnd2 w0 h0 /\
  (m' ← generated rnd1 w0 h0; solve m') = (m' ← generated rnd2 w0 h0; solve m') /\
  (2 <= w0 -> 2 <= h0 ->
   exists m' path,
     generated rnd1 w0 h0 = Ok m' /\ generated rnd2 w0 h0 = Ok m' /\
     solve m' = Ok (Some path)).
Proof.
  intros Hc. pose proof (generated_same_choices rnd1 rnd2 w0 h0 Hc) as Heq.
  split; [done|]. split; [by rewrite Heq|].
  intros Hw Hh.
  destruct (generated_solved rnd1 w0 h0 Hw Hh)
    as (m & g1 & g3 & path & Hg & _ & _ & _ & _ & _ & _ & _ & Hs & _).
  exists (with_grid m g3), path. by rewrite <- Heq.
Qed.

Lemma generate_solve_deterministic_witness :
  generated (fun k => k) 7 5 = generated (fun k => (k + 6)%nat) 7 5 /\
  (m' ← generated (fun k => k) 7 5; solve m') =
  (m' ← generated (fun k => (k + 6)%nat) 7 5; solve m') /\
  (2 <= 7 -> 2 <= 5 ->
   exists m' path,
     generated (fun k => k) 7 5 = Ok m' /\
     generated (fun k => (k + 6)%nat) 7 5 = Ok m' /\
     solve m' = Ok (Some path)).
Proof.
  apply (generate_solve_deterministic (fun k => k) (fun k => (k + 6)%nat) 7 5).
  vm_compute. reflexivity.
Defined.
